(** * Data-center load simulation: a shallow embedding and its properties

    The development follows the Python sources module by module:
    [request.py], [server.py], [load_balancer.py], [metrics.py] and
    [simulation_engine.py].

    Modelling conventions.
    - Python [float] times are idealised as exact rationals ([Q]); rounding,
      NaN and overflow are outside the model.  The one infinite value the
      program uses, the default timeout [float("inf")], has its own
      constructor.  Where a property depends on rounding, the functions
      concerned are embedded a second time over binary64 numbers, in the
      module [Float64].
    - Python [int] values are [Z]; [len] of a list is a [nat].
    - A raised exception is the [Raise] result; code that cannot raise is a
      plain function.
    - Objects are values.  A [ServerNode] is identified by its position in
      the server list, which the engine and the load balancer share: the
      model keeps that list once, inside the balancer.
    - The numpy random stream is an input: for every tick, the list of the
      service times drawn during that tick (its length is the Poisson
      count). *)

From Stdlib Require Import PrimFloat.
From Stdlib Require Import String ZArith QArith Qround Lqa Lia Bool List.
From Stdlib Require Import Permutation Sorted.
Import ListNotations.

Local Open Scope Z_scope.

(** ** Exceptions *)

Inductive exn : Type :=
| ValueError
| RuntimeError
| TypeError
| ZeroDivisionError
| IndexError.

Inductive result (A : Type) : Type :=
| Ok (a : A)
| Raise (e : exn).

Arguments Ok {A} a.
Arguments Raise {A} e.

Definition bind {A B : Type} (c : result A) (k : A -> result B) : result B :=
  match c with
  | Ok a => k a
  | Raise e => Raise e
  end.

Notation "x <- c ;; k" := (bind c (fun x => k))
  (at level 61, c at next level, right associativity).
Notation "' p <- c ;; k" := (bind c (fun p => k))
  (at level 61, p pattern, c at next level, right associativity).

(** ** Python numerics on rationals *)

(** [x > y] on floats. *)
Definition Qgt_bool (x y : Q) : bool := negb (Qle_bool x y).

(** [x >= y] on floats. *)
Definition Qge_bool (x y : Q) : bool := Qle_bool y x.

(** [int(x)]: truncation toward zero. *)
Definition py_int (x : Q) : Z := Z.quot (Qnum x) (Zpos (Qden x)).

(** [x / y] on floats raises when the divisor is zero. *)
Definition py_div (x y : Q) : result Q :=
  if Qeq_bool y 0 then Raise ZeroDivisionError else Ok (x / y)%Q.

(** Truth value of an optional float: [None] and [0.0] are falsy. *)
Definition truthy (o : option Q) : bool :=
  match o with
  | None => false
  | Some q => negb (Qeq_bool q 0)
  end.

(** A float that may be [float("inf")]. *)
Inductive bound : Type :=
| Finite (q : Q)
| Infinity.

(** [x > b] where [b] may be infinite. *)
Definition exceeds (x : Q) (b : bound) : bool :=
  match b with
  | Finite q => Qgt_bool x q
  | Infinity => false
  end.

(** ** request.py *)

Record ClientRequest : Type := mkClientRequest {
  request_id : Z;
  arrival_time : Q;
  service_time : Q;
  timeout : bound;
  start_service_time : option Q;
  completion_time : option Q
}.

Definition set_start_service_time (r : ClientRequest) (v : option Q) : ClientRequest :=
  mkClientRequest (request_id r) (arrival_time r) (service_time r) (timeout r)
                  v (completion_time r).

Definition set_completion_time (r : ClientRequest) (v : option Q) : ClientRequest :=
  mkClientRequest (request_id r) (arrival_time r) (service_time r) (timeout r)
                  (start_service_time r) v.

(** [ClientRequest._id_counter], the class attribute, starts at 0 when the
    module is loaded. *)
Definition id_counter_initial : Z := 0.

(** [ClientRequest.__init__]: the class-level counter is state of the whole
    process, so it is passed in and returned. *)
Definition ClientRequest_init (id_counter : Z) (arrival service : Q) (tmo : bound)
  : Z * ClientRequest :=
  let id_counter' := id_counter + 1 in
  (id_counter', mkClientRequest id_counter' arrival service tmo None None).

Definition wait_time (r : ClientRequest) : option Q :=
  match start_service_time r with
  | None => None
  | Some s => Some (s - arrival_time r)%Q
  end.

Definition response_time (r : ClientRequest) : option Q :=
  match completion_time r with
  | None => None
  | Some c => Some (c - arrival_time r)%Q
  end.

Definition is_timed_out (r : ClientRequest) (current_time : Q) : bool :=
  match start_service_time r with
  | Some _ => false
  | None => exceeds (current_time - arrival_time r)%Q (timeout r)
  end.

(** ** server.py *)

Record ServerNode : Type := mkServerNode {
  server_id : Z;
  server_service_rate : Q;
  queue : list ClientRequest;
  current_request : option ClientRequest;
  completed_ : list ClientRequest
}.

Definition set_current_request (s : ServerNode) (v : option ClientRequest)
  : ServerNode :=
  mkServerNode (server_id s) (server_service_rate s) (queue s) v (completed_ s).

Definition ServerNode_init (sid : Z) (rate : Q) : ServerNode :=
  mkServerNode sid rate [] None [].

Definition enqueue (s : ServerNode) (r : ClientRequest) : ServerNode :=
  mkServerNode (server_id s) (server_service_rate s) (queue s ++ [r])
               (current_request s) (completed_ s).

Definition queue_length (s : ServerNode) : nat := length (queue s).

Definition is_busy (s : ServerNode) : bool :=
  match current_request s with
  | Some _ => true
  | None => false
  end.

(** Step 1 of [tick].  Comparing the clock with an unset completion time is
    a [TypeError] in Python. *)
Definition tick_finish (s : ServerNode) (current_time : Q)
  : result (ServerNode * list ClientRequest) :=
  match current_request s with
  | None => Ok (s, [])
  | Some req =>
      match completion_time req with
      | None => Raise TypeError
      | Some c =>
          if Qge_bool current_time c then
            let req' := set_completion_time req (Some current_time) in
            Ok (mkServerNode (server_id s) (server_service_rate s) (queue s)
                             None (completed_ s ++ [req']),
                [req'])
          else Ok (s, [])
      end
  end.

(** Step 2 of [tick]. *)
Definition tick_start (s : ServerNode) (current_time : Q) : ServerNode :=
  match current_request s, queue s with
  | None, next_req :: rest =>
      let started := set_start_service_time next_req (Some current_time) in
      let scheduled :=
        set_completion_time started
          (Some (current_time + service_time started)%Q) in
      mkServerNode (server_id s) (server_service_rate s) rest
                   (Some scheduled) (completed_ s)
  | _, _ => s
  end.

Definition tick (s : ServerNode) (current_time : Q)
  : result (ServerNode * list ClientRequest) :=
  ' (s1, completed_this_tick) <- tick_finish s current_time ;;
  Ok (tick_start s1 current_time, completed_this_tick).

(** The loop of [drop_timed_out]: one pass over the queue, appending each
    request to one of the two accumulators. *)
Fixpoint drop_loop (q timed_out remaining : list ClientRequest) (current_time : Q)
  : list ClientRequest * list ClientRequest :=
  match q with
  | [] => (timed_out, remaining)
  | req :: q' =>
      if is_timed_out req current_time
      then drop_loop q' (timed_out ++ [req]) remaining current_time
      else drop_loop q' timed_out (remaining ++ [req]) current_time
  end.

Definition drop_timed_out (s : ServerNode) (current_time : Q)
  : ServerNode * list ClientRequest :=
  let '(timed_out, remaining) := drop_loop (queue s) [] [] current_time in
  (mkServerNode (server_id s) (server_service_rate s) remaining
                (current_request s) (completed_ s),
   timed_out).

(** ** load_balancer.py *)

Definition ALGORITHMS : list string :=
  ["round_robin"%string; "least_loaded"%string].

Record LoadBalancer : Type := mkLoadBalancer {
  servers : list ServerNode;
  algorithm : string;
  rr_index : Z
}.

(** [algorithm not in self.ALGORITHMS] decides whether construction
    raises. *)
Definition LoadBalancer_init (ss : list ServerNode) (alg : string)
  : result LoadBalancer :=
  if existsb (String.eqb alg) ALGORITHMS
  then Ok (mkLoadBalancer ss alg 0)
  else Raise ValueError.

(** [l[i]] for a list and an integer, with Python's negative indices. *)
Definition py_index {A : Type} (l : list A) (i : Z) : result A :=
  let n := Z.of_nat (length l) in
  let j := if i <? 0 then i + n else i in
  if (0 <=? j) && (j <? n) then
    match nth_error l (Z.to_nat j) with
    | Some x => Ok x
    | None => Raise IndexError
    end
  else Raise IndexError.

(** [_round_robin] returns the position of the chosen server and advances
    the pointer.  [%] by the length of an empty list raises. *)
Definition _round_robin (lb : LoadBalancer) : result (LoadBalancer * nat) :=
  match servers lb with
  | [] => Raise ZeroDivisionError
  | _ :: _ =>
      let i := rr_index lb mod Z.of_nat (length (servers lb)) in
      Ok (mkLoadBalancer (servers lb) (algorithm lb) (rr_index lb + 1),
          Z.to_nat i)
  end.

(** The scan of the builtin [min] with a key: the running best is replaced
    only by a strictly smaller key.  [best] is the position of the running
    best, [i] the position of the head of [l]. *)
Fixpoint min_scan (best : nat) (best_key : nat) (i : nat) (l : list ServerNode)
  : nat :=
  match l with
  | [] => best
  | s :: l' =>
      if (queue_length s <? best_key)%nat
      then min_scan i (queue_length s) (S i) l'
      else min_scan best best_key (S i) l'
  end.

(** [_least_loaded]: [min] of an empty sequence raises [ValueError]. *)
Definition _least_loaded (lb : LoadBalancer) : result nat :=
  match servers lb with
  | [] => Raise ValueError
  | s :: rest => Ok (min_scan 0%nat (queue_length s) 1%nat rest)
  end.

(** In-place update of the object at position [i]. *)
Fixpoint update_at {A : Type} (i : nat) (f : A -> A) (l : list A) : list A :=
  match l, i with
  | [], _ => []
  | x :: l', O => f x :: l'
  | x :: l', S i' => x :: update_at i' f l'
  end.

(** [dispatch] returns the balancer after the call and the position of the
    chosen server. *)
Definition dispatch (lb : LoadBalancer) (request : ClientRequest)
  : result (LoadBalancer * nat) :=
  match servers lb with
  | [] => Raise RuntimeError
  | _ :: _ =>
      ' (lb1, target) <-
        (if String.eqb (algorithm lb) "round_robin"
         then _round_robin lb
         else (i <- _least_loaded lb ;; Ok (lb, i))) ;;
      Ok (mkLoadBalancer
            (update_at target (fun s => enqueue s request) (servers lb1))
            (algorithm lb1) (rr_index lb1),
          target)
  end.

(** ** metrics.py *)

Record MetricsCollector : Type := mkMetricsCollector {
  completed_requests : Z;
  dropped_requests : Z;
  total_response_time : Q;
  response_times : list Q
}.

Definition MetricsCollector_init : MetricsCollector :=
  mkMetricsCollector 0 0 0%Q [].

Definition record_completion (m : MetricsCollector) (request : ClientRequest)
  : MetricsCollector :=
  match response_time request with
  | None => m
  | Some rt =>
      mkMetricsCollector (completed_requests m + 1) (dropped_requests m)
                         (total_response_time m + rt)%Q
                         (response_times m ++ [rt])
  end.

Definition record_drop (m : MetricsCollector) (request : ClientRequest)
  : MetricsCollector :=
  mkMetricsCollector (completed_requests m) (dropped_requests m + 1)
                     (total_response_time m) (response_times m).

Definition average_response_time (m : MetricsCollector) : Q :=
  if completed_requests m =? 0 then 0%Q
  else (total_response_time m / inject_Z (completed_requests m))%Q.

Definition total_requests (m : MetricsCollector) : Z :=
  completed_requests m + dropped_requests m.

Definition drop_rate (m : MetricsCollector) : Q :=
  if total_requests m =? 0 then 0%Q
  else (inject_Z (dropped_requests m) / inject_Z (total_requests m))%Q.

(** The builtin [sorted] is a stable sort; on a list of numbers every stable
    sort returns the same list.  Insertion from the right, placing an
    element before the elements it does not exceed, is stable. *)
Fixpoint insert_sorted (x : Q) (l : list Q) : list Q :=
  match l with
  | [] => [x]
  | y :: l' => if Qle_bool x y then x :: y :: l' else y :: insert_sorted x l'
  end.

Definition sorted (l : list Q) : list Q := fold_right insert_sorted [] l.

(** The index [percentile] computes. *)
Definition percentile_index (count : nat) (p : Q) : Z :=
  Z.max 0 (py_int (inject_Z (Z.of_nat count) * p / 100)%Q - 1).

Definition percentile (m : MetricsCollector) (p : Q) : result Q :=
  match response_times m with
  | [] => Ok 0%Q
  | _ :: _ =>
      let sorted_rt := sorted (response_times m) in
      let idx := percentile_index (length sorted_rt) p in
      py_index sorted_rt idx
  end.

(** ** simulation_engine.py *)

Record SimulationEngine : Type := mkSimulationEngine {
  arrival_rate : Q;
  service_rate : Q;
  sim_duration : Q;
  dt : Q;
  request_timeout : bound;
  clock : Q;
  utilization : Q;
  load_balancer : LoadBalancer;
  metrics : MetricsCollector
}.

(** [self.servers] and [self.load_balancer.servers] are one list object. *)
Definition engine_servers (e : SimulationEngine) : list ServerNode :=
  servers (load_balancer e).

(** [range(n)] *)
Definition range (n : Z) : list Z := map Z.of_nat (seq 0 (Z.to_nat n)).

(** [SimulationEngine.__init__].  Seeding only fixes the random stream,
    which is an input of [run] here. *)
Definition SimulationEngine_init (num_servers : Z) (lambda mu duration step : Q)
    (alg : string) (tmo : bound) : result SimulationEngine :=
  rho <- py_div lambda (inject_Z num_servers * mu)%Q ;;
  let ss := map (fun i => ServerNode_init i mu) (range num_servers) in
  lb <- LoadBalancer_init ss alg ;;
  Ok (mkSimulationEngine lambda mu duration step tmo 0%Q rho lb
                         MetricsCollector_init).

(** What a run does to the outside of the servers, in order: the requests
    it constructs and the requests it hands to the collector.  The list of
    events is an observation of the run; no state depends on it. *)
Inductive event : Type :=
| Created (r : ClientRequest)
| Dropped (r : ClientRequest)
| Completed (r : ClientRequest).

Definition set_clock (e : SimulationEngine) (t : Q) : SimulationEngine :=
  mkSimulationEngine (arrival_rate e) (service_rate e) (sim_duration e) (dt e)
    (request_timeout e) t (utilization e) (load_balancer e) (metrics e).

Definition set_load_balancer (e : SimulationEngine) (lb : LoadBalancer)
  : SimulationEngine :=
  mkSimulationEngine (arrival_rate e) (service_rate e) (sim_duration e) (dt e)
    (request_timeout e) (clock e) (utilization e) lb (metrics e).

Definition set_metrics (e : SimulationEngine) (m : MetricsCollector)
  : SimulationEngine :=
  mkSimulationEngine (arrival_rate e) (service_rate e) (sim_duration e) (dt e)
    (request_timeout e) (clock e) (utilization e) (load_balancer e) m.

Definition set_servers (e : SimulationEngine) (ss : list ServerNode)
  : SimulationEngine :=
  set_load_balancer e
    (mkLoadBalancer ss (algorithm (load_balancer e)) (rr_index (load_balancer e))).

(** Step 1 of a tick: one request per drawn service time, created at the
    current clock and dispatched. *)
Fixpoint arrivals (draws : list Q) (now : Q) (tmo : bound)
    (id_counter : Z) (lb : LoadBalancer)
  : result (Z * LoadBalancer * list event) :=
  match draws with
  | [] => Ok (id_counter, lb, [])
  | drawn :: draws' =>
      let '(id_counter1, req) := ClientRequest_init id_counter now drawn tmo in
      ' (lb1, _) <- dispatch lb req ;;
      ' (id_counter2, lb2, evs) <- arrivals draws' now tmo id_counter1 lb1 ;;
      Ok (id_counter2, lb2, Created req :: evs)
  end.

(** Step 2 of a tick: every server drops its timed-out requests and each
    is recorded as a drop. *)
Fixpoint drop_all (ss : list ServerNode) (now : Q) (m : MetricsCollector)
  : list ServerNode * MetricsCollector * list event :=
  match ss with
  | [] => ([], m, [])
  | server :: ss' =>
      let '(server1, dropped) := drop_timed_out server now in
      let m1 := fold_left record_drop dropped m in
      let '(ss1, m2, evs) := drop_all ss' now m1 in
      (server1 :: ss1, m2, map Dropped dropped ++ evs)
  end.

(** Step 3 of a tick: every server advances and each completion is
    recorded. *)
Fixpoint tick_all (ss : list ServerNode) (now : Q) (m : MetricsCollector)
  : result (list ServerNode * MetricsCollector * list event) :=
  match ss with
  | [] => Ok ([], m, [])
  | server :: ss' =>
      ' (server1, completed) <- tick server now ;;
      let m1 := fold_left record_completion completed m in
      ' (ss1, m2, evs) <- tick_all ss' now m1 ;;
      Ok (server1 :: ss1, m2, map Completed completed ++ evs)
  end.

(** The body of the main loop. *)
Definition run_tick (draws : list Q) (id_counter : Z) (e : SimulationEngine)
  : result (Z * SimulationEngine * list event) :=
  let e1 := set_clock e (clock e + dt e)%Q in
  ' (id_counter1, lb1, evs1) <-
    arrivals draws (clock e1) (request_timeout e1) id_counter (load_balancer e1) ;;
  let e2 := set_load_balancer e1 lb1 in
  let '(ss3, m3, evs2) := drop_all (engine_servers e2) (clock e2) (metrics e2) in
  let e3 := set_metrics (set_servers e2 ss3) m3 in
  ' (ss4, m4, evs3) <- tick_all (engine_servers e3) (clock e3) (metrics e3) ;;
  let e4 := set_metrics (set_servers e3 ss4) m4 in
  Ok (id_counter1, e4, evs1 ++ evs2 ++ evs3).

(** The main loop: [count] iterations still to do, [i] the number of the
    next one; [rng i] is what the random stream yields during iteration
    [i]. *)
Fixpoint run_loop (count : nat) (i : nat) (rng : nat -> list Q)
    (id_counter : Z) (e : SimulationEngine)
  : result (Z * SimulationEngine * list event) :=
  match count with
  | O => Ok (id_counter, e, [])
  | S count' =>
      ' (id_counter1, e1, evs1) <- run_tick (rng i) id_counter e ;;
      ' (id_counter2, e2, evs2) <- run_loop count' (S i) rng id_counter1 e1 ;;
      Ok (id_counter2, e2, evs1 ++ evs2)
  end.

(** The body of the loop of [_drain_remaining] for one server.
    [req.completion_time or self.clock] keeps a truthy completion time. *)
Definition drain_server (server : ServerNode) (now : Q) (m : MetricsCollector)
  : ServerNode * MetricsCollector * list event :=
  match current_request server with
  | None => (server, m, [])
  | Some req =>
      let req' :=
        set_completion_time req
          (if truthy (completion_time req) then completion_time req
           else Some now) in
      (set_current_request server None,
       record_completion m req',
       [Completed req'])
  end.

Fixpoint drain_all (ss : list ServerNode) (now : Q) (m : MetricsCollector)
  : list ServerNode * MetricsCollector * list event :=
  match ss with
  | [] => ([], m, [])
  | server :: ss' =>
      let '(server1, m1, evs1) := drain_server server now m in
      let '(ss1, m2, evs2) := drain_all ss' now m1 in
      (server1 :: ss1, m2, evs1 ++ evs2)
  end.

Definition _drain_remaining (e : SimulationEngine) : SimulationEngine * list event :=
  let '(ss, m, evs) := drain_all (engine_servers e) (clock e) (metrics e) in
  (set_metrics (set_servers e ss) m, evs).

(** [run]: the number of ticks is [int(sim_duration / dt)]; a negative
    number gives an empty [range]. *)
Definition run (rng : nat -> list Q) (id_counter : Z) (e : SimulationEngine)
  : result (Z * SimulationEngine * list event) :=
  ratio <- py_div (sim_duration e) (dt e) ;;
  let num_ticks := py_int ratio in
  ' (id_counter1, e1, evs1) <- run_loop (Z.to_nat num_ticks) 0%nat rng id_counter e ;;
  let '(e2, evs2) := _drain_remaining e1 in
  Ok (id_counter1, e2, evs1 ++ evs2).

(** The events of each kind, in order. *)
Definition created_of (evs : list event) : list ClientRequest :=
  flat_map (fun ev => match ev with Created r => [r] | _ => [] end) evs.

Definition dropped_of (evs : list event) : list ClientRequest :=
  flat_map (fun ev => match ev with Dropped r => [r] | _ => [] end) evs.

Definition completed_of (evs : list event) : list ClientRequest :=
  flat_map (fun ev => match ev with Completed r => [r] | _ => [] end) evs.

(** ** Binary64 arithmetic

    The functions that give a completed request its times and its response
    time, embedded over IEEE binary64 numbers, which is what a Python
    [float] is: [request.py] (the fields and [response_time]), [server.py]
    ([tick]), [metrics.py] ([record_completion]) and the body of the loop
    of [_drain_remaining]. *)

Module Float64.

Record ClientRequest : Type := mkClientRequest {
  request_id : Z;
  arrival_time : float;
  service_time : float;
  timeout : float;
  start_service_time : option float;
  completion_time : option float
}.

Definition set_start_service_time (r : ClientRequest) (v : option float)
  : ClientRequest :=
  mkClientRequest (request_id r) (arrival_time r) (service_time r) (timeout r)
                  v (completion_time r).

Definition set_completion_time (r : ClientRequest) (v : option float)
  : ClientRequest :=
  mkClientRequest (request_id r) (arrival_time r) (service_time r) (timeout r)
                  (start_service_time r) v.

Definition wait_time (r : ClientRequest) : option float :=
  match start_service_time r with
  | None => None
  | Some s => Some (PrimFloat.sub s (arrival_time r))
  end.

Definition response_time (r : ClientRequest) : option float :=
  match completion_time r with
  | None => None
  | Some c => Some (PrimFloat.sub c (arrival_time r))
  end.

Record ServerNode : Type := mkServerNode {
  server_id : Z;
  service_rate : float;
  queue : list ClientRequest;
  current_request : option ClientRequest;
  completed_ : list ClientRequest
}.

(** Step 1 of [tick]; [current_time >= req.completion_time] is
    [completion <= current_time]. *)
Definition tick_finish (s : ServerNode) (current_time : float)
  : result (ServerNode * list ClientRequest) :=
  match current_request s with
  | None => Ok (s, [])
  | Some req =>
      match completion_time req with
      | None => Raise TypeError
      | Some c =>
          if PrimFloat.leb c current_time then
            let req' := set_completion_time req (Some current_time) in
            Ok (mkServerNode (server_id s) (service_rate s) (queue s)
                             None (completed_ s ++ [req']),
                [req'])
          else Ok (s, [])
      end
  end.

(** Step 2 of [tick]. *)
Definition tick_start (s : ServerNode) (current_time : float) : ServerNode :=
  match current_request s, queue s with
  | None, next_req :: rest =>
      let started := set_start_service_time next_req (Some current_time) in
      let scheduled :=
        set_completion_time started
          (Some (PrimFloat.add current_time (service_time started))) in
      mkServerNode (server_id s) (service_rate s) rest
                   (Some scheduled) (completed_ s)
  | _, _ => s
  end.

Definition tick (s : ServerNode) (current_time : float)
  : result (ServerNode * list ClientRequest) :=
  ' (s1, completed_this_tick) <- tick_finish s current_time ;;
  Ok (tick_start s1 current_time, completed_this_tick).

Record MetricsCollector : Type := mkMetricsCollector {
  completed_requests : Z;
  dropped_requests : Z;
  total_response_time : float;
  response_times : list float
}.

Definition MetricsCollector_init : MetricsCollector :=
  mkMetricsCollector 0 0 PrimFloat.zero [].

Definition record_completion (m : MetricsCollector) (request : ClientRequest)
  : MetricsCollector :=
  match response_time request with
  | None => m
  | Some rt =>
      mkMetricsCollector (completed_requests m + 1) (dropped_requests m)
                         (PrimFloat.add (total_response_time m) rt)
                         (response_times m ++ [rt])
  end.

(** Truth value of an optional float: [None] and zero (of either sign)
    are falsy. *)
Definition truthy (o : option float) : bool :=
  match o with
  | None => false
  | Some c => negb (PrimFloat.eqb c PrimFloat.zero)
  end.

(** The body of the loop of [_drain_remaining] for one server. *)
Definition drain_server (server : ServerNode) (now : float) (m : MetricsCollector)
  : ServerNode * MetricsCollector :=
  match current_request server with
  | None => (server, m)
  | Some req =>
      let req' :=
        set_completion_time req
          (if truthy (completion_time req) then completion_time req
           else Some now) in
      (mkServerNode (server_id server) (service_rate server) (queue server)
                    None (completed_ server),
       record_completion m req')
  end.

End Float64.

(** ** main.py *)

(** [run_experiment]: a new engine from [CONFIG] with the given policy, and
    its run; the banners and the report it prints are left out.  Every
    engine is constructed with the same seed, which resets numpy's global
    stream, so every experiment reads the same stream [rng] from its
    start. *)
Definition run_experiment (rng : nat -> list Q) (id_counter : Z) (alg : string)
  : result (Z * SimulationEngine * list event) :=
  e <- SimulationEngine_init 3 2 (3 # 2) 500 1 alg (Finite 50) ;;
  run rng id_counter e.

(** [main]: one experiment per policy, one after the other in the same
    process. *)
Definition main (rng : nat -> list Q) (id_counter : Z)
  : result (Z * (SimulationEngine * list event) * (SimulationEngine * list event)) :=
  ' (c1, e1, evs1) <- run_experiment rng id_counter "round_robin" ;;
  ' (c2, e2, evs2) <- run_experiment rng c1 "least_loaded" ;;
  Ok (c2, (e1, evs1), (e2, evs2)).

(** ** Notions used in the statements *)

(** The timeout predicate of a request at a clock value, as a
    proposition. *)
Definition timed_out_at (r : ClientRequest) (current_time : Q) : Prop :=
  start_service_time r = None /\
  exists tmo, timeout r = Finite tmo /\ (tmo < current_time - arrival_time r)%Q.

(** What step 2 of [tick] makes of the head of the queue. *)
Definition started_at (next_req : ClientRequest) (t : Q) : ClientRequest :=
  mkClientRequest (request_id next_req) (arrival_time next_req)
    (service_time next_req) (timeout next_req)
    (Some t) (Some (t + service_time next_req)%Q).

(** A call of one of the two recording methods of the collector, and a
    sequence of such calls applied in order. *)
Inductive collector_call : Type :=
| RecordCompletion (request : ClientRequest)
| RecordDrop (request : ClientRequest).

Definition apply_call (m : MetricsCollector) (c : collector_call)
  : MetricsCollector :=
  match c with
  | RecordCompletion request => record_completion m request
  | RecordDrop request => record_drop m request
  end.

Definition apply_calls (m : MetricsCollector) (calls : list collector_call)
  : MetricsCollector :=
  fold_left apply_call calls m.

(** The calls [record_completion] returns from early: the request has no
    response time yet. *)
Definition skipped (c : collector_call) : bool :=
  match c with
  | RecordCompletion request =>
      match response_time request with
      | None => true
      | Some _ => false
      end
  | RecordDrop _ => false
  end.

(** Consecutive [dispatch] calls, one per request, with nothing else
    touching the dispatcher in between; the result lists the positions of
    the chosen servers. *)
Fixpoint dispatch_many (lb : LoadBalancer) (requests : list ClientRequest)
  : result (LoadBalancer * list nat) :=
  match requests with
  | [] => Ok (lb, [])
  | request :: requests' =>
      ' (lb1, target) <- dispatch lb request ;;
      ' (lb2, targets) <- dispatch_many lb1 requests' ;;
      Ok (lb2, target :: targets)
  end.

(** The identifier of the server at a position. *)
Definition id_at (ss : list ServerNode) (i : nat) : option Z :=
  option_map server_id (nth_error ss i).

(** [best] is the first position holding a minimal queue length among the
    first [n] servers of [ss]. *)
Definition first_min (ss : list ServerNode) (n best : nat) : Prop :=
  (best < n)%nat /\
  exists sb,
    nth_error ss best = Some sb /\
    forall j s', (j < n)%nat -> nth_error ss j = Some s' ->
                 (queue_length sb <= queue_length s')%nat /\
                 ((j < best)%nat -> (queue_length sb < queue_length s')%nat).

(** The [n] identifiers that follow the counter value [c]. *)
Fixpoint consecutive (c : Z) (n : nat) : list Z :=
  match n with
  | O => []
  | S n' => (c + 1) :: consecutive (c + 1) n'
  end.

(** A sequence of constructor calls, given by their arguments. *)
Fixpoint create_all (id_counter : Z) (args : list (Q * Q * bound))
  : Z * list ClientRequest :=
  match args with
  | [] => (id_counter, [])
  | (arrival, service, tmo) :: args' =>
      let '(id_counter1, req) := ClientRequest_init id_counter arrival service tmo in
      let '(id_counter2, reqs) := create_all id_counter1 args' in
      (id_counter2, req :: reqs)
  end.

(** Timing facts about the requests a server holds at clock value [now]:
    a waiting request arrived at a positive time not after [now] and needs
    a non-negative service time; the request in service moreover started
    between its arrival and [now], and its completion is scheduled at start
    plus service time. *)
Definition waiting_ok (now : Q) (r : ClientRequest) : Prop :=
  (0 < arrival_time r)%Q /\ (arrival_time r <= now)%Q /\
  (0 <= service_time r)%Q.

Definition in_service_ok (now : Q) (r : ClientRequest) : Prop :=
  exists st,
    start_service_time r = Some st /\
    completion_time r = Some (st + service_time r)%Q /\
    (0 < arrival_time r)%Q /\ (arrival_time r <= st)%Q /\ (st <= now)%Q /\
    (0 <= service_time r)%Q.

Definition server_ok (now : Q) (s : ServerNode) : Prop :=
  Forall (waiting_ok now) (queue s) /\
  match current_request s with
  | Some r => in_service_ok now r
  | None => True
  end.

Definition engine_ok (e : SimulationEngine) : Prop :=
  Forall (server_ok (clock e)) (engine_servers e) /\
  (0 <= clock e)%Q /\ (0 < dt e)%Q.

(** The timing of a completed request: arrival, then start of service,
    then completion, which is not before the completion time scheduled at
    the start (start plus service time); and a wait time (start minus
    arrival) that is not negative and not above the response time
    (completion minus arrival). *)
Definition timing_ok (r : ClientRequest) : Prop :=
  exists st c,
    start_service_time r = Some st /\
    completion_time r = Some c /\
    (arrival_time r <= st)%Q /\ (st <= c)%Q /\
    (st + service_time r <= c)%Q /\
    wait_time r = Some (st - arrival_time r)%Q /\
    response_time r = Some (c - arrival_time r)%Q /\
    (0 <= st - arrival_time r)%Q /\
    (st - arrival_time r <= c - arrival_time r)%Q.

(** A number within the range in which binary64 arithmetic stays finite:
    beyond it the product count * p in [percentile] overflows to an
    infinity, and [int] of an infinity raises [OverflowError], which the
    rational model does not have. *)
Definition finite_range (x : Q) : Prop :=
  (- inject_Z (2 ^ 1023) <= x)%Q /\ (x <= inject_Z (2 ^ 1023))%Q.



(** What the collector does on an event. *)
Definition record_event (m : MetricsCollector) (ev : event) : MetricsCollector :=
  match ev with
  | Created _ => m
  | Dropped r => record_drop m r
  | Completed r => record_completion m r
  end.

(** The number of requests a server holds: the waiting ones and the one
    in service. *)
Definition held (s : ServerNode) : nat :=
  (queue_length s + (if is_busy s then 1 else 0))%nat.

Definition held_all (ss : list ServerNode) : nat :=
  fold_right (fun s n => (held s + n)%nat) 0%nat ss.

Definition waiting_all (ss : list ServerNode) : nat :=
  fold_right (fun s n => (queue_length s + n)%nat) 0%nat ss.

(** The waiting-queue lengths of the servers differ by at most one. *)
Definition balanced (ss : list ServerNode) : Prop :=
  forall a b, In a ss -> In b ss -> (queue_length a <= queue_length b + 1)%nat.

(** The response time a call of the collector contributes, if any. *)
Definition contributed (c : collector_call) : list Q :=
  match c with
  | RecordCompletion request =>
      match response_time request with
      | Some rt => [rt]
      | None => []
      end
  | RecordDrop _ => []
  end.

(** Everything of an engine that a run leaves as it is: the parameters,
    the policy and the servers' identifiers. *)
Definition same_configuration (e e' : SimulationEngine) : Prop :=
  arrival_rate e' = arrival_rate e /\
  service_rate e' = service_rate e /\
  sim_duration e' = sim_duration e /\
  dt e' = dt e /\
  request_timeout e' = request_timeout e /\
  utilization e' = utilization e /\
  algorithm (load_balancer e') = algorithm (load_balancer e) /\
  map server_id (engine_servers e') = map server_id (engine_servers e).

(** The response times of the requests of a list that have one. *)
Definition response_times_of (l : list ClientRequest) : list Q :=
  flat_map (fun r => match response_time r with
                     | Some rt => [rt]
                     | None => []
                     end) l.


(** The requests a run constructs: at each of [count] ticks, one request
    per service time the random stream yields, arriving at the clock of the
    tick and carrying the next identifiers. *)
Fixpoint created_at (now : Q) (tmo : bound) (id_counter : Z) (draws : list Q)
  : list ClientRequest :=
  match draws with
  | [] => []
  | drawn :: draws' =>
      mkClientRequest (id_counter + 1) now drawn tmo None None
      :: created_at now tmo (id_counter + 1) draws'
  end.

Fixpoint created_stream (count i : nat) (rng : nat -> list Q) (id_counter : Z)
    (start step : Q) (tmo : bound) : list ClientRequest :=
  match count with
  | O => []
  | S count' =>
      created_at (start + step)%Q tmo id_counter (rng i)
      ++ created_stream count' (S i) rng
           (id_counter + Z.of_nat (length (rng i))) (start + step)%Q step tmo
  end.

(** What a request is given when it is constructed, its identifier
    aside. *)
Definition request_data (r : ClientRequest) : Q * Q * bound :=
  (arrival_time r, service_time r, timeout r).

(** The identifiers of the requests a server has logged as completed, has
    in service and has waiting, in this order; and the statement that they
    increase strictly and do not exceed the identifier counter [c]. *)
Definition in_service (s : ServerNode) : list ClientRequest :=
  match current_request s with
  | Some r => [r]
  | None => []
  end.

Definition server_line (s : ServerNode) : list Z :=
  map request_id (completed_ s ++ in_service s ++ queue s).

Definition in_order (c : Z) (s : ServerNode) : Prop :=
  StronglySorted Z.lt (server_line s) /\ Forall (fun i => i <= c) (server_line s).

(** ** Concrete states *)

(** An idle server with one waiting request. *)
Definition waiting_request : ClientRequest :=
  mkClientRequest 1 0 (5 # 2) Infinity None None.

Definition idle_server : ServerNode :=
  mkServerNode 0 (3 # 2) [waiting_request] None [].

(** A busy server whose request is due, with one more request waiting. *)
Definition due_request : ClientRequest :=
  mkClientRequest 1 0 (1 # 2) Infinity (Some 0%Q) (Some (1 # 2)).

Definition busy_server : ServerNode :=
  mkServerNode 0 (3 # 2) [mkClientRequest 2 0 (5 # 2) Infinity None None]
               (Some due_request) [].

(** A one-tick run on one server: the only request needs 5/2 time units
    and the run lasts 1. *)
Definition short_run_rng (i : nat) : list Q := [5 # 2]%Q.

Definition short_run : result (Z * SimulationEngine * list event) :=
  e <- SimulationEngine_init 1 2 (3 # 2) 1 1 "round_robin" Infinity ;;
  run short_run_rng id_counter_initial e.

Definition short_run_request : ClientRequest :=
  mkClientRequest 1 1 (5 # 2) Infinity (Some 1%Q) (Some (7 # 2)).

(** A drained engine state: one busy server between two idle ones. *)
Definition drain_engine : SimulationEngine :=
  mkSimulationEngine 2 (3 # 2) 3 1 Infinity 3 (4 # 9)
    (mkLoadBalancer
       [ServerNode_init 0 (3 # 2);
        mkServerNode 1 (3 # 2) [] (Some short_run_request) [];
        ServerNode_init 2 (3 # 2)]
       "round_robin" 1)
    MetricsCollector_init.

(** Three servers as the engine builds them, and some request. *)
Definition three_servers : list ServerNode :=
  map (fun i => ServerNode_init i (3 # 2)) (range 3).

Definition some_request : ClientRequest :=
  mkClientRequest 1 1 (1 # 2) Infinity None None.

(** Three servers with 2, 1 and 1 waiting requests, under the least-loaded
    policy. *)
Definition loaded_balancer : LoadBalancer :=
  mkLoadBalancer
    [mkServerNode 0 (3 # 2) [some_request; some_request] None [];
     mkServerNode 1 (3 # 2) [some_request] None [];
     mkServerNode 2 (3 # 2) [some_request] None []]
    "least_loaded" 0.

(** A new engine with two servers, as [SimulationEngine_init 2 2 (3/2) 3 1
    "round_robin" (Finite 50)] returns it, and a random stream. *)
Definition new_engine : SimulationEngine :=
  mkSimulationEngine 2 (3 # 2) 3 1 (Finite 50) 0 (2 / (inject_Z 2 * (3 # 2)))
    (mkLoadBalancer
       [ServerNode_init 0 (3 # 2); ServerNode_init 1 (3 # 2)] "round_robin" 0)
    MetricsCollector_init.

Definition sample_rng (i : nat) : list Q :=
  match i with
  | O => [5 # 2; 1 # 2; 7]%Q
  | S O => [1 # 3]%Q
  | _ => []
  end.

(** A new engine with one server, and the events of two one-tick runs made
    one after the other in the same process. *)
Definition one_server_engine : SimulationEngine :=
  mkSimulationEngine 2 (3 # 2) 1 1 Infinity 0 (2 / (inject_Z 1 * (3 # 2)))
    (mkLoadBalancer [ServerNode_init 0 (3 # 2)] "round_robin" 0)
    MetricsCollector_init.

Definition first_run_events : list event :=
  [Created (mkClientRequest 1 1 (5 # 2) Infinity None None);
   Completed (mkClientRequest 1 1 (5 # 2) Infinity (Some 1%Q) (Some (7 # 2)))].

Definition second_run_events : list event :=
  [Created (mkClientRequest 2 1 (5 # 2) Infinity None None);
   Completed (mkClientRequest 2 1 (5 # 2) Infinity (Some 1%Q) (Some (7 # 2)))].

(** A new engine with two servers, the least-loaded policy and a timeout
    of zero. *)
Definition impatient_engine : SimulationEngine :=
  mkSimulationEngine 2 (3 # 2) 3 1 (Finite 0) 0 (2 / (inject_Z 2 * (3 # 2)))
    (mkLoadBalancer
       [ServerNode_init 0 (3 # 2); ServerNode_init 1 (3 # 2)] "least_loaded" 0)
    MetricsCollector_init.






(** * Properties *)

(** Case analysis on the first call sequenced in [H : ... = Ok _]: the
    raising case contradicts [H], the returning case is left, with the
    outcome of the call recorded in [E]. *)
Tactic Notation "returned" hyp(H) "as" simple_intropattern(p) "eqn" ident(E) :=
  match type of H with
  | context [bind ?c _] =>
      destruct c as [p|?] eqn:E; simpl in H; [|discriminate]
  end.

(** ** Comparisons *)

Lemma Qgt_bool_iff (x y : Q) : Qgt_bool x y = true <-> (y < x)%Q.
Proof.
  unfold Qgt_bool. rewrite negb_true_iff.
  split; intro H.
  - apply Qnot_le_lt. intro Hle. apply Qle_bool_iff in Hle. congruence.
  - destruct (Qle_bool x y) eqn:E; [|reflexivity].
    apply Qle_bool_iff in E. exfalso. apply (Qlt_not_le _ _ H E).
Qed.

Lemma Qge_bool_iff (x y : Q) : Qge_bool x y = true <-> (y <= x)%Q.
Proof. unfold Qge_bool. apply Qle_bool_iff. Qed.

Lemma Qge_bool_false_iff (x y : Q) : Qge_bool x y = false <-> (x < y)%Q.
Proof.
  unfold Qge_bool. split; intro H.
  - apply Qnot_le_lt. intro Hle. apply Qle_bool_iff in Hle. congruence.
  - destruct (Qle_bool y x) eqn:E; [|reflexivity].
    apply Qle_bool_iff in E. exfalso. apply (Qlt_not_le _ _ H E).
Qed.

Lemma set_completion_time_same (r : ClientRequest) :
  set_completion_time r (completion_time r) = r.
Proof. destruct r; reflexivity. Qed.

(** ** Timeout eviction *)

Lemma is_timed_out_iff (r : ClientRequest) (t : Q) :
  is_timed_out r t = true <-> timed_out_at r t.
Proof.
  unfold is_timed_out, timed_out_at, exceeds.
  destruct (start_service_time r) as [st|].
  - split; [discriminate | intros [H _]; discriminate].
  - destruct (timeout r) as [tmo|].
    + rewrite Qgt_bool_iff. split.
      * intro H. split; [reflexivity | exists tmo; split; [reflexivity | exact H]].
      * intros [_ [tmo' [E H]]]. injection E as ->. exact H.
    + split; [discriminate | intros [_ [tmo' [E _]]]; discriminate].
Qed.

Lemma drop_loop_filter (q timed_out remaining : list ClientRequest) (t : Q) :
  drop_loop q timed_out remaining t =
  (timed_out ++ filter (fun r => is_timed_out r t) q,
   remaining ++ filter (fun r => negb (is_timed_out r t)) q).
Proof.
  revert timed_out remaining.
  induction q as [|req q IH]; intros timed_out remaining; simpl.
  - now rewrite !app_nil_r.
  - destruct (is_timed_out req t); simpl; rewrite IH, <- app_assoc; reflexivity.
Qed.

(** C3.  At every clock value [drop_timed_out] returns exactly the waiting
    requests that have not started service and whose wait (clock minus
    arrival) strictly exceeds their timeout, leaves the other waiting
    requests in the queue in their original order, and does not touch the
    request in service; a request that has started service is never timed
    out. *)
Theorem drop_timed_out_partition (s : ServerNode) (current_time : Q) :
  (forall r, is_timed_out r current_time = true <-> timed_out_at r current_time) /\
  (forall r, start_service_time r <> None -> is_timed_out r current_time = false) /\
  snd (drop_timed_out s current_time) =
    filter (fun r => is_timed_out r current_time) (queue s) /\
  queue (fst (drop_timed_out s current_time)) =
    filter (fun r => negb (is_timed_out r current_time)) (queue s) /\
  current_request (fst (drop_timed_out s current_time)) = current_request s /\
  completed_ (fst (drop_timed_out s current_time)) = completed_ s /\
  server_id (fst (drop_timed_out s current_time)) = server_id s.
Proof.
  split; [intro r; apply is_timed_out_iff|].
  split.
  { intros r H. unfold is_timed_out.
    destruct (start_service_time r); [reflexivity | contradiction]. }
  unfold drop_timed_out. rewrite drop_loop_filter. simpl. repeat split.
Qed.

(** ** Server advance *)

Lemma tick_start_idle (s : ServerNode) (t : Q) :
  current_request s = None ->
  completed_ (tick_start s t) = completed_ s /\
  server_id (tick_start s t) = server_id s /\
  match queue s with
  | [] => tick_start s t = s
  | next_req :: rest =>
      current_request (tick_start s t) = Some (started_at next_req t) /\
      queue (tick_start s t) = rest
  end.
Proof.
  intro H. unfold tick_start. rewrite H.
  destruct (queue s) as [|next_req rest]; simpl; repeat split.
Qed.

Lemma tick_start_busy (s : ServerNode) (t : Q) (req : ClientRequest) :
  current_request s = Some req -> tick_start s t = s.
Proof. intro H. unfold tick_start. now rewrite H. Qed.

(** C2, as stated, fails: the server below is idle, so the condition "busy
    and due" is false, yet [tick] changes its state and queue. *)
Lemma tick_idle_server_changes :
  is_busy idle_server = false /\
  exists s', tick idle_server 1 = Ok (s', []) /\
             current_request s' = Some (started_at waiting_request 1) /\
             queue s' = [] /\
             current_request s' <> current_request idle_server /\
             queue s' <> queue idle_server.
Proof.
  split; [reflexivity|].
  eexists. split; [reflexivity|].
  repeat split; simpl; discriminate.
Qed.

(** C2, amended.  For every server and clock value:
    - busy and due (clock at or past the completion time): the request's
      completion time is set to the clock, it is returned as the one
      completion and logged, and in the same call the head of a non-empty
      queue is popped and started (start = clock, completion = clock plus
      service duration); with an empty queue the server becomes idle;
    - busy and not due: server and queue unchanged, no completion;
    - idle: no completion; the head of a non-empty queue is popped and
      started in the same way, and with an empty queue nothing changes. *)
Theorem tick_cases (s : ServerNode) (current_time : Q) :
  (forall req c,
      current_request s = Some req -> completion_time req = Some c ->
      (c <= current_time)%Q ->
      exists s',
        tick s current_time = Ok (s', [set_completion_time req (Some current_time)]) /\
        completed_ s' = completed_ s ++ [set_completion_time req (Some current_time)] /\
        match queue s with
        | [] => current_request s' = None /\ queue s' = []
        | next_req :: rest =>
            current_request s' = Some (started_at next_req current_time) /\
            queue s' = rest
        end) /\
  (forall req c,
      current_request s = Some req -> completion_time req = Some c ->
      (current_time < c)%Q ->
      tick s current_time = Ok (s, [])) /\
  (current_request s = None ->
   exists s',
     tick s current_time = Ok (s', []) /\
     completed_ s' = completed_ s /\
     match queue s with
     | [] => s' = s
     | next_req :: rest =>
         current_request s' = Some (started_at next_req current_time) /\
         queue s' = rest
     end).
Proof.
  split; [|split].
  - intros req c Hcur Hc Hle.
    apply Qge_bool_iff in Hle.
    unfold tick, tick_finish. rewrite Hcur, Hc, Hle. simpl.
    eexists. split; [reflexivity|].
    unfold tick_start; simpl.
    destruct (queue s) as [|next_req rest]; simpl; repeat split.
  - intros req c Hcur Hc Hlt.
    apply Qge_bool_false_iff in Hlt.
    unfold tick, tick_finish. rewrite Hcur, Hc, Hlt. simpl.
    now rewrite (tick_start_busy s current_time req Hcur).
  - intro Hcur.
    unfold tick, tick_finish. rewrite Hcur. simpl.
    eexists. split; [reflexivity|].
    destruct (tick_start_idle s current_time Hcur) as [H1 [_ H2]].
    split; assumption.
Qed.

Lemma tick_cases_witness :
  exists s',
    tick busy_server 1 = Ok (s', [set_completion_time due_request (Some 1%Q)]) /\
    completed_ s' = [] ++ [set_completion_time due_request (Some 1%Q)] /\
    current_request s' =
      Some (started_at (mkClientRequest 2 0 (5 # 2) Infinity None None) 1) /\
    queue s' = [].
Proof.
  apply (proj1 (tick_cases busy_server 1) due_request (1 # 2)).
  - reflexivity.
  - reflexivity.
  - vm_compute. discriminate.
Defined.

(** ** Drain *)

Lemma drain_all_app (before rest : list ServerNode) (now : Q) (m : MetricsCollector) :
  drain_all (before ++ rest) now m =
  let '(before', m1, evs1) := drain_all before now m in
  let '(rest', m2, evs2) := drain_all rest now m1 in
  (before' ++ rest', m2, evs1 ++ evs2).
Proof.
  revert m. induction before as [|s before IH]; intro m; simpl.
  - destruct (drain_all rest now m) as [[rest' m2] evs2]. reflexivity.
  - destruct (drain_server s now m) as [[s1 m1] evs1].
    rewrite IH.
    destruct (drain_all before now m1) as [[before' m2] evs2].
    destruct (drain_all rest now m2) as [[rest' m3] evs3].
    simpl. now rewrite app_assoc.
Qed.

Lemma drain_all_shape (ss : list ServerNode) (now : Q) (m : MetricsCollector) :
  let '(ss', m', evs) := drain_all ss now m in
  length ss' = length ss /\
  Forall (fun s' => current_request s' = None) ss' /\
  length evs = length (filter is_busy ss) /\
  m' = fold_left record_completion (completed_of evs) m.
Proof.
  revert m. induction ss as [|s ss IH]; intro m; simpl.
  - repeat split. constructor.
  - unfold drain_server, is_busy.
    destruct (current_request s) as [req|] eqn:Hcur.
    + specialize (IH (record_completion m
          (set_completion_time req
             (if truthy (completion_time req) then completion_time req
              else Some now)))).
      destruct (drain_all ss now _) as [[ss1 m2] evs2].
      destruct IH as [H1 [H2 [H3 H4]]].
      simpl. repeat split; [congruence | | f_equal; exact H3 | exact H4].
      constructor; [reflexivity | exact H2].
    + specialize (IH m).
      destruct (drain_all ss now m) as [[ss1 m2] evs2].
      destruct IH as [H1 [H2 [H3 H4]]].
      simpl. repeat split; [congruence | | exact H3 | exact H4].
      constructor; [exact Hcur | exact H2].
Qed.

Lemma drain_server_truthy (s : ServerNode) (now : Q) (m : MetricsCollector)
    (req : ClientRequest) (c : Q) :
  current_request s = Some req -> completion_time req = Some c -> ~ (c == 0)%Q ->
  drain_server s now m =
  (set_current_request s None, record_completion m req, [Completed req]).
Proof.
  intros Hcur Hc Hnz. unfold drain_server. rewrite Hcur, Hc. simpl.
  destruct (Qeq_bool c 0) eqn:E.
  - apply Qeq_bool_iff in E. contradiction.
  - simpl. rewrite <- Hc, set_completion_time_same. reflexivity.
Qed.

(** C1, as stated, fails: in the one-tick run below the request starts at
    clock 1 with completion scheduled at 7/2; the run ends at clock 1 and
    the drain records the request with completion time 7/2, not 1. *)
Lemma drain_does_not_overwrite :
  exists e,
    short_run =
      Ok (1, e, [Created (mkClientRequest 1 1 (5 # 2) Infinity None None);
                 Completed short_run_request]) /\
    clock e = 1%Q /\
    completion_time short_run_request = Some (7 # 2) /\
    (clock e < 7 # 2)%Q /\
    response_times (metrics e) = [(7 # 2) - 1]%Q /\
    Forall (fun s => current_request s = None) (engine_servers e).
Proof.
  eexists. split; [vm_compute; reflexivity|].
  simpl. repeat split.
  repeat constructor.
Qed.

(** C1, amended.  For every server whose in-service request has a
    completion time that is set and not zero (so every completion time
    scheduled in the future of a non-negative clock), the drain leaves that
    completion time as scheduled, records the request as completed exactly
    once (one record per busy server, in server order, each added to the
    collector), and makes the server idle without touching its queue.  The
    final clock value is used only for a completion time that is unset or
    zero. *)
Theorem drain_keeps_scheduled_time
    (e : SimulationEngine) (before rest : list ServerNode) (s : ServerNode)
    (req : ClientRequest) (c : Q) :
  engine_servers e = before ++ s :: rest ->
  current_request s = Some req ->
  completion_time req = Some c ->
  ~ (c == 0)%Q ->
  exists before' rest' evs1 evs2,
    engine_servers (fst (_drain_remaining e)) =
      before' ++ set_current_request s None :: rest' /\
    length before' = length before /\
    length rest' = length rest /\
    Forall (fun s' => current_request s' = None)
           (engine_servers (fst (_drain_remaining e))) /\
    snd (_drain_remaining e) = evs1 ++ Completed req :: evs2 /\
    length evs1 = length (filter is_busy before) /\
    length evs2 = length (filter is_busy rest) /\
    metrics (fst (_drain_remaining e)) =
      fold_left record_completion (completed_of (snd (_drain_remaining e)))
                (metrics e) /\
    clock (fst (_drain_remaining e)) = clock e.
Proof.
  intros Hss Hcur Hc Hnz.
  unfold _drain_remaining.
  pose proof (drain_all_shape (engine_servers e) (clock e) (metrics e)) as Hall.
  rewrite Hss in *. rewrite drain_all_app in *.
  pose proof (drain_all_shape before (clock e) (metrics e)) as Hb.
  destruct (drain_all before (clock e) (metrics e)) as [[before' m1] evs1].
  simpl drain_all in *.
  rewrite (drain_server_truthy s (clock e) m1 req c Hcur Hc Hnz) in *.
  pose proof (drain_all_shape rest (clock e) (record_completion m1 req)) as Hr.
  destruct (drain_all rest (clock e) (record_completion m1 req))
    as [[rest' m2] evs2].
  destruct Hb as [Hb1 [_ [Hb3 _]]]. destruct Hr as [Hr1 [_ [Hr3 _]]].
  destruct Hall as [_ [Ha2 [_ Ha4]]].
  exists before', rest', evs1, evs2. simpl.
  repeat split; assumption.
Qed.

Lemma drain_keeps_scheduled_time_witness :
  exists before' rest' evs1 evs2,
    engine_servers (fst (_drain_remaining drain_engine)) =
      before' ++ set_current_request
                   (mkServerNode 1 (3 # 2) [] (Some short_run_request) []) None
              :: rest' /\
    length before' = 1%nat /\
    length rest' = 1%nat /\
    Forall (fun s' => current_request s' = None)
           (engine_servers (fst (_drain_remaining drain_engine))) /\
    snd (_drain_remaining drain_engine) =
      evs1 ++ Completed short_run_request :: evs2 /\
    length evs1 = 0%nat /\
    length evs2 = 0%nat /\
    metrics (fst (_drain_remaining drain_engine)) =
      fold_left record_completion
                (completed_of (snd (_drain_remaining drain_engine)))
                (metrics drain_engine) /\
    clock (fst (_drain_remaining drain_engine)) = clock drain_engine.
Proof.
  apply (drain_keeps_scheduled_time drain_engine
           [ServerNode_init 0 (3 # 2)] [ServerNode_init 2 (3 # 2)]
           (mkServerNode 1 (3 # 2) [] (Some short_run_request) [])
           short_run_request (7 # 2)).
  - reflexivity.
  - reflexivity.
  - reflexivity.
  - vm_compute. discriminate.
Defined.

(** ** Metrics collector *)

Lemma apply_call_counts (m : MetricsCollector) (c : collector_call) :
  total_requests (apply_call m c) =
    total_requests m + (if skipped c then 0 else 1) /\
  Z.of_nat (length (response_times (apply_call m c))) - completed_requests (apply_call m c) =
    Z.of_nat (length (response_times m)) - completed_requests m /\
  dropped_requests (apply_call m c) =
    dropped_requests m + (match c with RecordDrop _ => 1 | _ => 0 end).
Proof.
  unfold total_requests.
  destruct c as [request|request]; simpl.
  - unfold record_completion.
    destruct (response_time request) as [rt|]; simpl.
    + rewrite length_app. simpl. lia.
    + lia.
  - lia.
Qed.

(** C8, as stated, fails: handing [record_completion] one request whose
    completion time is unset leaves both counts at 0, although one request
    was handed to the collector. *)
Lemma skipped_completion_breaks_total :
  let calls := [RecordCompletion (mkClientRequest 1 0 (1 # 2) Infinity None None)] in
  let m := apply_calls MetricsCollector_init calls in
  completed_requests m + dropped_requests m = 0 /\
  Z.of_nat (length calls) = 1 /\
  completed_requests m + dropped_requests m <> Z.of_nat (length calls).
Proof. simpl. repeat split. discriminate. Qed.

(** C8, amended.  For every collector state and every sequence of
    [record_completion] and [record_drop] calls: completed + dropped grows
    by the number of calls that were not skipped ([record_completion]
    returns without any change for a request with no response time), the
    length of the response-time sequence minus the completed count does not
    change, and the dropped count grows by the number of [record_drop]
    calls.  So from a new collector completed + dropped is the number of
    requests handed over minus the skipped ones (all of them, when none is
    skipped) and the response-time sequence has as many entries as the
    completed count. *)
Theorem collector_counts (m : MetricsCollector) (calls : list collector_call) :
  let m' := apply_calls m calls in
  completed_requests m' + dropped_requests m' =
    completed_requests m + dropped_requests m
    + Z.of_nat (length calls) - Z.of_nat (length (filter skipped calls)) /\
  Z.of_nat (length (response_times m')) - completed_requests m' =
    Z.of_nat (length (response_times m)) - completed_requests m /\
  dropped_requests m' =
    dropped_requests m
    + Z.of_nat (length (filter (fun c => match c with RecordDrop _ => true | _ => false end) calls)) /\
  (m = MetricsCollector_init ->
   Z.of_nat (length (response_times m')) = completed_requests m' /\
   completed_requests m' + dropped_requests m' =
     Z.of_nat (length calls) - Z.of_nat (length (filter skipped calls)) /\
   (filter skipped calls = [] ->
    completed_requests m' + dropped_requests m' = Z.of_nat (length calls))).
Proof.
  assert (Hgen : forall calls m,
    total_requests (apply_calls m calls) =
      total_requests m + Z.of_nat (length calls)
      - Z.of_nat (length (filter skipped calls)) /\
    Z.of_nat (length (response_times (apply_calls m calls)))
      - completed_requests (apply_calls m calls) =
      Z.of_nat (length (response_times m)) - completed_requests m /\
    dropped_requests (apply_calls m calls) =
      dropped_requests m
      + Z.of_nat (length (filter (fun c => match c with RecordDrop _ => true | _ => false end) calls))).
  { clear. induction calls as [|c calls IH]; intro m.
    - simpl. lia.
    - change (apply_calls m (c :: calls)) with (apply_calls (apply_call m c) calls).
      destruct (IH (apply_call m c)) as [H1 [H2 H3]].
      destruct (apply_call_counts m c) as [A1 [A2 A3]].
      rewrite H1, H2, H3, A1, A2, A3. simpl filter. simpl length.
      destruct c as [request|request]; simpl skipped.
      + destruct (response_time request); simpl length; lia.
      + simpl length. lia. }
  intro m'. subst m'.
  destruct (Hgen calls m) as [H1 [H2 H3]]. unfold total_requests in H1.
  split; [lia|]. split; [exact H2|]. split; [exact H3|].
  intros ->. simpl in H1, H2.
  split; [lia|]. split; [lia|].
  intro Hnone. rewrite Hnone in H1. simpl in H1. lia.
Qed.

(** ** Dispatcher *)

Lemma update_at_length {A : Type} (i : nat) (f : A -> A) (l : list A) :
  length (update_at i f l) = length l.
Proof.
  revert i. induction l as [|x l IH]; intros [|i]; simpl; try reflexivity.
  now rewrite IH.
Qed.

Lemma LoadBalancer_init_ok (ss : list ServerNode) (alg : string) (lb : LoadBalancer) :
  LoadBalancer_init ss alg = Ok lb ->
  (alg = "round_robin"%string \/ alg = "least_loaded"%string) /\
  lb = mkLoadBalancer ss alg 0.
Proof.
  unfold LoadBalancer_init, ALGORITHMS. simpl.
  destruct (String.eqb_spec alg "round_robin") as [->|H1].
  - simpl. intro H. injection H as <-. split; [now left | reflexivity].
  - destruct (String.eqb_spec alg "least_loaded") as [->|H2].
    + simpl. intro H. injection H as <-. split; [now right | reflexivity].
    + simpl. discriminate.
Qed.

Lemma LoadBalancer_init_unknown (ss : list ServerNode) (alg : string) :
  alg <> "round_robin"%string -> alg <> "least_loaded"%string ->
  LoadBalancer_init ss alg = Raise ValueError.
Proof.
  intros H1 H2. unfold LoadBalancer_init, ALGORITHMS. simpl.
  apply String.eqb_neq in H1, H2. now rewrite H1, H2.
Qed.

Lemma min_scan_bound (l : list ServerNode) (best key i : nat) :
  (best < i)%nat -> (min_scan best key i l < i + length l)%nat.
Proof.
  revert best key i. induction l as [|s l IH]; intros best key i Hlt; simpl.
  - lia.
  - destruct (queue_length s <? key)%nat.
    + specialize (IH i (queue_length s) (S i)). lia.
    + specialize (IH best key (S i)). lia.
Qed.

(** [dispatch] on a non-empty server list returns, whatever the policy
    field holds. *)
Lemma dispatch_total (lb : LoadBalancer) (req : ClientRequest) :
  servers lb <> [] ->
  exists lb' target,
    dispatch lb req = Ok (lb', target) /\
    (target < length (servers lb))%nat /\
    algorithm lb' = algorithm lb /\
    servers lb' = update_at target (fun s => enqueue s req) (servers lb) /\
    rr_index lb' =
      if String.eqb (algorithm lb) "round_robin" then rr_index lb + 1
      else rr_index lb.
Proof.
  intro Hne. unfold dispatch, _round_robin, _least_loaded.
  destruct (servers lb) as [|s ss] eqn:Hss; [contradiction|].
  destruct (String.eqb (algorithm lb) "round_robin"); simpl.
  - eexists. eexists. split; [reflexivity|]. simpl.
    repeat split.
    assert (0 <= rr_index lb mod Z.pos (Pos.of_succ_nat (length ss))
            < Z.pos (Pos.of_succ_nat (length ss))) by (apply Z.mod_pos_bound; lia).
    lia.
  - eexists. eexists. split; [reflexivity|]. simpl.
    rewrite Hss. repeat split.
    pose proof (min_scan_bound ss 0%nat (queue_length s) 1%nat). lia.
Qed.

(** C9.  Constructing a dispatcher with a policy name other than the two
    recognised ones raises [ValueError], so no dispatcher exists on which
    to dispatch (the engine's constructor raises as well); a constructed
    dispatcher has one of the two policies; [dispatch] on an empty server
    list raises [RuntimeError]; and with a recognised policy and a
    non-empty server list [dispatch] returns a server of the list, and
    leaves a dispatcher with the same policy and as many servers, so every
    later dispatch returns too. *)
Theorem configuration_errors :
  (forall ss alg,
      alg <> "round_robin"%string -> alg <> "least_loaded"%string ->
      LoadBalancer_init ss alg = Raise ValueError) /\
  (forall num_servers lambda mu duration step alg tmo,
      alg <> "round_robin"%string -> alg <> "least_loaded"%string ->
      exists ex,
        SimulationEngine_init num_servers lambda mu duration step alg tmo = Raise ex) /\
  (forall ss alg lb,
      LoadBalancer_init ss alg = Ok lb ->
      (alg = "round_robin"%string \/ alg = "least_loaded"%string) /\
      algorithm lb = alg /\ servers lb = ss) /\
  (forall lb req, servers lb = [] -> dispatch lb req = Raise RuntimeError) /\
  (forall lb req,
      algorithm lb = "round_robin"%string \/ algorithm lb = "least_loaded"%string ->
      servers lb <> [] ->
      exists lb' target,
        dispatch lb req = Ok (lb', target) /\
        (target < length (servers lb))%nat /\
        algorithm lb' = algorithm lb /\
        length (servers lb') = length (servers lb)).
Proof.
  split; [exact LoadBalancer_init_unknown|].
  split.
  { intros n lambda mu duration step alg tmo H1 H2.
    unfold SimulationEngine_init.
    destruct (py_div lambda (inject_Z n * mu)) as [rho|ex]; simpl.
    - rewrite (LoadBalancer_init_unknown _ alg H1 H2). simpl. now eexists.
    - now eexists. }
  split.
  { intros ss alg lb H. destruct (LoadBalancer_init_ok ss alg lb H) as [Halg ->].
    repeat split. exact Halg. }
  split.
  { intros lb req H. unfold dispatch. now rewrite H. }
  intros lb req _ Hne.
  destruct (dispatch_total lb req Hne) as [lb' [target [H1 [H2 [H3 [H4 _]]]]]].
  exists lb', target. repeat split; try assumption.
  rewrite H4. apply update_at_length.
Qed.

(** ** Cyclic policy *)

Lemma dispatch_round_robin (lb : LoadBalancer) (req : ClientRequest) :
  algorithm lb = "round_robin"%string -> servers lb <> [] ->
  let target := Z.to_nat (rr_index lb mod Z.of_nat (length (servers lb))) in
  dispatch lb req =
  Ok (mkLoadBalancer (update_at target (fun s => enqueue s req) (servers lb))
                     (algorithm lb) (rr_index lb + 1),
      target).
Proof.
  intros Halg Hne. unfold dispatch, _round_robin. rewrite Halg.
  destruct (servers lb) as [|s ss] eqn:Hss; [contradiction|]. reflexivity.
Qed.

Lemma dispatch_many_round_robin (requests : list ClientRequest) :
  forall lb,
    algorithm lb = "round_robin"%string -> servers lb <> [] ->
    exists lb',
      dispatch_many lb requests =
        Ok (lb',
            map (fun k => Z.to_nat ((rr_index lb + Z.of_nat k)
                                    mod Z.of_nat (length (servers lb))))
                (seq 0 (length requests))) /\
      rr_index lb' = rr_index lb + Z.of_nat (length requests) /\
      algorithm lb' = algorithm lb /\
      length (servers lb') = length (servers lb).
Proof.
  induction requests as [|req requests IH]; intros lb Halg Hne.
  - exists lb. simpl. repeat split. lia.
  - simpl dispatch_many.
    rewrite (dispatch_round_robin lb req Halg Hne). simpl bind.
    set (lb1 := mkLoadBalancer _ _ _).
    assert (Hlen : length (servers lb1) = length (servers lb))
      by (unfold lb1; simpl; apply update_at_length).
    assert (Hne1 : servers lb1 <> []).
    { intro E. rewrite E in Hlen. destruct (servers lb); [contradiction|discriminate]. }
    destruct (IH lb1 Halg Hne1) as [lb' [H1 [H2 [H3 H4]]]].
    exists lb'. rewrite H1. simpl bind. split; [|split; [|split]].
    + f_equal. f_equal. simpl length. simpl seq. simpl map. f_equal.
      * f_equal. f_equal. lia.
      * rewrite <- seq_shift, map_map. apply map_ext. intro k.
        rewrite update_at_length. do 2 f_equal. lia.
    + rewrite H2. unfold lb1; simpl. lia.
    + rewrite H3. reflexivity.
    + congruence.
Qed.

Lemma mod_shift_inj (r n a b : Z) :
  0 <= a < n -> 0 <= b < n -> (r + a) mod n = (r + b) mod n -> a = b.
Proof.
  intros Ha Hb H.
  assert (Hn : n <> 0) by lia.
  pose proof (Z.div_mod (r + a) n Hn) as Da.
  pose proof (Z.div_mod (r + b) n Hn) as Db.
  rewrite H in Da.
  assert (E : a - b = n * ((r + a) / n - (r + b) / n)) by lia.
  assert ((r + a) / n - (r + b) / n = 0) by nia.
  lia.
Qed.

Lemma rotation_is_permutation (r : Z) (n : nat) :
  Permutation
    (map (fun k => Z.to_nat ((r + Z.of_nat k) mod Z.of_nat n)) (seq 0 n))
    (seq 0 n).
Proof.
  apply NoDup_Permutation_bis.
  - apply NoDup_map_NoDup_ForallPairs; [|apply seq_NoDup].
    intros x y Hx Hy E. apply in_seq in Hx, Hy.
    assert (Hn : 0 < Z.of_nat n) by lia.
    pose proof (Z.mod_pos_bound (r + Z.of_nat x) (Z.of_nat n) Hn).
    pose proof (Z.mod_pos_bound (r + Z.of_nat y) (Z.of_nat n) Hn).
    apply Z2Nat.inj in E; try lia.
    apply mod_shift_inj in E; lia.
  - rewrite length_map. lia.
  - intros t Ht. apply in_map_iff in Ht. destruct Ht as [k [<- Hk]].
    apply in_seq in Hk. apply in_seq.
    assert (Hn : 0 < Z.of_nat n) by lia.
    pose proof (Z.mod_pos_bound (r + Z.of_nat k) (Z.of_nat n) Hn). lia.
Qed.

Lemma rotation_from_zero (r : Z) (n : nat) :
  r mod Z.of_nat n = 0 ->
  map (fun k => Z.to_nat ((r + Z.of_nat k) mod Z.of_nat n)) (seq 0 n) = seq 0 n.
Proof.
  intro Hr. rewrite <- (map_id (seq 0 n)) at 2.
  apply map_ext_in. intros k Hk. apply in_seq in Hk.
  rewrite Z.add_mod by lia. rewrite Hr. simpl.
  rewrite Z.mod_mod by lia. rewrite Z.mod_small by lia. lia.
Qed.

Lemma ids_of_positions (ss : list ServerNode) :
  map server_id ss = range (Z.of_nat (length ss)) ->
  map (id_at ss) (seq 0 (length ss)) = map Some (range (Z.of_nat (length ss))).
Proof.
  intro Hids. rewrite <- Hids. rewrite map_map.
  unfold id_at. clear Hids.
  induction ss as [|s ss IH]; [reflexivity|].
  simpl. f_equal. rewrite <- seq_shift, map_map. simpl. exact IH.
Qed.

(** C5, as stated, fails: over the three servers 0, 1, 2 built as the
    engine builds them, the three dispatch calls that follow a first one
    choose the servers 1, 2, 0: each once, but not in ascending identifier
    order. *)
Lemma round_robin_after_one_dispatch :
  exists lb0 lb1 lb2,
    LoadBalancer_init three_servers "round_robin" = Ok lb0 /\
    dispatch lb0 some_request = Ok (lb1, 0%nat) /\
    dispatch_many lb1 [some_request; some_request; some_request] =
      Ok (lb2, [1; 2; 0]%nat) /\
    map (id_at (servers lb1)) [1; 2; 0]%nat = [Some 1; Some 2; Some 0] /\
    ~ StronglySorted Z.lt [1; 2; 0].
Proof.
  do 3 eexists.
  split; [reflexivity|]. split; [reflexivity|]. split; [reflexivity|].
  split; [reflexivity|].
  intro H. inversion H as [|a l Hl Hall]; subst.
  inversion Hall as [|b l' Hb Hrest]; subst.
  inversion Hrest as [|b' l'' Hb' _]; subst. lia.
Qed.

(** C5, amended.  Under the cyclic policy the chosen server is
    [servers[counter mod N]] and the counter grows by one on every
    dispatch; so any N consecutive dispatch calls on a dispatcher over N
    servers choose each server exactly once, in cyclic order starting at
    position [counter mod N], whatever the queues hold.  The order is the
    configured order (ascending identifiers, for servers numbered as the
    engine numbers them) when the counter is a multiple of N, as it is for
    a new dispatcher. *)
Theorem round_robin_cycle (lb : LoadBalancer) (requests : list ClientRequest) :
  algorithm lb = "round_robin"%string ->
  servers lb <> [] ->
  length requests = length (servers lb) ->
  exists lb' targets,
    dispatch_many lb requests = Ok (lb', targets) /\
    targets =
      map (fun k => Z.to_nat ((rr_index lb + Z.of_nat k)
                              mod Z.of_nat (length (servers lb))))
          (seq 0 (length (servers lb))) /\
    rr_index lb' = rr_index lb + Z.of_nat (length (servers lb)) /\
    Permutation targets (seq 0 (length (servers lb))) /\
    (rr_index lb mod Z.of_nat (length (servers lb)) = 0 ->
     targets = seq 0 (length (servers lb)) /\
     (map server_id (servers lb) = range (Z.of_nat (length (servers lb))) ->
      map (id_at (servers lb)) targets =
        map Some (range (Z.of_nat (length (servers lb)))))).
Proof.
  intros Halg Hne Hlen.
  destruct (dispatch_many_round_robin requests lb Halg Hne)
    as [lb' [H1 [H2 _]]].
  rewrite Hlen in H1, H2.
  eexists. eexists. split; [exact H1|].
  split; [reflexivity|]. split; [exact H2|].
  split; [apply rotation_is_permutation|].
  intro Hzero. rewrite (rotation_from_zero _ _ Hzero).
  split; [reflexivity|]. apply ids_of_positions.
Qed.

Lemma round_robin_cycle_witness :
  exists lb' targets,
    dispatch_many (mkLoadBalancer three_servers "round_robin" 1)
                  [some_request; some_request; some_request] = Ok (lb', targets) /\
    targets = [1; 2; 0]%nat /\
    rr_index lb' = 4 /\
    Permutation targets [0; 1; 2]%nat.
Proof.
  destruct (round_robin_cycle (mkLoadBalancer three_servers "round_robin" 1)
              [some_request; some_request; some_request])
    as [lb' [targets [H1 [H2 [H3 [H4 _]]]]]].
  - reflexivity.
  - simpl. discriminate.
  - reflexivity.
  - exists lb', targets. repeat split; assumption.
Defined.

(** ** Least-loaded policy *)

Lemma min_scan_first_min (l : list ServerNode) :
  forall (scanned : list ServerNode) (best : nat) (sb : ServerNode),
    first_min (scanned ++ l) (length scanned) best ->
    nth_error (scanned ++ l) best = Some sb ->
    first_min (scanned ++ l) (length (scanned ++ l))
              (min_scan best (queue_length sb) (length scanned) l).
Proof.
  induction l as [|s l IH]; intros scanned best sb Hfm Hsb.
  - simpl. rewrite app_nil_r in *. exact Hfm.
  - simpl min_scan.
    assert (Hs : nth_error (scanned ++ s :: l) (length scanned) = Some s).
    { rewrite nth_error_app2 by lia. now rewrite Nat.sub_diag. }
    assert (Hre : scanned ++ s :: l = (scanned ++ [s]) ++ l)
      by (rewrite <- app_assoc; reflexivity).
    assert (Hlen : length (scanned ++ [s]) = S (length scanned))
      by (rewrite length_app; simpl; lia).
    destruct Hfm as [Hlt [sb' [Hsb' Hmin]]].
    rewrite Hsb in Hsb'. injection Hsb' as <-.
    destruct (Nat.ltb_spec (queue_length s) (queue_length sb)) as [Hless|Hge].
    + rewrite Hre in *. rewrite <- Hlen.
      apply IH; [|exact Hs].
      split; [lia|]. exists s. split; [exact Hs|].
      intros j s' Hj Hj'.
      destruct (Nat.eq_dec j (length scanned)) as [->|Hneq].
      * rewrite Hs in Hj'. injection Hj' as <-. split; lia.
      * destruct (Hmin j s' ltac:(lia) Hj') as [H1 _]. split; lia.
    + rewrite Hre in *. rewrite <- Hlen.
      apply IH; [|exact Hsb].
      split; [lia|]. exists sb. split; [exact Hsb|].
      intros j s' Hj Hj'.
      destruct (Nat.eq_dec j (length scanned)) as [->|Hneq].
      * rewrite Hs in Hj'. injection Hj' as <-. split; lia.
      * apply Hmin; [lia | exact Hj'].
Qed.

Lemma _least_loaded_first_min (lb : LoadBalancer) :
  servers lb <> [] ->
  exists target,
    _least_loaded lb = Ok target /\
    first_min (servers lb) (length (servers lb)) target.
Proof.
  intro Hne. unfold _least_loaded.
  destruct (servers lb) as [|s ss]; [contradiction|].
  eexists. split; [reflexivity|].
  apply (min_scan_first_min ss [s] 0%nat s); [|reflexivity].
  split; [simpl; lia|]. exists s. split; [reflexivity|].
  intros j s' Hj Hj'. simpl in Hj.
  assert (j = 0%nat) as -> by lia.
  simpl in Hj'. injection Hj' as <-. split; lia.
Qed.

Lemma nth_error_range (n : Z) (j : nat) :
  (j < Z.to_nat n)%nat -> nth_error (range n) j = Some (Z.of_nat j).
Proof.
  intro Hj. unfold range.
  rewrite nth_error_map.
  rewrite nth_error_nth' with (d := 0%nat) by (rewrite length_seq; exact Hj).
  rewrite seq_nth by exact Hj. reflexivity.
Qed.

Lemma id_is_position (ss : list ServerNode) (j : nat) (s : ServerNode) :
  map server_id ss = range (Z.of_nat (length ss)) ->
  nth_error ss j = Some s -> server_id s = Z.of_nat j.
Proof.
  intros Hids Hj.
  assert (Hlt : (j < length ss)%nat) by (apply nth_error_Some; congruence).
  apply (map_nth_error server_id) in Hj.
  rewrite Hids, nth_error_range in Hj by lia.
  now injection Hj.
Qed.

(** C6.  Under the least-loaded policy, for every non-empty server list,
    [dispatch] returns and enqueues on a server whose waiting-queue length
    (the request in service is not counted) is at most that of every
    server, and strictly below that of every server before it in the
    configured order: among the servers tied at the minimum it is the
    first, which is the one with the lowest identifier when identifiers
    are positions, as the engine assigns them. *)
Theorem least_loaded_choice (lb : LoadBalancer) (req : ClientRequest) :
  algorithm lb = "least_loaded"%string ->
  servers lb <> [] ->
  exists lb' target s,
    dispatch lb req = Ok (lb', target) /\
    nth_error (servers lb) target = Some s /\
    queue_length s = length (queue s) /\
    (forall j s', nth_error (servers lb) j = Some s' ->
                  (queue_length s <= queue_length s')%nat) /\
    (forall j s', (j < target)%nat -> nth_error (servers lb) j = Some s' ->
                  (queue_length s < queue_length s')%nat) /\
    servers lb' = update_at target (fun s0 => enqueue s0 req) (servers lb) /\
    (map server_id (servers lb) = range (Z.of_nat (length (servers lb))) ->
     server_id s = Z.of_nat target /\
     forall j s', nth_error (servers lb) j = Some s' ->
                  queue_length s' = queue_length s ->
                  server_id s <= server_id s').
Proof.
  intros Halg Hne.
  destruct (_least_loaded_first_min lb Hne) as [target [Hll [Hlt [s [Hs Hmin]]]]].
  exists (mkLoadBalancer (update_at target (fun s0 => enqueue s0 req) (servers lb))
                         (algorithm lb) (rr_index lb)), target, s.
  assert (Hbound : forall j s', nth_error (servers lb) j = Some s' ->
                                (j < length (servers lb))%nat).
  { intros j s' Hj. apply nth_error_Some. congruence. }
  split.
  { assert (Hpol : String.eqb (algorithm lb) "round_robin" = false)
      by (rewrite Halg; reflexivity).
    unfold dispatch. rewrite Hpol, Hll. simpl.
    destruct (servers lb); [contradiction | reflexivity]. }
  split; [exact Hs|]. split; [reflexivity|].
  split; [intros j s' Hj; apply (Hmin j s' (Hbound j s' Hj) Hj)|].
  split; [intros j s' Hjt Hj; apply (Hmin j s' (Hbound j s' Hj) Hj); exact Hjt|].
  split; [reflexivity|].
  intro Hids. split; [apply (id_is_position _ _ _ Hids Hs)|].
  intros j s' Hj Heq.
  rewrite (id_is_position _ _ _ Hids Hs), (id_is_position _ _ _ Hids Hj).
  destruct (Nat.lt_ge_cases j target) as [Hjt|Hjt]; [|lia].
  destruct (Hmin j s' (Hbound j s' Hj) Hj) as [_ H]. specialize (H Hjt). lia.
Qed.

Lemma least_loaded_choice_witness :
  exists lb' target s,
    dispatch loaded_balancer some_request = Ok (lb', target) /\
    nth_error (servers loaded_balancer) target = Some s /\
    queue_length s = length (queue s) /\
    (forall j s', nth_error (servers loaded_balancer) j = Some s' ->
                  (queue_length s <= queue_length s')%nat) /\
    (forall j s', (j < target)%nat ->
                  nth_error (servers loaded_balancer) j = Some s' ->
                  (queue_length s < queue_length s')%nat) /\
    servers lb' =
      update_at target (fun s0 => enqueue s0 some_request)
                (servers loaded_balancer) /\
    (map server_id (servers loaded_balancer) =
       range (Z.of_nat (length (servers loaded_balancer))) ->
     server_id s = Z.of_nat target /\
     forall j s', nth_error (servers loaded_balancer) j = Some s' ->
                  queue_length s' = queue_length s ->
                  server_id s <= server_id s').
Proof.
  apply (least_loaded_choice loaded_balancer some_request).
  - reflexivity.
  - simpl. discriminate.
Defined.

Example least_loaded_tie : 
  exists lb', dispatch loaded_balancer some_request = Ok (lb', 1%nat).
Proof. eexists. reflexivity. Qed.

(** ** Percentile *)

Lemma py_int_floor (x : Q) : (0 <= x)%Q -> py_int x = Qfloor x.
Proof.
  destruct x as [n d]. unfold Qle, py_int, Qfloor. simpl. intro H.
  apply Z.quot_div_nonneg; lia.
Qed.

Lemma insert_sorted_perm (x : Q) (l : list Q) :
  Permutation (insert_sorted x l) (x :: l).
Proof.
  induction l as [|y l IH]; simpl.
  - apply Permutation_refl.
  - destruct (Qle_bool x y).
    + apply Permutation_refl.
    + apply perm_trans with (y :: x :: l).
      * apply perm_skip. exact IH.
      * apply perm_swap.
Qed.

Lemma sorted_perm (l : list Q) : Permutation (sorted l) l.
Proof.
  induction l as [|x l IH]; simpl.
  - apply perm_nil.
  - apply perm_trans with (x :: sorted l).
    + apply insert_sorted_perm.
    + apply perm_skip. exact IH.
Qed.

Lemma sorted_length (l : list Q) : length (sorted l) = length l.
Proof. apply Permutation_length, sorted_perm. Qed.

Lemma insert_sorted_ascending (x : Q) (l : list Q) :
  StronglySorted Qle l -> StronglySorted Qle (insert_sorted x l).
Proof.
  induction l as [|y l IH]; intro Hs; simpl.
  - constructor; constructor.
  - inversion Hs as [|y' l' Hl Hall]; subst.
    destruct (Qle_bool x y) eqn:E.
    + apply Qle_bool_iff in E.
      constructor; [exact Hs|].
      constructor; [exact E|].
      eapply Forall_impl; [|exact Hall].
      intros z Hz. apply Qle_trans with y; assumption.
    + assert (Hyx : (y <= x)%Q).
      { apply Qlt_le_weak, Qnot_le_lt. intro Hle.
        apply Qle_bool_iff in Hle. congruence. }
      constructor; [apply IH; exact Hl|].
      rewrite (insert_sorted_perm x l).
      constructor; assumption.
Qed.

Lemma sorted_ascending (l : list Q) : StronglySorted Qle (sorted l).
Proof.
  induction l as [|x l IH]; simpl.
  - constructor.
  - apply insert_sorted_ascending, IH.
Qed.

Lemma py_index_in_range {A : Type} (l : list A) (i : Z) (d : A) :
  0 <= i < Z.of_nat (length l) -> py_index l i = Ok (nth (Z.to_nat i) l d).
Proof.
  intro Hi. unfold py_index.
  destruct (Z.ltb_spec i 0) as [Hneg|_]; [lia|].
  destruct (Z.leb_spec 0 i) as [_|Hneg]; [|lia].
  destruct (Z.ltb_spec i (Z.of_nat (length l))) as [_|Hbig]; [|lia].
  simpl. rewrite nth_error_nth' with (d := d) by lia. reflexivity.
Qed.

Lemma percentile_index_floor (count : nat) (p : Q) :
  (0 <= p)%Q -> (p <= 100)%Q -> (0 < count)%nat ->
  percentile_index count p =
    Z.max 0 (Qfloor (inject_Z (Z.of_nat count) * p / 100) - 1) /\
  0 <= percentile_index count p < Z.of_nat count.
Proof.
  intros H0 H100 Hcount. unfold percentile_index.
  set (n := inject_Z (Z.of_nat count)).
  assert (Hn : (0 <= n)%Q).
  { unfold n. rewrite <- (Zle_Qle 0). lia. }
  assert (Hnp : (0 <= n * p)%Q) by (apply Qmult_le_0_compat; assumption).
  assert (Hlow : (0 <= n * p / 100)%Q).
  { apply Qle_shift_div_l; [reflexivity|]. rewrite Qmult_0_l. exact Hnp. }
  assert (Hhigh : (n * p / 100 <= n)%Q).
  { apply Qle_shift_div_r; [reflexivity|].
    rewrite (Qmult_comm n p), (Qmult_comm n 100).
    apply Qmult_le_compat_r; assumption. }
  rewrite (py_int_floor _ Hlow). split; [reflexivity|].
  apply Qfloor_resp_le in Hhigh. unfold n in Hhigh at 2.
  rewrite Qfloor_Z in Hhigh. lia.
Qed.



(** ** Events of a run *)

Lemma created_of_app (a b : list event) :
  created_of (a ++ b) = created_of a ++ created_of b.
Proof. unfold created_of. apply flat_map_app. Qed.

Lemma completed_of_app (a b : list event) :
  completed_of (a ++ b) = completed_of a ++ completed_of b.
Proof. unfold completed_of. apply flat_map_app. Qed.

Lemma created_of_dropped (l : list ClientRequest) : created_of (map Dropped l) = [].
Proof. induction l; simpl; auto. Qed.

Lemma created_of_completed (l : list ClientRequest) : created_of (map Completed l) = [].
Proof. induction l; simpl; auto. Qed.

Lemma completed_of_dropped (l : list ClientRequest) : completed_of (map Dropped l) = [].
Proof. induction l; simpl; auto. Qed.

Lemma completed_of_completed (l : list ClientRequest) :
  completed_of (map Completed l) = l.
Proof. induction l; simpl; congruence. Qed.

Lemma drop_all_events (ss : list ServerNode) (now : Q) (m : MetricsCollector) :
  created_of (snd (drop_all ss now m)) = [] /\
  completed_of (snd (drop_all ss now m)) = [].
Proof.
  revert m. induction ss as [|s ss IH]; intro m; simpl; [auto|].
  destruct (drop_timed_out s now) as [s1 dropped].
  specialize (IH (fold_left record_drop dropped m)).
  destruct (drop_all ss now _) as [[ss1 m2] evs]. simpl in *.
  rewrite created_of_app, completed_of_app, created_of_dropped, completed_of_dropped.
  destruct IH as [-> ->]. auto.
Qed.

Lemma tick_all_created (ss : list ServerNode) (now : Q) :
  forall m ss' m' evs,
    tick_all ss now m = Ok (ss', m', evs) -> created_of evs = [].
Proof.
  induction ss as [|s ss IH]; intros m ss' m' evs H; simpl in H.
  - injection H as <- <- <-. reflexivity.
  - returned H as [s1 done] eqn Ecall.
    returned H as [[ss1 m2] evs2] eqn E.
    injection H as <- <- <-.
    rewrite created_of_app, created_of_completed. simpl.
    eapply IH. exact E.
Qed.

Lemma drain_all_created (ss : list ServerNode) (now : Q) (m : MetricsCollector) :
  created_of (snd (drain_all ss now m)) = [].
Proof.
  revert m. induction ss as [|s ss IH]; intro m; simpl; [auto|].
  unfold drain_server.
  destruct (current_request s) as [req|].
  - match goal with |- context [drain_all ss now ?m1] => specialize (IH m1) end.
    destruct (drain_all ss now _) as [[ss1 m2] evs]. simpl in *. exact IH.
  - specialize (IH m).
    destruct (drain_all ss now m) as [[ss1 m2] evs]. simpl in *. exact IH.
Qed.

(** ** Request identifiers *)

Lemma consecutive_app (c : Z) (n k : nat) :
  consecutive c (n + k) = consecutive c n ++ consecutive (c + Z.of_nat n) k.
Proof.
  revert c. induction n as [|n IH]; intro c.
  - simpl. f_equal. lia.
  - cbn [Nat.add consecutive app]. f_equal. rewrite IH. do 2 f_equal. lia.
Qed.

Lemma consecutive_length (c : Z) (n : nat) : length (consecutive c n) = n.
Proof. revert c. induction n as [|n IH]; intro c; simpl; [|rewrite IH]; reflexivity. Qed.

Lemma consecutive_above (c : Z) (n : nat) :
  Forall (fun i => c < i) (consecutive c n).
Proof.
  revert c. induction n as [|n IH]; intro c; simpl; constructor; [lia|].
  eapply Forall_impl; [|apply IH]. simpl. intros; lia.
Qed.

Lemma consecutive_increasing (c : Z) (n : nat) :
  StronglySorted Z.lt (consecutive c n).
Proof.
  revert c. induction n as [|n IH]; intro c; simpl; constructor.
  - apply IH.
  - apply consecutive_above.
Qed.

Lemma consecutive_nth (c : Z) (n k : nat) :
  (k < n)%nat -> nth_error (consecutive c n) k = Some (c + Z.of_nat k + 1).
Proof.
  revert c k. induction n as [|n IH]; intros c k Hk; [lia|].
  destruct k as [|k]; simpl.
  - f_equal. lia.
  - rewrite IH by lia. f_equal. lia.
Qed.

Lemma create_all_ids (args : list (Q * Q * bound)) (c : Z) :
  fst (create_all c args) = c + Z.of_nat (length args) /\
  map request_id (snd (create_all c args)) = consecutive c (length args).
Proof.
  revert c. induction args as [|[[arrival service] tmo] args IH]; intro c.
  - simpl. split; [lia | reflexivity].
  - cbn [create_all ClientRequest_init].
    specialize (IH (c + 1)).
    destruct (create_all (c + 1) args) as [c2 reqs]. simpl in *.
    destruct IH as [-> ->]. split; [lia | reflexivity].
Qed.

Lemma arrivals_ids (draws : list Q) (now : Q) (tmo : bound) :
  forall c lb c' lb' evs,
    arrivals draws now tmo c lb = Ok (c', lb', evs) ->
    c' = c + Z.of_nat (length draws) /\
    map request_id (created_of evs) = consecutive c (length draws) /\
    completed_of evs = [].
Proof.
  induction draws as [|drawn draws IH]; intros c lb c' lb' evs H.
  - simpl in H. injection H as <- <- <-. simpl. repeat split. lia.
  - cbn [arrivals ClientRequest_init] in H.
    returned H as [lb1 target] eqn Ecall.
    returned H as [[c2 lb2] evs2] eqn E.
    injection H as <- <- <-.
    destruct (IH _ _ _ _ _ E) as [-> [Hids Hdone]].
    simpl. rewrite Hids, Hdone. repeat split. lia.
Qed.

Lemma run_tick_ids (draws : list Q) (c : Z) (e : SimulationEngine) :
  forall c' e' evs,
    run_tick draws c e = Ok (c', e', evs) ->
    c' = c + Z.of_nat (length draws) /\
    map request_id (created_of evs) = consecutive c (length draws).
Proof.
  intros c' e' evs H. unfold run_tick in H.
  returned H as [[c1 lb1] evs1] eqn Earr.
  destruct (arrivals_ids _ _ _ _ _ _ _ _ Earr) as [-> [Hids _]].
  match type of H with context [drop_all ?ss ?t ?m] =>
    pose proof (drop_all_events ss t m) as [Hdrop _];
    destruct (drop_all ss t m) as [[ss3 m3] evs2] end.
  simpl in H, Hdrop.
  returned H as [[ss4 m4] evs3] eqn Etick.
  injection H as <- <- <-.
  rewrite !created_of_app, Hdrop, (tick_all_created _ _ _ _ _ _ Etick), !app_nil_r.
  split; [reflexivity | exact Hids].
Qed.

Lemma run_loop_ids (count : nat) (rng : nat -> list Q) :
  forall i c e c' e' evs,
    run_loop count i rng c e = Ok (c', e', evs) ->
    c' = c + Z.of_nat (length (created_of evs)) /\
    map request_id (created_of evs) = consecutive c (length (created_of evs)).
Proof.
  induction count as [|count IH]; intros i c e c' e' evs H; simpl in H.
  - injection H as <- <- <-. simpl. split; [lia | reflexivity].
  - returned H as [[c1 e1] evs1] eqn E1.
    returned H as [[c2 e2] evs2] eqn E2.
    injection H as <- <- <-.
    destruct (run_tick_ids _ _ _ _ _ _ E1) as [Hc1 Hids1].
    destruct (IH _ _ _ _ _ _ E2) as [Hc2 Hids2].
    assert (Hlen1 : length (created_of evs1) = length (rng i)).
    { rewrite <- (length_map request_id), Hids1. apply consecutive_length. }
    rewrite created_of_app, length_app, map_app, consecutive_app.
    rewrite Hids2, Hlen1, Hids1, <- Hc1. split; [lia | reflexivity].
Qed.

Lemma run_ids (rng : nat -> list Q) (c : Z) (e : SimulationEngine) :
  forall c' e' evs,
    run rng c e = Ok (c', e', evs) ->
    c' = c + Z.of_nat (length (created_of evs)) /\
    map request_id (created_of evs) = consecutive c (length (created_of evs)).
Proof.
  intros c' e' evs H. unfold run in H.
  returned H as ratio eqn Ecall.
  returned H as [[c1 e1] evs1] eqn E.
  unfold _drain_remaining in H.
  pose proof (drain_all_created (engine_servers e1) (clock e1) (metrics e1)) as Hd.
  destruct (drain_all _ _ _) as [[ss m] evs2]. simpl in Hd.
  injection H as <- <- <-.
  rewrite created_of_app, Hd, app_nil_r.
  eapply run_loop_ids. exact E.
Qed.

Example new_engine_is_constructed :
  SimulationEngine_init 2 2 (3 # 2) 3 1 "round_robin" (Finite 50) = Ok new_engine.
Proof. reflexivity. Qed.

Lemma two_runs_in_a_row :
  exists e1' e2',
    run short_run_rng id_counter_initial one_server_engine =
      Ok (1, e1', first_run_events) /\
    run short_run_rng 1 one_server_engine = Ok (2, e2', second_run_events).
Proof. do 2 eexists. split; vm_compute; reflexivity. Qed.

(** C10.  Request identifiers come from the one class-level counter of the
    process: each construction increments it and takes the new value.  So
    the identifiers of any sequence of constructions made from the initial
    counter are 1, 2, 3, ... (strictly increasing, starting at 1), and the
    counter is shared by all engines and runs: when a second run follows a
    first one in the same process, the identifiers of the two runs together
    are 1, 2, ..., the first run leaves the counter at the number of
    requests it created, and the first request of the second run gets the
    next identifier instead of 1. *)
Theorem request_ids_process_wide :
  (forall c arrival service tmo,
      ClientRequest_init c arrival service tmo =
      (c + 1, mkClientRequest (c + 1) arrival service tmo None None)) /\
  (forall args,
      map request_id (snd (create_all id_counter_initial args)) =
        consecutive 0 (length args) /\
      StronglySorted Z.lt (map request_id (snd (create_all id_counter_initial args))) /\
      forall k, (k < length args)%nat ->
                nth_error (map request_id (snd (create_all id_counter_initial args))) k =
                Some (Z.of_nat k + 1)) /\
  (forall rng1 rng2 e1 e2 c1 e1' evs1 c2 e2' evs2,
      run rng1 id_counter_initial e1 = Ok (c1, e1', evs1) ->
      run rng2 c1 e2 = Ok (c2, e2', evs2) ->
      let ids1 := map request_id (created_of evs1) in
      let ids2 := map request_id (created_of evs2) in
      ids1 ++ ids2 = consecutive 0 (length ids1 + length ids2) /\
      StronglySorted Z.lt (ids1 ++ ids2) /\
      c1 = Z.of_nat (length ids1) /\
      ids1 = consecutive 0 (length ids1) /\
      (forall r rest, created_of evs1 = r :: rest -> request_id r = 1) /\
      (forall r rest, created_of evs2 = r :: rest ->
                      request_id r = Z.of_nat (length ids1) + 1)).
Proof.
  split; [reflexivity|]. split.
  - intro args. destruct (create_all_ids args id_counter_initial) as [_ Hids].
    rewrite Hids. split; [reflexivity|]. split; [apply consecutive_increasing|].
    intros k Hk. rewrite consecutive_nth by exact Hk. f_equal.
  - intros rng1 rng2 e1 e2 c1 e1' evs1 c2 e2' evs2 Hrun1 Hrun2 ids1 ids2.
    destruct (run_ids _ _ _ _ _ _ Hrun1) as [Hc1 Hids1].
    destruct (run_ids _ _ _ _ _ _ Hrun2) as [Hc2 Hids2].
    unfold id_counter_initial in *.
    assert (Hl1 : length ids1 = length (created_of evs1))
      by (unfold ids1; apply length_map).
    assert (Hl2 : length ids2 = length (created_of evs2))
      by (unfold ids2; apply length_map).
    assert (Hall : ids1 ++ ids2 = consecutive 0 (length ids1 + length ids2)).
    { rewrite consecutive_app. unfold ids1 at 1, ids2 at 1.
      rewrite Hids1, Hids2, Hl1, Hl2. do 2 f_equal. lia. }
    split; [exact Hall|].
    split; [rewrite Hall; apply consecutive_increasing|].
    split; [lia|].
    split; [unfold ids1 at 1; rewrite Hids1, Hl1; reflexivity|].
    split.
    + intros r rest Hr. rewrite Hr in Hids1. simpl in Hids1.
      now injection Hids1.
    + intros r rest Hr. rewrite Hr in Hids2. simpl in Hids2.
      injection Hids2 as Hid _. lia.
Qed.

Lemma request_ids_process_wide_witness :
  map request_id (created_of first_run_events)
  ++ map request_id (created_of second_run_events) = [1; 2].
Proof.
  destruct two_runs_in_a_row as [e1' [e2' [Hrun1 Hrun2]]].
  destruct (proj2 (proj2 request_ids_process_wide)
              short_run_rng short_run_rng one_server_engine one_server_engine
              1 e1' first_run_events 2 e2' second_run_events Hrun1 Hrun2)
    as [H _].
  exact H.
Defined.

(** ** Timing of completed requests *)

Lemma waiting_ok_mono (now now' : Q) (r : ClientRequest) :
  (now <= now')%Q -> waiting_ok now r -> waiting_ok now' r.
Proof.
  intros Hle [H1 [H2 H3]]. repeat split; try assumption.
  apply Qle_trans with now; assumption.
Qed.

Lemma server_ok_mono (now now' : Q) (s : ServerNode) :
  (now <= now')%Q -> server_ok now s -> server_ok now' s.
Proof.
  intros Hle [Hq Hc]. split.
  - eapply Forall_impl; [|exact Hq]. intro r. apply waiting_ok_mono, Hle.
  - destruct (current_request s) as [r|]; [|exact I].
    destruct Hc as [st [H1 [H2 [H3 [H4 [H5 H6]]]]]].
    exists st. repeat split; try assumption.
    apply Qle_trans with now; assumption.
Qed.

Lemma enqueue_ok (now : Q) (s : ServerNode) (r : ClientRequest) :
  waiting_ok now r -> server_ok now s -> server_ok now (enqueue s r).
Proof.
  intros Hr [Hq Hc]. split; simpl; [|exact Hc].
  apply Forall_app. split; [exact Hq | constructor; [exact Hr | constructor]].
Qed.

Lemma update_at_Forall {A : Type} (P : A -> Prop) (f : A -> A) (i : nat) (l : list A) :
  (forall x, P x -> P (f x)) -> Forall P l -> Forall P (update_at i f l).
Proof.
  intros Hf. revert i. induction l as [|x l IH]; intros i Hl; simpl.
  - destruct i; constructor.
  - inversion Hl as [|x' l' Hx Hl']; subst.
    destruct i as [|i]; constructor; auto.
Qed.

Lemma dispatch_ok (now : Q) (lb lb' : LoadBalancer) (req : ClientRequest) (target : nat) :
  Forall (server_ok now) (servers lb) -> waiting_ok now req ->
  dispatch lb req = Ok (lb', target) ->
  Forall (server_ok now) (servers lb') /\
  length (servers lb') = length (servers lb).
Proof.
  intros Hss Hreq Hd.
  assert (Hne : servers lb <> []).
  { intro E. unfold dispatch in Hd. rewrite E in Hd. discriminate. }
  destruct (dispatch_total lb req Hne) as [lb1 [t1 [H1 [_ [_ [H4 _]]]]]].
  rewrite H1 in Hd. injection Hd as <- <-.
  rewrite H4. split; [|apply update_at_length].
  apply update_at_Forall; [|exact Hss].
  intros s Hs. apply enqueue_ok; assumption.
Qed.

Lemma arrivals_ok (draws : list Q) (now : Q) (tmo : bound) :
  (0 < now)%Q -> Forall (fun q => 0 <= q)%Q draws ->
  forall c lb,
    Forall (server_ok now) (servers lb) ->
    (servers lb <> [] -> exists res, arrivals draws now tmo c lb = Ok res) /\
    (forall c' lb' evs,
        arrivals draws now tmo c lb = Ok (c', lb', evs) ->
        Forall (server_ok now) (servers lb') /\
        length (servers lb') = length (servers lb) /\
        algorithm lb' = algorithm lb).
Proof.
  intros Hnow Hdraws. induction Hdraws as [|drawn draws Hdrawn _ IH]; intros c lb Hss.
  - simpl. split; [intros _; eexists; reflexivity|].
    intros c' lb' evs H. injection H as <- <- <-. auto.
  - cbn [arrivals ClientRequest_init].
    set (req := mkClientRequest (c + 1) now drawn tmo None None).
    assert (Hreq : waiting_ok now req).
    { unfold waiting_ok, req; simpl. repeat split; try assumption. apply Qle_refl. }
    split.
    + intro Hne.
      destruct (dispatch_total lb req Hne) as [lb1 [t1 [H1 [_ [Ha [H4 _]]]]]].
      destruct (dispatch_ok now lb lb1 req t1 Hss Hreq H1) as [Hss1 Hlen1].
      rewrite H1. simpl.
      assert (Hne1 : servers lb1 <> []).
      { intro E. rewrite E in Hlen1. destruct (servers lb); [contradiction|discriminate]. }
      destruct (proj1 (IH (c + 1) lb1 Hss1) Hne1) as [[[c2 lb2] evs2] E2].
      rewrite E2. simpl. eexists. reflexivity.
    + intros c' lb' evs H.
      returned H as [lb1 t1] eqn E1.
      destruct (dispatch_ok now lb lb1 req t1 Hss Hreq E1) as [Hss1 Hlen1].
      assert (Halg1 : algorithm lb1 = algorithm lb).
      { assert (Hne : servers lb <> []).
        { intro E. unfold dispatch in E1. rewrite E in E1. discriminate. }
        destruct (dispatch_total lb req Hne) as [lb1' [t1' [H1 [_ [Ha _]]]]].
        rewrite H1 in E1. injection E1 as <- <-. exact Ha. }
      returned H as [[c2 lb2] evs2] eqn E2.
      injection H as <- <- <-.
      destruct (proj2 (IH (c + 1) lb1 Hss1) _ _ _ E2) as [H1 [H2 H3]].
      repeat split; [exact H1 | congruence | congruence].
Qed.

Lemma drop_timed_out_eq (s : ServerNode) (t : Q) :
  drop_timed_out s t =
  (mkServerNode (server_id s) (server_service_rate s)
                (filter (fun r => negb (is_timed_out r t)) (queue s))
                (current_request s) (completed_ s),
   filter (fun r => is_timed_out r t) (queue s)).
Proof. unfold drop_timed_out. now rewrite drop_loop_filter. Qed.

Lemma Forall_filter {A : Type} (P : A -> Prop) (f : A -> bool) (l : list A) :
  Forall P l -> Forall P (filter f l).
Proof.
  intro H. apply Forall_forall. intros x Hx. apply filter_In in Hx.
  rewrite Forall_forall in H. apply H, Hx.
Qed.

Lemma drop_all_ok (now : Q) (ss : list ServerNode) (m : MetricsCollector) :
  Forall (server_ok now) ss ->
  Forall (server_ok now) (fst (fst (drop_all ss now m))) /\
  length (fst (fst (drop_all ss now m))) = length ss.
Proof.
  intro Hss. revert m. induction Hss as [|s ss Hs _ IH]; intro m; simpl.
  - split; [constructor | reflexivity].
  - rewrite drop_timed_out_eq.
    specialize (IH (fold_left record_drop
                      (filter (fun r => is_timed_out r now) (queue s)) m)).
    destruct (drop_all ss now _) as [[ss1 m2] evs]. simpl in *.
    destruct IH as [IH1 IH2]. split; [|congruence].
    constructor; [|exact IH1].
    destruct Hs as [Hq Hc]. split; simpl; [|exact Hc].
    apply Forall_filter, Hq.
Qed.

Lemma tick_start_ok (now : Q) (s : ServerNode) :
  current_request s = None -> Forall (waiting_ok now) (queue s) ->
  server_ok now (tick_start s now).
Proof.
  intros Hcur Hq. unfold tick_start. rewrite Hcur.
  destruct (queue s) as [|next_req rest] eqn:Hqs.
  - split; [rewrite Hqs; constructor | now rewrite Hcur].
  - inversion Hq as [|r l [Ha [Hb Hc]] Hrest]; subst.
    split; simpl; [exact Hrest|].
    exists now. simpl. repeat split; try assumption. apply Qle_refl.
Qed.

Lemma tick_ok (now : Q) (s : ServerNode) :
  server_ok now s ->
  exists s' done,
    tick s now = Ok (s', done) /\
    server_ok now s' /\
    Forall timing_ok done.
Proof.
  intros [Hq Hc]. unfold tick, tick_finish.
  destruct (current_request s) as [req|] eqn:Hcur.
  - destruct Hc as [st [Hst [Hct [Hpos [Hast [Hstnow Hsv]]]]]].
    rewrite Hct.
    destruct (Qge_bool now (st + service_time req)) eqn:Hdue; simpl.
    + apply Qge_bool_iff in Hdue.
      eexists. eexists. split; [reflexivity|].
      split; [apply tick_start_ok; [reflexivity | exact Hq]|].
      constructor; [|constructor].
      exists st, now. unfold response_time, wait_time. simpl. rewrite Hst.
      split; [reflexivity|]. split; [reflexivity|].
      split; [exact Hast|]. split; [exact Hstnow|]. split; [exact Hdue|].
      split; [reflexivity|]. split; [reflexivity|]. split; lra.
    + eexists. eexists. split; [reflexivity|].
      rewrite (tick_start_busy s now req Hcur).
      split; [|constructor].
      split; [exact Hq|]. rewrite Hcur.
      exists st. repeat split; assumption.
  - simpl. eexists. eexists. split; [reflexivity|].
    split; [apply tick_start_ok; assumption | constructor].
Qed.

Lemma tick_all_ok (now : Q) (ss : list ServerNode) :
  Forall (server_ok now) ss ->
  forall m,
  exists ss' m' evs,
    tick_all ss now m = Ok (ss', m', evs) /\
    Forall (server_ok now) ss' /\
    length ss' = length ss /\
    Forall timing_ok (completed_of evs).
Proof.
  intro Hss. induction Hss as [|s ss Hs _ IH]; intro m; simpl.
  - exists [], m, []. repeat split; constructor.
  - destruct (tick_ok now s Hs) as [s1 [done [E1 [Hs1 Hdone]]]].
    rewrite E1. simpl.
    destruct (IH (fold_left record_completion done m))
      as [ss1 [m2 [evs2 [E2 [Hss1 [Hlen Hevs]]]]]].
    rewrite E2. simpl.
    eexists. eexists. eexists. split; [reflexivity|].
    split; [constructor; assumption|].
    split; [simpl; congruence|].
    rewrite completed_of_app, completed_of_completed.
    apply Forall_app. split; assumption.
Qed.


Lemma run_tick_ok (draws : list Q) (c : Z) (e : SimulationEngine) :
  engine_ok e -> Forall (fun q => 0 <= q)%Q draws ->
  (engine_servers e <> [] -> exists res, run_tick draws c e = Ok res) /\
  (forall c' e' evs,
      run_tick draws c e = Ok (c', e', evs) ->
      engine_ok e' /\
      length (engine_servers e') = length (engine_servers e) /\
      Forall timing_ok (completed_of evs)).
Proof.
  intros [Hss [Hclock Hdt]] Hdraws.
  set (now := (clock e + dt e)%Q).
  assert (Hnow : (0 < now)%Q) by (unfold now; lra).
  assert (Hss1 : Forall (server_ok now) (servers (load_balancer e))).
  { eapply Forall_impl; [|exact Hss]. intro s. apply server_ok_mono.
    unfold now. lra. }
  destruct (arrivals_ok draws now (request_timeout e) Hnow Hdraws c
              (load_balancer e) Hss1) as [Htotal Hsafe].
  assert (Hstep : forall c1 lb1 evs1,
    arrivals draws now (request_timeout e) c (load_balancer e) = Ok (c1, lb1, evs1) ->
    exists e' evs,
      run_tick draws c e = Ok (c1, e', evs) /\
      engine_ok e' /\
      length (engine_servers e') = length (engine_servers e) /\
      Forall timing_ok (completed_of evs)).
  { intros c1 lb1 evs1 Earr.
    destruct (Hsafe _ _ _ Earr) as [Hlb1 [Hlen1 _]].
    destruct (arrivals_ids _ _ _ _ _ _ _ _ Earr) as [_ [_ Hdone1]].
    unfold run_tick. simpl. fold now. rewrite Earr. simpl.
    unfold engine_servers. simpl.
    destruct (drop_all_ok now (servers lb1) (metrics e) Hlb1) as [Hdrop Hlen3].
    pose proof (drop_all_events (servers lb1) now (metrics e)) as [_ Hdone2].
    destruct (drop_all (servers lb1) now (metrics e)) as [[ss3 m3] evs2].
    simpl in *.
    destruct (tick_all_ok now ss3 Hdrop m3)
      as [ss4 [m4 [evs3 [Etick [Hss4 [Hlen4 Hdone3]]]]]].
    rewrite Etick. simpl.
    eexists. eexists. split; [reflexivity|].
    split; [|split].
    - unfold engine_ok, engine_servers. simpl. fold now.
      split; [exact Hss4|]. split; [lra | exact Hdt].
    - unfold engine_servers. simpl. congruence.
    - rewrite !completed_of_app, Hdone1, Hdone2. simpl. exact Hdone3. }
  split.
  - intro Hne. destruct (Htotal Hne) as [[[c1 lb1] evs1] Earr].
    destruct (Hstep _ _ _ Earr) as [e' [evs [E _]]]. eexists. exact E.
  - intros c' e' evs H.
    destruct (arrivals draws now (request_timeout e) c (load_balancer e))
      as [[[c1 lb1] evs1]|ex] eqn:Earr.
    + destruct (Hstep _ _ _ eq_refl) as [e1 [evs0 [E Hrest]]].
      rewrite E in H. injection H as <- <- <-. exact Hrest.
    + unfold run_tick in H. simpl in H. fold now in H. rewrite Earr in H.
      discriminate.
Qed.

Lemma run_loop_ok (rng : nat -> list Q) (count : nat) :
  (forall i q, In q (rng i) -> (0 <= q)%Q) ->
  forall i c e,
    engine_ok e ->
    (engine_servers e <> [] -> exists res, run_loop count i rng c e = Ok res) /\
    (forall c' e' evs,
        run_loop count i rng c e = Ok (c', e', evs) ->
        engine_ok e' /\
        Forall timing_ok (completed_of evs)).
Proof.
  intro Hrng. induction count as [|count IH]; intros i c e Hok; simpl.
  - split; [intros _; eexists; reflexivity|].
    intros c' e' evs H. injection H as <- <- <-. split; [exact Hok | constructor].
  - assert (Hdraws : Forall (fun q => 0 <= q)%Q (rng i))
      by (apply Forall_forall; apply Hrng).
    destruct (run_tick_ok (rng i) c e Hok Hdraws) as [Htotal Hsafe].
    split.
    + intro Hne. destruct (Htotal Hne) as [[[c1 e1] evs1] E1].
      destruct (Hsafe _ _ _ E1) as [Hok1 [Hlen1 _]].
      assert (Hne1 : engine_servers e1 <> []).
      { intro E. rewrite E in Hlen1.
        destruct (engine_servers e); [contradiction | discriminate]. }
      destruct (proj1 (IH (S i) c1 e1 Hok1) Hne1) as [[[c2 e2] evs2] E2].
      rewrite E1. simpl. rewrite E2. simpl. eexists. reflexivity.
    + intros c' e' evs H.
      returned H as [[c1 e1] evs1] eqn E1.
      destruct (Hsafe _ _ _ eq_refl) as [Hok1 [_ Hdone1]].
      returned H as [[c2 e2] evs2] eqn E2.
      injection H as <- <- <-.
      destruct (proj2 (IH (S i) c1 e1 Hok1) _ _ _ E2) as [Hok2 Hdone2].
      split; [exact Hok2|].
      rewrite completed_of_app. apply Forall_app. split; assumption.
Qed.

Lemma SimulationEngine_init_ok (num_servers : Z) (lambda mu duration step : Q)
    (alg : string) (tmo : bound) (e : SimulationEngine) :
  SimulationEngine_init num_servers lambda mu duration step alg tmo = Ok e ->
  clock e = 0%Q /\ dt e = step /\ sim_duration e = duration /\
  request_timeout e = tmo /\
  metrics e = MetricsCollector_init /\
  engine_servers e = map (fun i => ServerNode_init i mu) (range num_servers) /\
  rr_index (load_balancer e) = 0 /\
  algorithm (load_balancer e) = alg /\
  (alg = "round_robin"%string \/ alg = "least_loaded"%string).
Proof.
  unfold SimulationEngine_init. intro H.
  returned H as rho eqn Ecall.
  returned H as lb eqn Elb.
  injection H as <-.
  destruct (LoadBalancer_init_ok _ _ _ Elb) as [Halg ->].
  unfold engine_servers. simpl. repeat split. exact Halg.
Qed.

Lemma range_length (n : Z) : length (range n) = Z.to_nat n.
Proof. unfold range. now rewrite length_map, length_seq. Qed.

Lemma new_servers_ok (now mu : Q) (ids : list Z) :
  Forall (server_ok now) (map (fun i => ServerNode_init i mu) ids).
Proof.
  induction ids as [|i ids IH]; simpl; constructor; [|exact IH].
  split; simpl; [constructor | exact I].
Qed.

(** ** The collector sees exactly the events of the run *)

Lemma record_dropped_events (l : list ClientRequest) (m : MetricsCollector) :
  fold_left record_event (map Dropped l) m = fold_left record_drop l m.
Proof. revert m. induction l as [|r l IH]; intro m; simpl; [reflexivity | apply IH]. Qed.

Lemma record_completed_events (l : list ClientRequest) (m : MetricsCollector) :
  fold_left record_event (map Completed l) m = fold_left record_completion l m.
Proof. revert m. induction l as [|r l IH]; intro m; simpl; [reflexivity | apply IH]. Qed.

Lemma arrivals_metrics (draws : list Q) (now : Q) (tmo : bound) :
  forall c lb c' lb' evs m,
    arrivals draws now tmo c lb = Ok (c', lb', evs) ->
    fold_left record_event evs m = m.
Proof.
  induction draws as [|drawn draws IH]; intros c lb c' lb' evs m H.
  - simpl in H. injection H as <- <- <-. reflexivity.
  - cbn [arrivals ClientRequest_init] in H.
    returned H as [lb1 target] eqn Ecall.
    returned H as [[c2 lb2] evs2] eqn E.
    injection H as <- <- <-. simpl. eapply IH. exact E.
Qed.

Lemma drop_all_metrics (ss : list ServerNode) (now : Q) (m : MetricsCollector) :
  snd (fst (drop_all ss now m)) = fold_left record_event (snd (drop_all ss now m)) m.
Proof.
  revert m. induction ss as [|s ss IH]; intro m; simpl; [reflexivity|].
  destruct (drop_timed_out s now) as [s1 dropped].
  specialize (IH (fold_left record_drop dropped m)).
  destruct (drop_all ss now _) as [[ss1 m2] evs]. simpl in *.
  now rewrite fold_left_app, record_dropped_events.
Qed.

Lemma tick_all_metrics (ss : list ServerNode) (now : Q) :
  forall m ss' m' evs,
    tick_all ss now m = Ok (ss', m', evs) -> m' = fold_left record_event evs m.
Proof.
  induction ss as [|s ss IH]; intros m ss' m' evs H; simpl in H.
  - injection H as <- <- <-. reflexivity.
  - returned H as [s1 done] eqn Ecall.
    returned H as [[ss1 m2] evs2] eqn E.
    injection H as <- <- <-.
    rewrite fold_left_app, record_completed_events. eapply IH. exact E.
Qed.

Lemma drain_all_metrics (ss : list ServerNode) (now : Q) (m : MetricsCollector) :
  snd (fst (drain_all ss now m)) = fold_left record_event (snd (drain_all ss now m)) m.
Proof.
  revert m. induction ss as [|s ss IH]; intro m; simpl; [reflexivity|].
  unfold drain_server.
  destruct (current_request s) as [req|].
  - match goal with |- context [drain_all ss now ?m1] => specialize (IH m1) end.
    destruct (drain_all ss now _) as [[ss1 m2] evs]. simpl in *. exact IH.
  - specialize (IH m).
    destruct (drain_all ss now m) as [[ss1 m2] evs]. simpl in *. exact IH.
Qed.

Lemma run_tick_metrics (draws : list Q) (c : Z) (e : SimulationEngine) :
  forall c' e' evs,
    run_tick draws c e = Ok (c', e', evs) ->
    metrics e' = fold_left record_event evs (metrics e).
Proof.
  intros c' e' evs H. unfold run_tick in H.
  returned H as [[c1 lb1] evs1] eqn Earr.
  match type of H with context [drop_all ?ss ?t ?m] =>
    pose proof (drop_all_metrics ss t m) as Hdrop;
    destruct (drop_all ss t m) as [[ss3 m3] evs2] end.
  simpl in H, Hdrop.
  returned H as [[ss4 m4] evs3] eqn Etick.
  injection H as <- <- <-. simpl.
  rewrite !fold_left_app, (arrivals_metrics _ _ _ _ _ _ _ _ _ Earr), <- Hdrop.
  eapply tick_all_metrics. exact Etick.
Qed.

Lemma run_loop_metrics (count : nat) (rng : nat -> list Q) :
  forall i c e c' e' evs,
    run_loop count i rng c e = Ok (c', e', evs) ->
    metrics e' = fold_left record_event evs (metrics e).
Proof.
  induction count as [|count IH]; intros i c e c' e' evs H; simpl in H.
  - injection H as <- <- <-. reflexivity.
  - returned H as [[c1 e1] evs1] eqn E1.
    returned H as [[c2 e2] evs2] eqn E2.
    injection H as <- <- <-.
    rewrite fold_left_app, <- (run_tick_metrics _ _ _ _ _ _ E1).
    eapply IH. exact E2.
Qed.

Lemma run_metrics (rng : nat -> list Q) (c : Z) (e : SimulationEngine) :
  forall c' e' evs,
    run rng c e = Ok (c', e', evs) ->
    metrics e' = fold_left record_event evs (metrics e).
Proof.
  intros c' e' evs H. unfold run in H.
  returned H as ratio eqn Ecall.
  returned H as [[c1 e1] evs1] eqn E.
  unfold _drain_remaining in H.
  pose proof (drain_all_metrics (engine_servers e1) (clock e1) (metrics e1)) as Hd.
  destruct (drain_all _ _ _) as [[ss m] evs2]. simpl in Hd.
  injection H as <- <- <-. simpl.
  rewrite fold_left_app, <- (run_loop_metrics _ _ _ _ _ _ _ _ E). exact Hd.
Qed.




(** The sample run in full: three requests complete during the ticks and
    the drain, one is left waiting when the run ends. *)
Example sample_run_completions :
  exists c' e' evs,
    run sample_rng id_counter_initial new_engine = Ok (c', e', evs) /\
    c' = 4 /\
    map request_id (completed_of evs) = [2; 4; 1] /\
    map response_time (completed_of evs) = [Some (2 - 1); Some (3 - 2); Some ((7 # 2) - 1)]%Q /\
    completed_requests (metrics e') = 3 /\
    map queue_length (engine_servers e') = [1; 0]%nat.
Proof.
  do 3 eexists. split; [vm_compute; reflexivity|].
  repeat split.
Qed.

(** ** Scenarios *)

(** Two servers, cyclic policy, four dispatch calls in a row on a new
    dispatcher: the servers are chosen in the order 0, 1, 0, 1. *)
Example cyclic_two_servers :
  exists lb lb',
    LoadBalancer_init [ServerNode_init 0 (3 # 2); ServerNode_init 1 (3 # 2)]
                      "round_robin" = Ok lb /\
    dispatch_many lb [some_request; some_request; some_request; some_request] =
      Ok (lb', [0; 1; 0; 1]%nat) /\
    rr_index lb' = 4 /\
    map queue_length (servers lb') = [2; 2]%nat.
Proof.
  do 2 eexists. split; [reflexivity|]. split; [vm_compute; reflexivity|].
  split; reflexivity.
Qed.

(** A request with timeout 0 that arrived at clock 1 behind a busy server
    is evicted at clock 2; the request in service stays. *)
Example zero_timeout_evicted :
  drop_timed_out
    (mkServerNode 0 (3 # 2) [mkClientRequest 2 1 (1 # 2) (Finite 0) None None]
                  (Some short_run_request) []) 1 =
    (mkServerNode 0 (3 # 2) [mkClientRequest 2 1 (1 # 2) (Finite 0) None None]
                  (Some short_run_request) [], []) /\
  drop_timed_out
    (mkServerNode 0 (3 # 2) [mkClientRequest 2 1 (1 # 2) (Finite 0) None None]
                  (Some short_run_request) []) 2 =
    (mkServerNode 0 (3 # 2) [] (Some short_run_request) [],
     [mkClientRequest 2 1 (1 # 2) (Finite 0) None None]).
Proof. split; vm_compute; reflexivity. Qed.

(** No arrival at all: the collector stays at its initial state and the
    median is 0. *)
Example no_arrivals :
  exists e e',
    SimulationEngine_init 1 0 (3 # 2) 3 1 "round_robin" Infinity = Ok e /\
    run (fun _ => []) id_counter_initial e = Ok (0, e', []) /\
    metrics e' = MetricsCollector_init /\
    percentile (metrics e') 50 = Ok 0%Q.
Proof.
  do 2 eexists. split; [vm_compute; reflexivity|].
  split; [vm_compute; reflexivity|]. split; reflexivity.
Qed.

(** The index formula on three recorded times: p = 0 and p = 50 give the
    smallest, p = 95 the middle one, p = 100 the largest, and a p above
    100 can leave the list. *)
Example percentile_values :
  percentile (mkMetricsCollector 3 0 6 [3; 1; 2]%Q) 0 = Ok 1%Q /\
  percentile (mkMetricsCollector 3 0 6 [3; 1; 2]%Q) 50 = Ok 1%Q /\
  percentile (mkMetricsCollector 3 0 6 [3; 1; 2]%Q) 95 = Ok 2%Q /\
  percentile (mkMetricsCollector 3 0 6 [3; 1; 2]%Q) 100 = Ok 3%Q /\
  percentile (mkMetricsCollector 3 0 6 [3; 1; 2]%Q) 200 = Raise IndexError.
Proof. repeat (split; [vm_compute; reflexivity|]). vm_compute. reflexivity. Qed.

(** * Further properties of the code *)

(** ** Requests and servers *)

(** Splits a conjunction into its parts, and nothing else. *)
Ltac conjs := repeat match goal with |- _ /\ _ => split end.

Lemma is_timed_out_later (r : ClientRequest) (t t' : Q) :
  (t <= t')%Q -> is_timed_out r t = true -> is_timed_out r t' = true.
Proof.
  intros Hle H. apply is_timed_out_iff in H. apply is_timed_out_iff.
  destruct H as [Hst [tmo [Htmo Hlt]]].
  split; [exact Hst|]. exists tmo. split; [exact Htmo | lra].
Qed.

(** X1.  The timeout predicate of [request.py]: a request with the default
    unbounded timeout is never timed out; a request with a non-negative
    timeout is not timed out at the instant of its arrival; a waiting
    request that is timed out at some clock value is timed out at every
    later one; and with a negative timeout a waiting request is timed out
    already when it arrives. *)
Theorem timeout_predicate_over_time (r : ClientRequest) :
  (timeout r = Infinity -> forall t, is_timed_out r t = false) /\
  (forall q, timeout r = Finite q -> (0 <= q)%Q ->
             is_timed_out r (arrival_time r) = false) /\
  (forall t t', (t <= t')%Q -> is_timed_out r t = true ->
                is_timed_out r t' = true) /\
  (forall q, timeout r = Finite q -> (q < 0)%Q -> start_service_time r = None ->
             is_timed_out r (arrival_time r) = true).
Proof.
  split; [|split; [|split]].
  - intros Hinf t. unfold is_timed_out. rewrite Hinf.
    destruct (start_service_time r); reflexivity.
  - intros q Hq Hpos.
    destruct (is_timed_out r (arrival_time r)) eqn:E; [|reflexivity].
    apply is_timed_out_iff in E. destruct E as [_ [tmo [Htmo Hlt]]].
    rewrite Hq in Htmo. injection Htmo as <-. exfalso. lra.
  - intros t t'. apply is_timed_out_later.
  - intros q Hq Hneg Hst. apply is_timed_out_iff.
    split; [exact Hst|]. exists q. split; [exact Hq | lra].
Qed.

Lemma filter_filter_absorb {A : Type} (f g : A -> bool) (l : list A) :
  (forall x, f x = false -> g x = false) ->
  filter g (filter f l) = filter g l.
Proof.
  intro Hfg. induction l as [|x l IH]; simpl; [reflexivity|].
  destruct (f x) eqn:Ef; simpl.
  - now rewrite IH.
  - rewrite (Hfg x Ef). exact IH.
Qed.

Lemma filter_none {A : Type} (f : A -> bool) (l : list A) :
  (forall x, In x l -> f x = false) -> filter f l = [].
Proof.
  induction l as [|x l IH]; intro H; simpl; [reflexivity|].
  rewrite (H x (or_introl eq_refl)). apply IH. intros y Hy. apply H. now right.
Qed.

(** X2.  [drop_timed_out] composes over time: evicting at a clock value and
    then again at the same or a later one leaves the queue that a single
    eviction at the later value leaves; a second eviction at the same
    clock value evicts nothing; and every request of the queue is either
    kept or returned, never both and never lost. *)
Theorem drop_timed_out_twice (s : ServerNode) (t t' : Q) :
  (t <= t')%Q ->
  queue (fst (drop_timed_out (fst (drop_timed_out s t)) t')) =
    queue (fst (drop_timed_out s t')) /\
  drop_timed_out (fst (drop_timed_out s t)) t = (fst (drop_timed_out s t), []) /\
  (length (queue (fst (drop_timed_out s t))) + length (snd (drop_timed_out s t))
   = length (queue s))%nat /\
  Permutation (snd (drop_timed_out s t) ++ queue (fst (drop_timed_out s t)))
              (queue s).
Proof.
  intro Hle. rewrite !drop_timed_out_eq. simpl.
  split; [|split; [|split]].
  - apply filter_filter_absorb. intros r Hr.
    apply negb_false_iff in Hr. apply negb_false_iff.
    apply (is_timed_out_later r t t' Hle Hr).
  - f_equal.
    + f_equal. rewrite filter_filter_absorb; [reflexivity|]. auto.
    + apply filter_none. intros r Hr. apply filter_In in Hr.
      destruct Hr as [_ Hr]. now apply negb_true_iff in Hr.
  - induction (queue s) as [|r q IH]; simpl; [reflexivity|].
    destruct (is_timed_out r t); simpl; lia.
  - induction (queue s) as [|r q IH]; simpl; [constructor|].
    destruct (is_timed_out r t); simpl.
    + now constructor.
    + apply Permutation_sym, Permutation_cons_app, Permutation_sym, IH.
Qed.

Lemma drop_timed_out_twice_witness :
  queue (fst (drop_timed_out
                (fst (drop_timed_out
                        (mkServerNode 0 (3 # 2)
                           [mkClientRequest 2 1 (1 # 2) (Finite 0) None None]
                           (Some short_run_request) []) 1)) 2)) =
    queue (fst (drop_timed_out
                  (mkServerNode 0 (3 # 2)
                     [mkClientRequest 2 1 (1 # 2) (Finite 0) None None]
                     (Some short_run_request) []) 2)).
Proof.
  apply (drop_timed_out_twice
           (mkServerNode 0 (3 # 2)
              [mkClientRequest 2 1 (1 # 2) (Finite 0) None None]
              (Some short_run_request) []) 1 2).
  vm_compute. discriminate.
Defined.

(** X3.  [tick] raises only a [TypeError], and only when the request in
    service has no completion time.  Otherwise it returns at most one
    completed request, whose completion time is the clock; it appends
    exactly what it returns to the server's log of completed requests; it
    loses and invents no request (waiting + in service before = waiting +
    in service + returned after); it keeps the server's identifier and
    rate; and it never leaves a server idle while requests wait. *)
Theorem tick_outcome (s : ServerNode) (current_time : Q) :
  match tick s current_time with
  | Raise ex =>
      ex = TypeError /\
      exists req, current_request s = Some req /\ completion_time req = None
  | Ok (s', done) =>
      (length done <= 1)%nat /\
      Forall (fun r => completion_time r = Some current_time) done /\
      completed_ s' = completed_ s ++ done /\
      held s = (held s' + length done)%nat /\
      server_id s' = server_id s /\
      server_service_rate s' = server_service_rate s /\
      (current_request s' = None -> queue s' = [])
  end.
Proof.
  unfold tick, tick_finish, held, queue_length, is_busy.
  destruct (current_request s) as [req|] eqn:Hcur.
  - destruct (completion_time req) as [c|] eqn:Hc; simpl.
    + destruct (Qge_bool current_time c); simpl.
      * unfold tick_start; simpl.
        destruct (queue s) as [|next_req rest]; simpl; conjs;
          first [reflexivity | lia | discriminate | repeat constructor].
      * rewrite (tick_start_busy s current_time req Hcur). rewrite Hcur.
        conjs; first [reflexivity | lia | discriminate | constructor
                      | now rewrite app_nil_r].
    + split; [reflexivity|]. exists req. split; [reflexivity | exact Hc].
  - simpl. unfold tick_start. rewrite Hcur.
    destruct (queue s) as [|next_req rest] eqn:Hq; simpl.
    + rewrite Hcur, Hq.
      conjs; first [reflexivity | lia | constructor | now rewrite app_nil_r].
    + conjs; first [reflexivity | lia | discriminate | constructor
                    | now rewrite app_nil_r].
Qed.

(** ** Dispatch *)

Lemma nth_error_update_at_same {A : Type} (f : A -> A) (l : list A) (i : nat) (x : A) :
  nth_error l i = Some x -> nth_error (update_at i f l) i = Some (f x).
Proof.
  revert i. induction l as [|y l IH]; intros [|i] H; simpl in *; try discriminate.
  - now injection H as ->.
  - now apply IH.
Qed.

Lemma nth_error_update_at_other {A : Type} (f : A -> A) (l : list A) (i j : nat) :
  j <> i -> nth_error (update_at i f l) j = nth_error l j.
Proof.
  revert i j. induction l as [|y l IH]; intros [|i] [|j] H; simpl; try reflexivity.
  - contradiction.
  - apply IH. congruence.
Qed.

Lemma In_update_at {A : Type} (f : A -> A) (l : list A) (i : nat) (y : A) :
  In y (update_at i f l) ->
  In y l \/ exists x, nth_error l i = Some x /\ y = f x.
Proof.
  revert i. induction l as [|x l IH]; intros [|i] H; simpl in *; try contradiction.
  - destruct H as [<-|H]; [right; now exists x | left; now right].
  - destruct H as [<-|H]; [left; now left|].
    destruct (IH i H) as [Hin|Hex]; [left; now right | right; exact Hex].
Qed.

Lemma waiting_all_enqueue (ss : list ServerNode) (i : nat) (req : ClientRequest) :
  (i < length ss)%nat ->
  waiting_all (update_at i (fun s => enqueue s req) ss) = S (waiting_all ss).
Proof.
  revert i. induction ss as [|s ss IH]; intros [|i] H; simpl in *; try lia.
  - unfold queue_length. simpl. rewrite length_app. simpl. lia.
  - rewrite IH by lia. lia.
Qed.

Lemma held_all_enqueue (ss : list ServerNode) (i : nat) (req : ClientRequest) :
  (i < length ss)%nat ->
  held_all (update_at i (fun s => enqueue s req) ss) = S (held_all ss).
Proof.
  revert i. induction ss as [|s ss IH]; intros [|i] H; simpl in *; try lia.
  - unfold held, queue_length, is_busy. simpl. rewrite length_app. simpl. lia.
  - rewrite IH by lia. lia.
Qed.

Lemma map_update_at_invariant {A B : Type} (g : A -> B) (f : A -> A) (i : nat)
    (l : list A) :
  (forall x, g (f x) = g x) -> map g (update_at i f l) = map g l.
Proof.
  intro H. revert i. induction l as [|x l IH]; intros [|i]; simpl;
    try reflexivity; [now rewrite H | now rewrite IH].
Qed.

Lemma dispatch_inv (lb lb' : LoadBalancer) (req : ClientRequest) (target : nat) :
  dispatch lb req = Ok (lb', target) ->
  (target < length (servers lb))%nat /\
  algorithm lb' = algorithm lb /\
  servers lb' = update_at target (fun s => enqueue s req) (servers lb) /\
  rr_index lb' =
    (if String.eqb (algorithm lb) "round_robin" then rr_index lb + 1
     else rr_index lb).
Proof.
  intro H.
  assert (Hne : servers lb <> []).
  { intro E. unfold dispatch in H. rewrite E in H. discriminate. }
  destruct (dispatch_total lb req Hne) as [lb1 [t1 [H1 Hrest]]].
  rewrite H1 in H. injection H as <- <-. exact Hrest.
Qed.

(** X4.  A [dispatch] that returns has appended the request to the tail of
    the waiting queue of the server it returns and has changed nothing
    else: every other server is as before, no request in service, log or
    identifier changes, the number of servers and the policy stay, and the
    rotation pointer moves (by one) under the cyclic policy only. *)
Theorem dispatch_enqueues_once
    (lb lb' : LoadBalancer) (req : ClientRequest) (target : nat) :
  dispatch lb req = Ok (lb', target) ->
  (exists s,
      nth_error (servers lb) target = Some s /\
      nth_error (servers lb') target = Some (enqueue s req) /\
      queue (enqueue s req) = queue s ++ [req]) /\
  (forall j, j <> target ->
             nth_error (servers lb') j = nth_error (servers lb) j) /\
  length (servers lb') = length (servers lb) /\
  waiting_all (servers lb') = S (waiting_all (servers lb)) /\
  map current_request (servers lb') = map current_request (servers lb) /\
  map completed_ (servers lb') = map completed_ (servers lb) /\
  map server_id (servers lb') = map server_id (servers lb) /\
  algorithm lb' = algorithm lb /\
  rr_index lb' =
    (if String.eqb (algorithm lb) "round_robin" then rr_index lb + 1
     else rr_index lb).
Proof.
  intro H. destruct (dispatch_inv _ _ _ _ H) as [Hlt [Halg [Hss Hrr]]].
  rewrite Hss. conjs.
  - destruct (nth_error (servers lb) target) as [s|] eqn:Hs.
    + exists s. split; [reflexivity|].
      split; [|reflexivity].
      apply (nth_error_update_at_same (fun s0 => enqueue s0 req)). exact Hs.
    + apply nth_error_None in Hs. lia.
  - intros j Hj. now apply nth_error_update_at_other.
  - apply update_at_length.
  - now apply waiting_all_enqueue.
  - now apply map_update_at_invariant.
  - now apply map_update_at_invariant.
  - now apply map_update_at_invariant.
  - exact Halg.
  - exact Hrr.
Qed.

Lemma dispatch_enqueues_once_witness :
  waiting_all
    (update_at 1 (fun s => enqueue s some_request) (servers loaded_balancer)) =
  S (waiting_all (servers loaded_balancer)).
Proof.
  destruct (dispatch_enqueues_once loaded_balancer
              (mkLoadBalancer
                 (update_at 1 (fun s => enqueue s some_request)
                            (servers loaded_balancer))
                 "least_loaded" 0)
              some_request 1 eq_refl) as [_ [_ [_ [H _]]]].
  exact H.
Defined.

Lemma dispatch_least_loaded_balanced
    (lb lb' : LoadBalancer) (req : ClientRequest) (target : nat) :
  String.eqb (algorithm lb) "round_robin" = false ->
  balanced (servers lb) ->
  dispatch lb req = Ok (lb', target) ->
  balanced (servers lb').
Proof.
  intros Hpol Hbal H.
  destruct (dispatch_inv _ _ _ _ H) as [Hlt [_ [Hss _]]].
  assert (Hne : servers lb <> []) by (destruct (servers lb); simpl in *; [lia | discriminate]).
  destruct (_least_loaded_first_min lb Hne) as [t [Hll [_ [st [Hst Hmin]]]]].
  assert (Ht : t = target).
  { unfold dispatch in H. rewrite Hpol, Hll in H. simpl in H.
    destruct (servers lb); [contradiction|]. now injection H. }
  subst t.
  assert (Hleast : forall s', In s' (servers lb) ->
                              (queue_length st <= queue_length s')%nat).
  { intros s' Hin. destruct (In_nth_error _ _ Hin) as [j Hj].
    apply (Hmin j s'); [|exact Hj]. apply nth_error_Some. congruence. }
  assert (Hst_in : In st (servers lb)) by (eapply nth_error_In; exact Hst).
  assert (Hnew : forall y, In y (servers lb') ->
             (In y (servers lb)) \/ queue_length y = S (queue_length st)).
  { intros y Hy. rewrite Hss in Hy. apply In_update_at in Hy.
    destruct Hy as [Hy|[x [Hx ->]]]; [now left|].
    right. rewrite Hst in Hx. injection Hx as <-.
    unfold queue_length, enqueue. simpl. rewrite length_app. simpl. lia. }
  intros a b Ha Hb.
  destruct (Hnew a Ha) as [Ha'|Ha']; destruct (Hnew b Hb) as [Hb'|Hb'].
  - now apply Hbal.
  - specialize (Hbal a st Ha' Hst_in). lia.
  - specialize (Hleast b Hb'). lia.
  - lia.
Qed.

(** X5.  The least-loaded policy keeps the queues level: if the
    waiting-queue lengths of the servers differ by at most one, they still
    do after any number of dispatches made in a row (they all do for the
    servers of a new engine, whose queues are empty). *)
Theorem least_loaded_keeps_balance (requests : list ClientRequest) :
  forall lb lb' targets,
    algorithm lb = "least_loaded"%string ->
    balanced (servers lb) ->
    dispatch_many lb requests = Ok (lb', targets) ->
    balanced (servers lb') /\ length targets = length requests.
Proof.
  induction requests as [|req requests IH]; intros lb lb' targets Halg Hbal H.
  - simpl in H. injection H as <- <-. split; [exact Hbal | reflexivity].
  - simpl in H.
    returned H as [lb1 t1] eqn E1.
    returned H as [lb2 ts] eqn E2.
    injection H as <- <-.
    assert (Hpol : String.eqb (algorithm lb) "round_robin" = false)
      by (rewrite Halg; reflexivity).
    pose proof (dispatch_least_loaded_balanced _ _ _ _ Hpol Hbal E1) as Hbal1.
    destruct (dispatch_inv _ _ _ _ E1) as [_ [Halg1 _]].
    destruct (IH lb1 lb2 ts ltac:(congruence) Hbal1 E2) as [Hb Hl].
    split; [exact Hb | simpl; congruence].
Qed.

Lemma least_loaded_keeps_balance_witness :
  balanced
    (update_at 1 (fun s => enqueue s some_request) (servers loaded_balancer))
  /\ length [1%nat] = length [some_request].
Proof.
  apply (least_loaded_keeps_balance [some_request] loaded_balancer
           (mkLoadBalancer
              (update_at 1 (fun s => enqueue s some_request)
                         (servers loaded_balancer))
              "least_loaded" 0) [1%nat]).
  - reflexivity.
  - intros a b Ha Hb. simpl in Ha, Hb.
    repeat (destruct Ha as [<-|Ha]; [|]); try contradiction;
      repeat (destruct Hb as [<-|Hb]; [|]); try contradiction;
      unfold queue_length; simpl; lia.
  - reflexivity.
Defined.

Lemma dispatch_many_counts (requests : list ClientRequest) :
  forall lb lb' targets,
    dispatch_many lb requests = Ok (lb', targets) ->
    forall i s,
      nth_error (servers lb) i = Some s ->
      exists s',
        nth_error (servers lb') i = Some s' /\
        queue_length s' = (queue_length s + count_occ Nat.eq_dec targets i)%nat /\
        current_request s' = current_request s.
Proof.
  induction requests as [|req requests IH]; intros lb lb' targets H i s Hs.
  - simpl in H. injection H as <- <-. exists s. simpl. repeat split; [exact Hs | lia].
  - simpl in H.
    returned H as [lb1 t1] eqn E1.
    returned H as [lb2 ts] eqn E2.
    injection H as <- <-.
    destruct (dispatch_inv _ _ _ _ E1) as [_ [_ [Hss _]]].
    simpl count_occ.
    destruct (Nat.eq_dec t1 i) as [->|Hneq].
    + assert (Hs1 : nth_error (servers lb1) i = Some (enqueue s req)).
      { rewrite Hss.
        apply (nth_error_update_at_same (fun s0 => enqueue s0 req)). exact Hs. }
      destruct (IH _ _ _ E2 i _ Hs1) as [s' [H1 [H2 H3]]].
      exists s'. split; [exact H1|]. split; [|exact H3].
      rewrite H2. unfold queue_length, enqueue. simpl. rewrite length_app. simpl. lia.
    + assert (Hs1 : nth_error (servers lb1) i = Some s).
      { rewrite Hss, nth_error_update_at_other by congruence. exact Hs. }
      destruct (IH _ _ _ E2 i _ Hs1) as [s' [H1 [H2 H3]]].
      exists s'. auto.
Qed.

Lemma map_seq_from (A : Type) (f : nat -> A) (a len : nat) :
  map f (seq a len) = map (fun j => f (a + j)%nat) (seq 0 len).
Proof.
  revert a. induction len as [|len IH]; intro a; simpl; [reflexivity|].
  rewrite Nat.add_0_r. f_equal.
  rewrite (IH (S a)), <- seq_shift, map_map. apply map_ext. intro j.
  f_equal. lia.
Qed.

Lemma rotation_count (r : Z) (n k i : nat) :
  (i < n)%nat ->
  count_occ Nat.eq_dec
    (map (fun j => Z.to_nat ((r + Z.of_nat j) mod Z.of_nat n)) (seq 0 (k * n))) i = k.
Proof.
  intro Hi. induction k as [|k IH]; [reflexivity|].
  change (S k * n)%nat with (n + k * n)%nat.
  rewrite seq_app, map_app, count_occ_app. simpl (0 + n)%nat.
  rewrite (map_seq_from _ _ n (k * n)).
  assert (Hround :
    count_occ Nat.eq_dec
      (map (fun j => Z.to_nat ((r + Z.of_nat j) mod Z.of_nat n)) (seq 0 n)) i = 1%nat).
  { rewrite (proj1 (Permutation_count_occ Nat.eq_dec _ _)
                   (rotation_is_permutation r n) i).
    apply NoDup_count_occ'; [apply seq_NoDup | apply in_seq; lia]. }
  rewrite Hround.
  rewrite (map_ext
             (fun j => Z.to_nat ((r + Z.of_nat (n + j)) mod Z.of_nat n))
             (fun j => Z.to_nat ((r + Z.of_nat j) mod Z.of_nat n))).
  - now rewrite IH.
  - intro j. f_equal.
    replace (r + Z.of_nat (n + j)) with (r + Z.of_nat j + 1 * Z.of_nat n) by lia.
    apply Z_mod_plus_full.
Qed.

(** X6.  The cyclic policy is even: after k full rounds (k times N
    dispatches in a row on a dispatcher over N servers, wherever the
    pointer stands and whatever the queues hold) every server has received
    exactly k more requests, its request in service is untouched, and the
    pointer has advanced by k times N. *)
Theorem round_robin_rounds
    (lb : LoadBalancer) (requests : list ClientRequest) (k : nat) :
  algorithm lb = "round_robin"%string ->
  servers lb <> [] ->
  length requests = (k * length (servers lb))%nat ->
  exists lb' targets,
    dispatch_many lb requests = Ok (lb', targets) /\
    rr_index lb' = rr_index lb + Z.of_nat (k * length (servers lb)) /\
    forall i s,
      nth_error (servers lb) i = Some s ->
      exists s',
        nth_error (servers lb') i = Some s' /\
        queue_length s' = (queue_length s + k)%nat /\
        current_request s' = current_request s.
Proof.
  intros Halg Hne Hlen.
  destruct (dispatch_many_round_robin requests lb Halg Hne)
    as [lb' [H1 [H2 _]]].
  rewrite Hlen in H1, H2.
  eexists. eexists. split; [exact H1|]. split; [exact H2|].
  intros i s Hs.
  destruct (dispatch_many_counts _ _ _ _ H1 i s Hs) as [s' [Ha [Hb Hc]]].
  exists s'. split; [exact Ha|]. split; [|exact Hc].
  rewrite Hb, rotation_count; [reflexivity|].
  apply nth_error_Some. congruence.
Qed.

Lemma round_robin_rounds_witness :
  exists lb' targets,
    dispatch_many (mkLoadBalancer three_servers "round_robin" 1)
      [some_request; some_request; some_request;
       some_request; some_request; some_request] = Ok (lb', targets) /\
    rr_index lb' = 1 + Z.of_nat (2 * 3) /\
    forall i s,
      nth_error three_servers i = Some s ->
      exists s',
        nth_error (servers lb') i = Some s' /\
        queue_length s' = (queue_length s + 2)%nat /\
        current_request s' = current_request s.
Proof.
  apply (round_robin_rounds (mkLoadBalancer three_servers "round_robin" 1)
           [some_request; some_request; some_request;
            some_request; some_request; some_request] 2).
  - reflexivity.
  - simpl. discriminate.
  - reflexivity.
Defined.

(** ** Collector statistics *)

Lemma apply_calls_app (m : MetricsCollector) (a b : list collector_call) :
  apply_calls m (a ++ b) = apply_calls (apply_calls m a) b.
Proof. unfold apply_calls. apply fold_left_app. Qed.

Lemma apply_calls_times (calls : list collector_call) :
  forall m,
    response_times (apply_calls m calls) =
      response_times m ++ flat_map contributed calls /\
    total_response_time (apply_calls m calls) =
      fold_left Qplus (flat_map contributed calls) (total_response_time m) /\
    completed_requests (apply_calls m calls) =
      completed_requests m + Z.of_nat (length (flat_map contributed calls)).
Proof.
  induction calls as [|c calls IH]; intro m.
  - simpl. rewrite app_nil_r. repeat split. lia.
  - change (apply_calls m (c :: calls)) with (apply_calls (apply_call m c) calls).
    destruct (IH (apply_call m c)) as [H1 [H2 H3]].
    rewrite H1, H2, H3. simpl flat_map.
    destruct c as [request|request]; simpl.
    + unfold record_completion.
      destruct (response_time request) as [rt|]; simpl.
      * rewrite <- app_assoc. simpl. split; [reflexivity|].
        split; [reflexivity | lia].
      * repeat split.
    + repeat split.
Qed.

(** X7.  The collector keeps the individual response times in the order
    in which completions were recorded, one per completion that had a
    response time and none for a drop; its running sum is the left-to-right
    sum of that sequence and its completed count is the length of the
    sequence; so the average response time is 0 without completions and
    the sum divided by the number of recorded times otherwise. *)
Theorem collector_response_times (calls : list collector_call) :
  let m := apply_calls MetricsCollector_init calls in
  response_times m = flat_map contributed calls /\
  total_response_time m = fold_left Qplus (response_times m) 0%Q /\
  completed_requests m = Z.of_nat (length (response_times m)) /\
  (response_times m = [] -> average_response_time m = 0%Q) /\
  (response_times m <> [] ->
   average_response_time m =
     (fold_left Qplus (response_times m) 0 /
      inject_Z (Z.of_nat (length (response_times m))))%Q).
Proof.
  intro m. subst m.
  destruct (apply_calls_times calls MetricsCollector_init) as [H1 [H2 H3]].
  simpl in H1, H2, H3. rewrite H1.
  split; [reflexivity|]. split; [exact H2|]. split; [exact H3|].
  unfold average_response_time. rewrite H2, H3. split.
  - intros ->. reflexivity.
  - intro Hne.
    destruct (flat_map contributed calls) as [|rt rts]; [contradiction|].
    reflexivity.
Qed.

Lemma apply_calls_nonneg (calls : list collector_call) :
  forall m,
    0 <= completed_requests m -> 0 <= dropped_requests m ->
    0 <= completed_requests (apply_calls m calls) /\
    0 <= dropped_requests (apply_calls m calls).
Proof.
  induction calls as [|c calls IH]; intros m Hc Hd; [simpl; auto|].
  change (apply_calls m (c :: calls)) with (apply_calls (apply_call m c) calls).
  apply IH; destruct c as [request|request]; simpl; try lia;
    unfold record_completion; destruct (response_time request); simpl; lia.
Qed.

(** X8.  For a collector fed by any sequence of calls, both counts are
    non-negative, [total_requests] is their sum, and [drop_rate] is 0 when
    nothing was counted and otherwise the dropped count divided by the
    total, a fraction between 0 and 1 that is 0 without drops and 1
    without completions. *)
Theorem drop_rate_is_a_fraction (calls : list collector_call) :
  let m := apply_calls MetricsCollector_init calls in
  0 <= completed_requests m /\ 0 <= dropped_requests m /\
  total_requests m = completed_requests m + dropped_requests m /\
  (total_requests m = 0 -> drop_rate m = 0%Q) /\
  (total_requests m <> 0 ->
   drop_rate m = (inject_Z (dropped_requests m) / inject_Z (total_requests m))%Q) /\
  (0 <= drop_rate m)%Q /\ (drop_rate m <= 1)%Q /\
  (dropped_requests m = 0 -> (drop_rate m == 0)%Q) /\
  (completed_requests m = 0 -> dropped_requests m <> 0 -> (drop_rate m == 1)%Q).
Proof.
  intro m.
  destruct (apply_calls_nonneg calls MetricsCollector_init) as [Hc Hd];
    [simpl; lia | simpl; lia |].
  fold m in Hc, Hd.
  assert (Hrate : total_requests m <> 0 ->
                  drop_rate m = (inject_Z (dropped_requests m)
                                 / inject_Z (total_requests m))%Q).
  { intro Hne. unfold drop_rate.
    destruct (Z.eqb_spec (total_requests m) 0); [contradiction | reflexivity]. }
  assert (Hzero : total_requests m = 0 -> drop_rate m = 0%Q).
  { intro Hz. unfold drop_rate. now rewrite Hz. }
  split; [exact Hc|]. split; [exact Hd|]. split; [reflexivity|].
  split; [exact Hzero|]. split; [exact Hrate|].
  destruct (Z.eq_dec (total_requests m) 0) as [Hz|Hnz].
  - rewrite (Hzero Hz). unfold total_requests in Hz.
    split; [apply Qle_refl|]. split; [discriminate|].
    split; [reflexivity|]. intros _ Hne. lia.
  - rewrite (Hrate Hnz). unfold total_requests in *.
    assert (Hpos : (0 < inject_Z (completed_requests m + dropped_requests m))%Q).
    { rewrite <- (Zlt_Qlt 0). lia. }
    split; [|split; [|split]].
    + apply Qle_shift_div_l; [exact Hpos|]. rewrite Qmult_0_l.
      rewrite <- (Zle_Qle 0). exact Hd.
    + apply Qle_shift_div_r; [exact Hpos|]. rewrite Qmult_1_l.
      rewrite <- Zle_Qle. lia.
    + intros ->. unfold Qdiv. apply Qmult_0_l.
    + intros -> Hne. simpl. unfold Qdiv. apply Qmult_inv_r.
      intro E. apply Hne.
      exact (proj1 (inject_Z_injective (dropped_requests m) 0) E).
Qed.

(** ** Percentiles *)

Lemma sorted_nth_le (l : list Q) (i j : nat) (d : Q) :
  StronglySorted Qle l -> (i <= j)%nat -> (j < length l)%nat ->
  (nth i l d <= nth j l d)%Q.
Proof.
  intro Hs. revert i j. induction Hs as [|x l Hs IH Hall]; intros i j Hij Hj.
  - simpl in Hj. lia.
  - destruct i as [|i]; destruct j as [|j]; simpl in *; try lia.
    + apply Qle_refl.
    + rewrite Forall_forall in Hall. apply Hall. apply nth_In. lia.
    + apply IH; lia.
Qed.

Lemma py_int_nonpositive (x : Q) : (x <= 0)%Q -> py_int x <= 0.
Proof.
  destruct x as [n d]. unfold Qle, py_int. simpl. intro H.
  assert (Hn : n <= 0) by lia.
  replace n with (- (- n)) by lia.
  rewrite Z.quot_opp_l by lia.
  assert (0 <= Z.quot (- n) (Z.pos d)) by (apply Z.quot_pos; lia). lia.
Qed.

Lemma py_int_monotone (x y : Q) : (0 <= x)%Q -> (x <= y)%Q -> py_int x <= py_int y.
Proof.
  intros Hx Hxy.
  rewrite (py_int_floor x Hx), (py_int_floor y) by (apply Qle_trans with x; assumption).
  now apply Qfloor_resp_le.
Qed.

Lemma scaled_monotone (count : nat) (p q : Q) :
  (p <= q)%Q ->
  (inject_Z (Z.of_nat count) * p / 100 <= inject_Z (Z.of_nat count) * q / 100)%Q.
Proof.
  intro Hpq.
  assert (Hn : (0 <= inject_Z (Z.of_nat count))%Q) by (rewrite <- (Zle_Qle 0); lia).
  apply Qle_shift_div_l; [reflexivity|].
  unfold Qdiv. rewrite <- Qmult_assoc.
  setoid_replace (/ 100 * 100)%Q with 1%Q by reflexivity.
  rewrite Qmult_1_r.
  rewrite (Qmult_comm _ p), (Qmult_comm _ q).
  now apply Qmult_le_compat_r.
Qed.

Lemma percentile_index_monotone (count : nat) (p q : Q) :
  (0 <= p)%Q -> (p <= q)%Q ->
  percentile_index count p <= percentile_index count q.
Proof.
  intros Hp Hpq. unfold percentile_index.
  assert (Hn : (0 <= inject_Z (Z.of_nat count))%Q) by (rewrite <- (Zle_Qle 0); lia).
  assert (Hlow : (0 <= inject_Z (Z.of_nat count) * p / 100)%Q).
  { apply Qle_shift_div_l; [reflexivity|]. rewrite Qmult_0_l.
    now apply Qmult_le_0_compat. }
  pose proof (py_int_monotone _ _ Hlow (scaled_monotone count p q Hpq)). lia.
Qed.

Lemma percentile_at (m : MetricsCollector) (p : Q) (i : Z) :
  response_times m <> [] ->
  percentile_index (length (response_times m)) p = i ->
  0 <= i < Z.of_nat (length (response_times m)) ->
  percentile m p = Ok (nth (Z.to_nat i) (sorted (response_times m)) 0%Q) /\
  In (nth (Z.to_nat i) (sorted (response_times m)) 0%Q) (response_times m).
Proof.
  intros Hne Hidx Hrange. split.
  - unfold percentile.
    destruct (response_times m) as [|rt rts] eqn:Hrts; [contradiction|].
    rewrite sorted_length, Hidx.
    apply py_index_in_range. now rewrite sorted_length.
  - apply (Permutation_in _ (sorted_perm (response_times m))).
    apply nth_In. rewrite sorted_length. lia.
Qed.

(** X9.  Percentiles never decrease with p and are recorded values: for
    0 <= p <= q <= 100 and at least one recorded response time,
    [percentile] returns for p and for q response times that were actually
    recorded, and the one for p is at most the one for q. *)
Theorem percentile_monotone (m : MetricsCollector) (p q : Q) :
  (0 <= p)%Q -> (p <= q)%Q -> (q <= 100)%Q ->
  response_times m <> [] ->
  exists a b,
    percentile m p = Ok a /\ percentile m q = Ok b /\
    In a (response_times m) /\ In b (response_times m) /\
    (a <= b)%Q.
Proof.
  intros Hp Hpq Hq Hne.
  set (count := length (response_times m)).
  assert (Hcount : (0 < count)%nat).
  { unfold count. destruct (response_times m); [contradiction | simpl; lia]. }
  assert (Hp100 : (p <= 100)%Q) by (apply Qle_trans with q; assumption).
  assert (Hq0 : (0 <= q)%Q) by (apply Qle_trans with p; assumption).
  destruct (percentile_index_floor count p Hp Hp100 Hcount) as [_ Hrp].
  destruct (percentile_index_floor count q Hq0 Hq Hcount) as [_ Hrq].
  pose proof (percentile_index_monotone count p q Hp Hpq) as Hmono.
  destruct (percentile_at m p _ Hne eq_refl Hrp) as [Ha Hain].
  destruct (percentile_at m q _ Hne eq_refl Hrq) as [Hb Hbin].
  eexists. eexists. split; [exact Ha|]. split; [exact Hb|].
  split; [exact Hain|]. split; [exact Hbin|].
  apply sorted_nth_le; [apply sorted_ascending | fold count; lia |].
  rewrite sorted_length. fold count. lia.
Qed.

Lemma percentile_monotone_witness :
  exists a b,
    percentile (mkMetricsCollector 3 0 6 [3; 1; 2]%Q) 50 = Ok a /\
    percentile (mkMetricsCollector 3 0 6 [3; 1; 2]%Q) 95 = Ok b /\
    In a [3; 1; 2]%Q /\ In b [3; 1; 2]%Q /\ (a <= b)%Q.
Proof.
  apply (percentile_monotone (mkMetricsCollector 3 0 6 [3; 1; 2]%Q) 50 95).
  - vm_compute. discriminate.
  - vm_compute. discriminate.
  - vm_compute. discriminate.
  - simpl. discriminate.
Defined.

Lemma percentile_index_top (count : nat) :
  (0 < count)%nat -> percentile_index count 100 = Z.of_nat count - 1.
Proof.
  intro Hcount. unfold percentile_index.
  assert (Hn : (0 <= inject_Z (Z.of_nat count))%Q) by (rewrite <- (Zle_Qle 0); lia).
  assert (Heq : (inject_Z (Z.of_nat count) * 100 / 100 == inject_Z (Z.of_nat count))%Q).
  { apply Qdiv_mult_l. discriminate. }
  rewrite py_int_floor by (rewrite Heq; exact Hn).
  rewrite Heq, Qfloor_Z. lia.
Qed.

Lemma percentile_index_bottom (count : nat) (p : Q) :
  (p <= 0)%Q -> percentile_index count p = 0.
Proof.
  intro Hp. unfold percentile_index.
  assert (Hn : (0 <= inject_Z (Z.of_nat count))%Q) by (rewrite <- (Zle_Qle 0); lia).
  assert (Hx : (inject_Z (Z.of_nat count) * p / 100 <= 0)%Q).
  { apply Qle_shift_div_r; [reflexivity|]. rewrite Qmult_0_l.
    rewrite Qmult_comm. 
    setoid_replace 0%Q with (0 * inject_Z (Z.of_nat count))%Q by (now rewrite Qmult_0_l).
    now apply Qmult_le_compat_r. }
  pose proof (py_int_nonpositive _ Hx). lia.
Qed.

(** X10.  The ends of the percentile scale, with at least one recorded
    response time: [percentile(100)] is the largest recorded response
    time, and [percentile(p)] is the smallest for every p <= 0 (negative
    values included) for which the product count * p stays in the finite
    range of the arithmetic. *)
Theorem percentile_extremes (m : MetricsCollector) :
  response_times m <> [] ->
  (exists top,
      percentile m 100 = Ok top /\ In top (response_times m) /\
      forall rt, In rt (response_times m) -> (rt <= top)%Q) /\
  (forall p, (p <= 0)%Q ->
     finite_range (inject_Z (Z.of_nat (length (response_times m))) * p) ->
     exists bottom,
       percentile m p = Ok bottom /\ In bottom (response_times m) /\
       forall rt, In rt (response_times m) -> (bottom <= rt)%Q).
Proof.
  intro Hne.
  set (count := length (response_times m)).
  assert (Hcount : (0 < count)%nat).
  { unfold count. destruct (response_times m); [contradiction | simpl; lia]. }
  assert (Hfind : forall rt, In rt (response_times m) ->
            exists i, (i < count)%nat /\ nth i (sorted (response_times m)) 0%Q = rt).
  { intros rt Hrt.
    apply (Permutation_in _ (Permutation_sym (sorted_perm (response_times m)))) in Hrt.
    destruct (In_nth _ _ 0%Q Hrt) as [i [Hi Hnth]].
    rewrite sorted_length in Hi. exists i. split; assumption. }
  split.
  - destruct (percentile_at m 100 (Z.of_nat count - 1) Hne
                (percentile_index_top count Hcount) ltac:(lia)) as [Ha Hin].
    eexists. split; [exact Ha|]. split; [exact Hin|].
    intros rt Hrt. destruct (Hfind rt Hrt) as [i [Hi <-]].
    apply sorted_nth_le; [apply sorted_ascending | lia |].
    rewrite sorted_length. fold count. lia.
  - intros p Hp _.
    destruct (percentile_at m p 0 Hne (percentile_index_bottom count p Hp)
                ltac:(fold count; lia)) as [Ha Hin].
    eexists. split; [exact Ha|]. split; [exact Hin|].
    intros rt Hrt. destruct (Hfind rt Hrt) as [i [Hi <-]].
    apply sorted_nth_le; [apply sorted_ascending | simpl; lia |].
    rewrite sorted_length. fold count. lia.
Qed.

Lemma percentile_extremes_witness :
  (exists top,
      percentile (mkMetricsCollector 3 0 6 [3; 1; 2]%Q) 100 = Ok top /\
      In top [3; 1; 2]%Q /\
      forall rt, In rt [3; 1; 2]%Q -> (rt <= top)%Q) /\
  (forall p, (p <= 0)%Q ->
     finite_range (inject_Z (Z.of_nat 3) * p) ->
     exists bottom,
       percentile (mkMetricsCollector 3 0 6 [3; 1; 2]%Q) p = Ok bottom /\
       In bottom [3; 1; 2]%Q /\
       forall rt, In rt [3; 1; 2]%Q -> (bottom <= rt)%Q).
Proof.
  apply (percentile_extremes (mkMetricsCollector 3 0 6 [3; 1; 2]%Q)).
  simpl. discriminate.
Defined.

Lemma py_index_beyond {A : Type} (l : list A) (i : Z) :
  Z.of_nat (length l) <= i -> py_index l i = Raise IndexError.
Proof.
  intro Hi. unfold py_index.
  destruct (Z.ltb_spec i 0) as [Hneg|_]; [lia|].
  destruct (Z.ltb_spec i (Z.of_nat (length l))) as [Hlt|_]; [lia|].
  now rewrite andb_false_r.
Qed.

Lemma py_index_raises_only_IndexError {A : Type} (l : list A) (i : Z) (ex : exn) :
  py_index l i = Raise ex -> ex = IndexError.
Proof.
  unfold py_index.
  destruct (_ && _); [|intro H; now injection H].
  destruct (nth_error l _); [discriminate | intro H; now injection H].
Qed.

(** X11.  When [percentile] fails.  With at least one recorded response
    time and a product count * p in the finite range of the arithmetic:
    it raises [IndexError] whenever count * p / 100 reaches count + 1 (so
    for every p >= 200); it returns a recorded response time whenever
    p <= 100; and in every case it either returns a recorded response time
    or raises [IndexError]. *)
Theorem percentile_above_range (m : MetricsCollector) (p : Q) :
  response_times m <> [] ->
  finite_range (inject_Z (Z.of_nat (length (response_times m))) * p) ->
  ((inject_Z (Z.of_nat (length (response_times m)) + 1)
    <= inject_Z (Z.of_nat (length (response_times m))) * p / 100)%Q ->
   percentile m p = Raise IndexError) /\
  ((200 <= p)%Q -> percentile m p = Raise IndexError) /\
  ((p <= 100)%Q ->
   exists rt, percentile m p = Ok rt /\ In rt (response_times m)) /\
  ((exists rt, percentile m p = Ok rt /\ In rt (response_times m)) \/
   percentile m p = Raise IndexError).
Proof.
  intros Hne _.
  set (count := length (response_times m)).
  set (x := (inject_Z (Z.of_nat count) * p / 100)%Q).
  assert (Hcount : (0 < count)%nat).
  { unfold count. destruct (response_times m); [contradiction | simpl; lia]. }
  assert (Hperc : percentile m p =
            py_index (sorted (response_times m)) (percentile_index count p)).
  { unfold percentile. destruct (response_times m) eqn:E; [contradiction|].
    rewrite sorted_length. reflexivity. }
  assert (Hbeyond : (inject_Z (Z.of_nat count + 1) <= x)%Q ->
                    percentile m p = Raise IndexError).
  { intro Hx. rewrite Hperc. unfold percentile_index. fold x.
    assert (Hpos : (0 <= x)%Q).
    { apply Qle_trans with (inject_Z (Z.of_nat count + 1)); [|exact Hx].
      rewrite <- (Zle_Qle 0). lia. }
    apply Qfloor_resp_le in Hx. rewrite Qfloor_Z in Hx.
    apply py_index_beyond. rewrite sorted_length. fold count.
    rewrite (py_int_floor x Hpos). lia. }
  assert (Hwithin : percentile_index count p < Z.of_nat count ->
                    exists rt, percentile m p = Ok rt /\ In rt (response_times m)).
  { intro Hlt.
    assert (H0 : 0 <= percentile_index count p)
      by (unfold percentile_index; lia).
    destruct (percentile_at m p _ Hne eq_refl (conj H0 Hlt)) as [Ha Hin].
    eexists. split; [exact Ha | exact Hin]. }
  split; [exact Hbeyond|]. split; [|split].
  - intro Hp. apply Hbeyond. unfold x.
    assert (Hn : (1 <= inject_Z (Z.of_nat count))%Q) by (rewrite <- (Zle_Qle 1); lia).
    apply Qle_shift_div_l; [reflexivity|].
    rewrite inject_Z_plus. change (inject_Z 1) with 1%Q. nra.
  - intro Hp. apply Hwithin.
    destruct (Qlt_le_dec p 0) as [Hneg|Hpos].
    + rewrite (percentile_index_bottom count p (Qlt_le_weak _ _ Hneg)). lia.
    + destruct (percentile_index_floor count p Hpos Hp Hcount) as [_ Hr]. lia.
  - destruct (Z_lt_le_dec (percentile_index count p) (Z.of_nat count)) as [Hlt|Hge].
    + left. exact (Hwithin Hlt).
    + right. rewrite Hperc. apply py_index_beyond.
      rewrite sorted_length. exact Hge.
Qed.

Lemma percentile_above_range_witness :
  ((inject_Z (Z.of_nat 3 + 1) <= inject_Z (Z.of_nat 3) * 200 / 100)%Q ->
   percentile (mkMetricsCollector 3 0 6 [3; 1; 2]%Q) 200 = Raise IndexError) /\
  ((200 <= 200)%Q ->
   percentile (mkMetricsCollector 3 0 6 [3; 1; 2]%Q) 200 = Raise IndexError) /\
  ((200 <= 100)%Q ->
   exists rt, percentile (mkMetricsCollector 3 0 6 [3; 1; 2]%Q) 200 = Ok rt /\
              In rt [3; 1; 2]%Q) /\
  ((exists rt, percentile (mkMetricsCollector 3 0 6 [3; 1; 2]%Q) 200 = Ok rt /\
               In rt [3; 1; 2]%Q) \/
   percentile (mkMetricsCollector 3 0 6 [3; 1; 2]%Q) 200 = Raise IndexError).
Proof.
  apply (percentile_above_range (mkMetricsCollector 3 0 6 [3; 1; 2]%Q) 200).
  - simpl. discriminate.
  - split; vm_compute; discriminate.
Defined.

(** ** The engine: construction *)

(** X12.  What the engine's constructor does on every input.  The
    utilisation is computed first, so a server count or service rate of
    zero raises [ZeroDivisionError] whatever the policy name; otherwise an
    unknown policy name raises [ValueError]; otherwise an engine is
    returned with the clock at 0, an empty collector, the pointer at 0 and
    one idle server with an empty queue per identifier 0, 1, ..., in this
    order (no server at all for a negative count). *)
Theorem SimulationEngine_init_outcome
    (num_servers : Z) (lambda mu duration step : Q) (alg : string) (tmo : bound) :
  ((inject_Z num_servers * mu == 0)%Q ->
   SimulationEngine_init num_servers lambda mu duration step alg tmo =
     Raise ZeroDivisionError) /\
  (~ (inject_Z num_servers * mu == 0)%Q ->
   alg <> "round_robin"%string -> alg <> "least_loaded"%string ->
   SimulationEngine_init num_servers lambda mu duration step alg tmo =
     Raise ValueError) /\
  (~ (inject_Z num_servers * mu == 0)%Q ->
   alg = "round_robin"%string \/ alg = "least_loaded"%string ->
   exists e,
     SimulationEngine_init num_servers lambda mu duration step alg tmo = Ok e /\
     clock e = 0%Q /\ dt e = step /\ sim_duration e = duration /\
     request_timeout e = tmo /\
     utilization e = (lambda / (inject_Z num_servers * mu))%Q /\
     metrics e = MetricsCollector_init /\
     algorithm (load_balancer e) = alg /\
     rr_index (load_balancer e) = 0 /\
     engine_servers e = map (fun i => ServerNode_init i mu) (range num_servers) /\
     map server_id (engine_servers e) = range num_servers /\
     length (engine_servers e) = Z.to_nat num_servers /\
     held_all (engine_servers e) = 0%nat /\
     (num_servers <= 0 -> engine_servers e = [])).
Proof.
  unfold SimulationEngine_init, py_div.
  split; [|split].
  - intro Hz. apply Qeq_bool_iff in Hz. now rewrite Hz.
  - intros Hnz H1 H2.
    destruct (Qeq_bool (inject_Z num_servers * mu) 0) eqn:E.
    + apply Qeq_bool_iff in E. contradiction.
    + simpl. now rewrite (LoadBalancer_init_unknown _ alg H1 H2).
  - intros Hnz Halg.
    destruct (Qeq_bool (inject_Z num_servers * mu) 0) eqn:E.
    + apply Qeq_bool_iff in E. contradiction.
    + simpl.
      assert (Hlb : forall ss, LoadBalancer_init ss alg = Ok (mkLoadBalancer ss alg 0)).
      { intro ss. destruct Halg as [->| ->]; reflexivity. }
      rewrite Hlb. simpl. eexists. split; [reflexivity|].
      unfold engine_servers. simpl. conjs; try reflexivity.
      * rewrite map_map. simpl. apply map_id.
      * now rewrite length_map, range_length.
      * induction (range num_servers) as [|i l IH]; simpl; [reflexivity | exact IH].
      * intro Hle. unfold range.
        replace (Z.to_nat num_servers) with 0%nat by lia. reflexivity.
Qed.

(** ** The engine: what a run keeps *)

Lemma tick_inv (s s' : ServerNode) (now : Q) (done : list ClientRequest) :
  tick s now = Ok (s', done) ->
  server_id s' = server_id s /\
  held s = (held s' + length done)%nat /\
  Forall (fun r => completion_time r = Some now) done /\
  completed_ s' = completed_ s ++ done.
Proof.
  unfold tick, tick_finish, held, queue_length, is_busy.
  destruct (current_request s) as [req|] eqn:Hcur.
  - destruct (completion_time req) as [c|]; simpl; [|discriminate].
    destruct (Qge_bool now c); simpl; intro H; injection H as <- <-.
    + unfold tick_start; simpl.
      destruct (queue s) as [|next_req rest]; simpl; conjs;
        first [reflexivity | simpl; lia | repeat constructor].
    + rewrite (tick_start_busy s now req Hcur). rewrite Hcur.
      conjs; first [reflexivity | simpl; lia | constructor | now rewrite app_nil_r].
  - simpl. intro H. injection H as <- <-.
    unfold tick_start. rewrite Hcur.
    destruct (queue s) as [|next_req rest] eqn:Hq; simpl.
    + rewrite Hcur, Hq.
      conjs; first [reflexivity | simpl; lia | constructor | now rewrite app_nil_r].
    + conjs; first [reflexivity | simpl; lia | constructor | now rewrite app_nil_r].
Qed.

Lemma arrivals_inv (draws : list Q) (now : Q) (tmo : bound) :
  forall c lb c' lb' evs,
    arrivals draws now tmo c lb = Ok (c', lb', evs) ->
    map server_id (servers lb') = map server_id (servers lb) /\
    algorithm lb' = algorithm lb /\
    held_all (servers lb') = (held_all (servers lb) + length draws)%nat /\
    evs = map Created (created_of evs) /\
    length (created_of evs) = length draws.
Proof.
  induction draws as [|drawn draws IH]; intros c lb c' lb' evs H.
  - simpl in H. injection H as <- <- <-. simpl. conjs; first [reflexivity | lia].
  - cbn [arrivals ClientRequest_init] in H.
    returned H as [lb1 target] eqn E1.
    returned H as [[c2 lb2] evs2] eqn E2.
    injection H as <- <- <-.
    destruct (dispatch_inv _ _ _ _ E1) as [Hlt [Halg [Hss _]]].
    destruct (IH _ _ _ _ _ E2) as [H1 [H2 [H3 [H4 H5]]]].
    conjs.
    + rewrite H1, Hss. now apply map_update_at_invariant.
    + congruence.
    + rewrite H3, Hss, held_all_enqueue by exact Hlt. simpl. lia.
    + simpl. now rewrite <- H4.
    + simpl. now rewrite H5.
Qed.

Lemma drop_all_inv (ss : list ServerNode) (now : Q) (m : MetricsCollector) :
  let '(ss', m', evs) := drop_all ss now m in
  map server_id ss' = map server_id ss /\
  held_all ss = (held_all ss' + length evs)%nat /\
  evs = map Dropped (dropped_of evs) /\
  Forall (fun r => is_timed_out r now = true) (dropped_of evs).
Proof.
  revert m. induction ss as [|s ss IH]; intro m; simpl.
  - conjs; first [reflexivity | constructor].
  - rewrite drop_timed_out_eq.
    specialize (IH (fold_left record_drop
                      (filter (fun r => is_timed_out r now) (queue s)) m)).
    destruct (drop_all ss now _) as [[ss1 m2] evs]. simpl.
    destruct IH as [H1 [H2 [H3 H4]]].
    set (out := filter (fun r => is_timed_out r now) (queue s)) in *.
    assert (Hd : dropped_of (map Dropped out ++ evs) = out ++ dropped_of evs).
    { unfold dropped_of. rewrite flat_map_app. f_equal.
      clear. induction out; simpl; congruence. }
    conjs.
    + now rewrite H1.
    + unfold held at 1 2, queue_length, is_busy. simpl.
      rewrite length_app, length_map.
      assert (length (queue s) =
              (length (filter (fun r => negb (is_timed_out r now)) (queue s))
               + length out)%nat).
      { unfold out. clear. induction (queue s) as [|r q IHq]; simpl; [reflexivity|].
        destruct (is_timed_out r now); simpl; lia. }
      lia.
    + rewrite Hd, map_app. now rewrite <- H3.
    + rewrite Hd. apply Forall_app. split; [|exact H4].
      unfold out. apply Forall_forall. intros r Hr.
      apply filter_In in Hr. apply Hr.
Qed.

Lemma tick_all_inv (ss : list ServerNode) (now : Q) :
  forall m ss' m' evs,
    tick_all ss now m = Ok (ss', m', evs) ->
    map server_id ss' = map server_id ss /\
    held_all ss = (held_all ss' + length evs)%nat /\
    evs = map Completed (completed_of evs) /\
    Forall (fun r => completion_time r = Some now) (completed_of evs).
Proof.
  induction ss as [|s ss IH]; intros m ss' m' evs H; simpl in H.
  - injection H as <- <- <-. simpl. conjs; first [reflexivity | constructor].
  - returned H as [s1 done] eqn E1.
    returned H as [[ss1 m2] evs2] eqn E2.
    injection H as <- <- <-.
    destruct (tick_inv _ _ _ _ E1) as [Hid [Hheld [Hdone _]]].
    destruct (IH _ _ _ _ E2) as [H1 [H2 [H3 H4]]].
    rewrite completed_of_app, completed_of_completed.
    conjs.
    + simpl. now rewrite Hid, H1.
    + simpl. rewrite length_app, length_map. lia.
    + rewrite map_app. now rewrite <- H3.
    + apply Forall_app. split; assumption.
Qed.

Lemma drain_all_inv (ss : list ServerNode) (now : Q) (m : MetricsCollector) :
  let '(ss', m', evs) := drain_all ss now m in
  map server_id ss' = map server_id ss /\
  map queue ss' = map queue ss /\
  map completed_ ss' = map completed_ ss /\
  held_all ss = (waiting_all ss' + length evs)%nat /\
  held_all ss' = waiting_all ss' /\
  evs = map Completed (completed_of evs) /\
  Forall (fun r => completion_time r <> None) (completed_of evs).
Proof.
  revert m. induction ss as [|s ss IH]; intro m; simpl.
  - conjs; first [reflexivity | constructor].
  - unfold drain_server at 1.
    destruct (current_request s) as [req|] eqn:Hcur.
    + match goal with |- context [drain_all ss now ?m1] => specialize (IH m1) end.
      destruct (drain_all ss now _) as [[ss1 m2] evs].
      destruct IH as [H1 [H2 [H3 [H4 [H5 [H6 H7]]]]]].
      simpl. unfold held, queue_length, is_busy in *. simpl. rewrite Hcur.
      conjs; try (f_equal; assumption); try lia.
      constructor; [|exact H7]. simpl.
      destruct (truthy (completion_time req)) eqn:Et; [|discriminate].
      destruct (completion_time req); [discriminate | discriminate Et].
    + specialize (IH m).
      destruct (drain_all ss now m) as [[ss1 m2] evs].
      destruct IH as [H1 [H2 [H3 [H4 [H5 [H6 H7]]]]]].
      simpl. unfold held, queue_length, is_busy in *. rewrite Hcur.
      conjs; try (f_equal; assumption); try assumption; lia.
Qed.

Lemma dropped_of_app (a b : list event) :
  dropped_of (a ++ b) = dropped_of a ++ dropped_of b.
Proof. unfold dropped_of. apply flat_map_app. Qed.

Lemma kinds_of_created (l : list ClientRequest) :
  created_of (map Created l) = l /\ dropped_of (map Created l) = [] /\
  completed_of (map Created l) = [].
Proof. induction l as [|r l [H1 [H2 H3]]]; simpl; conjs; congruence. Qed.

Lemma kinds_of_dropped (l : list ClientRequest) :
  created_of (map Dropped l) = [] /\ dropped_of (map Dropped l) = l /\
  completed_of (map Dropped l) = [].
Proof. induction l as [|r l [H1 [H2 H3]]]; simpl; conjs; congruence. Qed.

Lemma kinds_of_completed (l : list ClientRequest) :
  created_of (map Completed l) = [] /\ dropped_of (map Completed l) = [] /\
  completed_of (map Completed l) = l.
Proof. induction l as [|r l [H1 [H2 H3]]]; simpl; conjs; congruence. Qed.

(** What one iteration of the main loop does, in one statement. *)
Lemma run_tick_inv (draws : list Q) (c : Z) (e : SimulationEngine) :
  forall c' e' evs,
    run_tick draws c e = Ok (c', e', evs) ->
    same_configuration e e' /\
    clock e' = (clock e + dt e)%Q /\
    (held_all (engine_servers e) + length (created_of evs) =
     held_all (engine_servers e') + length (completed_of evs)
     + length (dropped_of evs))%nat /\
    length (created_of evs) = length draws /\
    Forall (fun r => completion_time r = Some (clock e')) (completed_of evs) /\
    Forall (fun r => is_timed_out r (clock e') = true) (dropped_of evs).
Proof.
  intros c' e' evs H. unfold run_tick in H.
  returned H as [[c1 lb1] evs1] eqn Earr.
  destruct (arrivals_inv _ _ _ _ _ _ _ _ Earr) as [A1 [A2 [A3 [A4 A5]]]].
  match type of H with context [drop_all ?ss ?t ?m] =>
    pose proof (drop_all_inv ss t m) as Hdrop;
    destruct (drop_all ss t m) as [[ss3 m3] evs2] end.
  destruct Hdrop as [D1 [D2 [D3 D4]]].
  simpl in H.
  returned H as [[ss4 m4] evs3] eqn Etick.
  destruct (tick_all_inv _ _ _ _ _ _ Etick) as [T1 [T2 [T3 T4]]].
  injection H as <- <- <-.
  unfold engine_servers in *. simpl in *.
  rewrite A4, D3, T3.
  rewrite !created_of_app, !completed_of_app, !dropped_of_app.
  destruct (kinds_of_created (created_of evs1)) as [-> [-> ->]].
  destruct (kinds_of_dropped (dropped_of evs2)) as [-> [-> ->]].
  destruct (kinds_of_completed (completed_of evs3)) as [-> [-> ->]].
  simpl. rewrite !app_nil_r.
  assert (L2 : length evs2 = length (dropped_of evs2))
    by (rewrite D3 at 1; apply length_map).
  assert (L3 : length evs3 = length (completed_of evs3))
    by (rewrite T3 at 1; apply length_map).
  conjs.
  - unfold same_configuration, engine_servers. simpl.
    conjs; try reflexivity; [exact A2 | congruence].
  - reflexivity.
  - lia.
  - exact A5.
  - exact T4.
  - exact D4.
Qed.

(** Induction over the main loop, for a property of the identifier
    counter, the engine and the events so far. *)
Lemma run_loop_invariant
    (P : Z -> SimulationEngine -> list event -> Prop) (rng : nat -> list Q) :
  (forall i c e evs c' e' evs',
      P c e evs -> run_tick (rng i) c e = Ok (c', e', evs') ->
      P c' e' (evs ++ evs')) ->
  forall count i c e evs c' e' evs',
    P c e evs -> run_loop count i rng c e = Ok (c', e', evs') ->
    P c' e' (evs ++ evs').
Proof.
  intro Hstep. induction count as [|count IH]; intros i c e evs c' e' evs' HP H;
    simpl in H.
  - injection H as <- <- <-. now rewrite app_nil_r.
  - returned H as [[c1 e1] evs1] eqn E1.
    returned H as [[c2 e2] evs2] eqn E2.
    injection H as <- <- <-.
    rewrite app_assoc. eapply IH; [|exact E2].
    eapply Hstep; [exact HP | exact E1].
Qed.

Lemma run_unfold (rng : nat -> list Q) (c : Z) (e : SimulationEngine) :
  forall c' e' evs,
    run rng c e = Ok (c', e', evs) ->
    ~ (dt e == 0)%Q /\
    exists e1 evs1,
      run_loop (Z.to_nat (py_int (sim_duration e / dt e))) 0 rng c e =
        Ok (c', e1, evs1) /\
      e' = fst (_drain_remaining e1) /\
      evs = evs1 ++ snd (_drain_remaining e1).
Proof.
  intros c' e' evs H. unfold run, py_div in H.
  destruct (Qeq_bool (dt e) 0) eqn:Ez; simpl in H; [discriminate|].
  split.
  - intro Hz. apply Qeq_bool_iff in Hz. congruence.
  - returned H as [[c1 e1] evs1] eqn E1.
    destruct (_drain_remaining e1) as [e2 evs2] eqn:Ed. injection H as <- <- <-.
    exists e1, evs1. rewrite Ed. split; [reflexivity|]. split; reflexivity.
Qed.

Lemma same_configuration_refl (e : SimulationEngine) : same_configuration e e.
Proof. unfold same_configuration. conjs; reflexivity. Qed.

Lemma same_configuration_trans (e1 e2 e3 : SimulationEngine) :
  same_configuration e1 e2 -> same_configuration e2 e3 -> same_configuration e1 e3.
Proof.
  unfold same_configuration.
  intros [A1 [A2 [A3 [A4 [A5 [A6 [A7 A8]]]]]]] [B1 [B2 [B3 [B4 [B5 [B6 [B7 B8]]]]]]].
  conjs; congruence.
Qed.

Lemma run_loop_clock (count : nat) (rng : nat -> list Q) :
  forall i c e c' e' evs,
    run_loop count i rng c e = Ok (c', e', evs) ->
    same_configuration e e' /\
    (clock e' == clock e + inject_Z (Z.of_nat count) * dt e)%Q.
Proof.
  induction count as [|count IH]; intros i c e c' e' evs H; simpl in H.
  - injection H as <- <- <-. split; [apply same_configuration_refl|].
    simpl. ring.
  - returned H as [[c1 e1] evs1] eqn E1.
    returned H as [[c2 e2] evs2] eqn E2.
    injection H as <- <- <-.
    destruct (run_tick_inv _ _ _ _ _ _ E1) as [S1 [C1 _]].
    destruct (IH _ _ _ _ _ _ E2) as [S2 C2].
    split; [eapply same_configuration_trans; eassumption|].
    rewrite C2, C1.
    assert (Hdt : dt e1 = dt e) by apply S1. rewrite Hdt.
    rewrite Nat2Z.inj_succ. unfold Z.succ. rewrite inject_Z_plus. ring.
Qed.

Lemma drain_remaining_inv (e : SimulationEngine) :
  same_configuration e (fst (_drain_remaining e)) /\
  clock (fst (_drain_remaining e)) = clock e /\
  map queue (engine_servers (fst (_drain_remaining e))) =
    map queue (engine_servers e) /\
  map completed_ (engine_servers (fst (_drain_remaining e))) =
    map completed_ (engine_servers e) /\
  Forall (fun s => current_request s = None)
         (engine_servers (fst (_drain_remaining e))) /\
  held_all (engine_servers e) =
    (waiting_all (engine_servers (fst (_drain_remaining e)))
     + length (snd (_drain_remaining e)))%nat /\
  snd (_drain_remaining e) =
    map Completed (completed_of (snd (_drain_remaining e))) /\
  Forall (fun r => completion_time r <> None)
         (completed_of (snd (_drain_remaining e))).
Proof.
  unfold _drain_remaining.
  pose proof (drain_all_inv (engine_servers e) (clock e) (metrics e)) as Hd.
  pose proof (drain_all_shape (engine_servers e) (clock e) (metrics e)) as Hs.
  destruct (drain_all _ _ _) as [[ss m] evs].
  destruct Hd as [H1 [H2 [H3 [H4 [H5 [H6 H7]]]]]].
  destruct Hs as [_ [Hidle _]].
  unfold same_configuration, engine_servers in *. simpl.
  conjs; try reflexivity; assumption.
Qed.

Lemma sample_run_returns :
  exists c' e' evs, run sample_rng id_counter_initial new_engine = Ok (c', e', evs).
Proof. do 3 eexists. vm_compute. reflexivity. Qed.



Lemma run_loop_no_servers (count : nat) (rng : nat -> list Q) (i : nat) (c : Z)
    (e : SimulationEngine) :
  engine_servers e = [] -> rng i <> [] ->
  run_loop (S count) i rng c e = Raise RuntimeError.
Proof.
  intros Hss Hdraws. simpl. unfold run_tick. simpl.
  destruct (rng i) as [|drawn draws]; [contradiction|].
  cbn [arrivals ClientRequest_init]. unfold dispatch.
  unfold engine_servers in Hss. rewrite Hss. reflexivity.
Qed.

(** X14.  The edges of [run].  A time step of zero raises
    [ZeroDivisionError] before anything else happens.  When
    int(duration / step) is zero or negative (a duration shorter than one
    step, or of the opposite sign) the loop body never runs: no request is
    created, the identifier counter and the clock stay, and the run is
    just the drain.  An engine without servers (built from a negative
    server count) raises [RuntimeError] as soon as the first tick has an
    arrival. *)
Theorem run_edge_cases (rng : nat -> list Q) (c : Z) (e : SimulationEngine) :
  ((dt e == 0)%Q -> run rng c e = Raise ZeroDivisionError) /\
  (~ (dt e == 0)%Q -> py_int (sim_duration e / dt e) <= 0 ->
   run rng c e = Ok (c, fst (_drain_remaining e), snd (_drain_remaining e)) /\
   created_of (snd (_drain_remaining e)) = [] /\
   clock (fst (_drain_remaining e)) = clock e) /\
  (~ (dt e == 0)%Q -> 0 < py_int (sim_duration e / dt e) ->
   engine_servers e = [] -> rng 0%nat <> [] ->
   run rng c e = Raise RuntimeError).
Proof.
  unfold run, py_div. split; [|split].
  - intro Hz. apply Qeq_bool_iff in Hz. now rewrite Hz.
  - intros Hnz Hcount.
    destruct (Qeq_bool (dt e) 0) eqn:Ez; [apply Qeq_bool_iff in Ez; contradiction|].
    simpl. replace (Z.to_nat (py_int (sim_duration e / dt e))) with 0%nat by lia.
    simpl. destruct (_drain_remaining e) as [e2 evs2] eqn:Ed. simpl.
    split; [reflexivity|].
    pose proof (drain_remaining_inv e) as Hinv. rewrite Ed in Hinv. simpl in Hinv.
    destruct Hinv as [_ [Hclock [_ [_ [_ [_ [Hevs _]]]]]]].
    split; [|exact Hclock].
    rewrite Hevs. apply kinds_of_completed.
  - intros Hnz Hcount Hss Hdraws.
    destruct (Qeq_bool (dt e) 0) eqn:Ez; [apply Qeq_bool_iff in Ez; contradiction|].
    simpl.
    destruct (Z.to_nat (py_int (sim_duration e / dt e))) as [|count] eqn:En; [lia|].
    now rewrite run_loop_no_servers.
Qed.

(** ** The engine: every request is accounted for *)

Lemma record_events_counts (evs : list event) :
  forall m,
    Forall (fun r => completion_time r <> None) (completed_of evs) ->
    completed_requests (fold_left record_event evs m) =
      completed_requests m + Z.of_nat (length (completed_of evs)) /\
    dropped_requests (fold_left record_event evs m) =
      dropped_requests m + Z.of_nat (length (dropped_of evs)) /\
    response_times (fold_left record_event evs m) =
      response_times m ++ response_times_of (completed_of evs) /\
    length (response_times_of (completed_of evs)) = length (completed_of evs).
Proof.
  induction evs as [|ev evs IH]; intros m Hall.
  - simpl. rewrite app_nil_r. conjs; first [reflexivity | lia].
  - destruct ev as [r|r|r]; simpl in *.
    + destruct (IH m Hall) as [H1 [H2 [H3 H4]]]. conjs; assumption.
    + destruct (IH (record_drop m r) Hall) as [H1 [H2 [H3 H4]]].
      rewrite H1, H2, H3. simpl. conjs; first [reflexivity | lia | assumption].
    + inversion Hall as [|r' l Hr Hrest]; subst.
      destruct (IH (record_completion m r) Hrest) as [H1 [H2 [H3 H4]]].
      rewrite H1, H2, H3.
      unfold record_completion, response_time in *.
      destruct (completion_time r) as [t|]; [|contradiction].
      simpl. rewrite <- app_assoc. simpl.
      conjs; first [reflexivity | lia].
Qed.

Lemma run_events_inv
    (rng : nat -> list Q) (c c' : Z) (e e' : SimulationEngine) (evs : list event) :
  run rng c e = Ok (c', e', evs) ->
  (held_all (engine_servers e) + length (created_of evs) =
   length (completed_of evs) + length (dropped_of evs)
   + waiting_all (engine_servers e'))%nat /\
  Forall (fun r => completion_time r <> None) (completed_of evs) /\
  Forall (fun r => exists t, is_timed_out r t = true) (dropped_of evs).
Proof.
  intro H.
  destruct (run_unfold _ _ _ _ _ _ H) as [_ [e1 [evs1 [Hloop [He' Hevs]]]]].
  pose proof (run_loop_invariant
                (fun _ e0 evs0 =>
                   (held_all (engine_servers e) + length (created_of evs0) =
                    held_all (engine_servers e0) + length (completed_of evs0)
                    + length (dropped_of evs0))%nat /\
                   Forall (fun r => completion_time r <> None) (completed_of evs0) /\
                   Forall (fun r => exists t, is_timed_out r t = true)
                          (dropped_of evs0))
                rng) as Hinv.
  simpl in Hinv.
  assert (Hstep : forall i c0 e0 evs0 c0' e0' evs0',
    (held_all (engine_servers e) + length (created_of evs0) =
     held_all (engine_servers e0) + length (completed_of evs0)
     + length (dropped_of evs0))%nat /\
    Forall (fun r => completion_time r <> None) (completed_of evs0) /\
    Forall (fun r => exists t, is_timed_out r t = true) (dropped_of evs0) ->
    run_tick (rng i) c0 e0 = Ok (c0', e0', evs0') ->
    (held_all (engine_servers e) + length (created_of (evs0 ++ evs0')) =
     held_all (engine_servers e0') + length (completed_of (evs0 ++ evs0'))
     + length (dropped_of (evs0 ++ evs0')))%nat /\
    Forall (fun r => completion_time r <> None) (completed_of (evs0 ++ evs0')) /\
    Forall (fun r => exists t, is_timed_out r t = true)
           (dropped_of (evs0 ++ evs0'))).
  { intros i c0 e0 evs0 c0' e0' evs0' [Hcount [Hset Hout]] Htick.
    destruct (run_tick_inv _ _ _ _ _ _ Htick) as [_ [_ [Hacc [_ [Hdone Hto]]]]].
    rewrite created_of_app, completed_of_app, dropped_of_app, !length_app.
    split; [lia|]. split.
    - apply Forall_app. split; [exact Hset|].
      eapply Forall_impl; [|exact Hdone]. simpl. intros r Hr. congruence.
    - apply Forall_app. split; [exact Hout|].
      eapply Forall_impl; [|exact Hto]. intros r Hr. now exists (clock e0'). }
  specialize (Hinv Hstep _ _ _ _ [] _ _ _
                (conj (eq_sym (Nat.add_0_r _))
                      (conj (Forall_nil _) (Forall_nil _))) Hloop).
  simpl in Hinv. destruct Hinv as [Hcount [Hset Hout]].
  destruct (drain_remaining_inv e1) as [_ [_ [_ [_ [_ [Hheld [Hkind Hset2]]]]]]].
  rewrite <- He' in Hheld.
  assert (Hk : created_of (snd (_drain_remaining e1)) = [] /\
               dropped_of (snd (_drain_remaining e1)) = [] /\
               length (snd (_drain_remaining e1)) =
                 length (completed_of (snd (_drain_remaining e1)))).
  { rewrite Hkind at 1 2 3.
    destruct (kinds_of_completed (completed_of (snd (_drain_remaining e1))))
      as [-> [-> _]].
    rewrite length_map. auto. }
  destruct Hk as [K1 [K2 K3]].
  rewrite Hevs, created_of_app, completed_of_app, dropped_of_app, !length_app.
  rewrite K1, K2, !app_nil_r. simpl. split; [lia|]. split; [|exact Hout].
  apply Forall_app. split; assumption.
Qed.

(** X15.  No request is lost and none is counted twice.  For every run
    that returns, from whatever state the engine starts in: the requests
    held by the servers at the start plus the requests created are the
    requests completed, plus those dropped, plus those left waiting in the
    queues at the end (which the drain abandons).  The collector's
    completed and dropped counts grow by exactly the numbers of completed
    and dropped requests, one response time is appended per completed
    request, in order, and the identifier counter grows by the number of
    requests created. *)
Theorem run_accounts_for_every_request
    (rng : nat -> list Q) (c c' : Z) (e e' : SimulationEngine) (evs : list event) :
  run rng c e = Ok (c', e', evs) ->
  (held_all (engine_servers e) + length (created_of evs) =
   length (completed_of evs) + length (dropped_of evs)
   + waiting_all (engine_servers e'))%nat /\
  completed_requests (metrics e') =
    completed_requests (metrics e) + Z.of_nat (length (completed_of evs)) /\
  dropped_requests (metrics e') =
    dropped_requests (metrics e) + Z.of_nat (length (dropped_of evs)) /\
  response_times (metrics e') =
    response_times (metrics e) ++ response_times_of (completed_of evs) /\
  length (response_times_of (completed_of evs)) = length (completed_of evs) /\
  c' = c + Z.of_nat (length (created_of evs)).
Proof.
  intro H.
  destruct (run_events_inv _ _ _ _ _ _ H) as [Hcount [Hall _]].
  destruct (record_events_counts evs (metrics e) Hall) as [M1 [M2 [M3 M4]]].
  rewrite <- (run_metrics _ _ _ _ _ _ H) in M1, M2, M3.
  destruct (run_ids _ _ _ _ _ _ H) as [Hc _].
  conjs; assumption.
Qed.

Lemma run_accounts_for_every_request_witness :
  exists c' e' evs,
    run sample_rng id_counter_initial new_engine = Ok (c', e', evs) /\
    (held_all (engine_servers new_engine) + length (created_of evs) =
     length (completed_of evs) + length (dropped_of evs)
     + waiting_all (engine_servers e'))%nat /\
    completed_requests (metrics e') =
      completed_requests (metrics new_engine) + Z.of_nat (length (completed_of evs)) /\
    dropped_requests (metrics e') =
      dropped_requests (metrics new_engine) + Z.of_nat (length (dropped_of evs)) /\
    response_times (metrics e') =
      response_times (metrics new_engine) ++ response_times_of (completed_of evs) /\
    length (response_times_of (completed_of evs)) = length (completed_of evs) /\
    c' = id_counter_initial + Z.of_nat (length (created_of evs)).
Proof.
  destruct sample_run_returns as [c' [e' [evs H]]].
  exists c', e', evs. split; [exact H|].
  exact (run_accounts_for_every_request sample_rng id_counter_initial c'
           new_engine e' evs H).
Defined.

(** ** The engine: dropped requests *)











(** ** The engine: the drain *)

Lemma drain_all_idle (ss : list ServerNode) (now : Q) (m : MetricsCollector) :
  Forall (fun s => current_request s = None) ss ->
  drain_all ss now m = (ss, m, []).
Proof.
  intro Hidle. induction Hidle as [|s ss Hs _ IH]; simpl; [reflexivity|].
  unfold drain_server. rewrite Hs, IH. reflexivity.
Qed.

(** X17.  The drain looks at the requests in service only.  It leaves
    every waiting queue and every server's log of completed requests as
    they are (so the requests it completes are in no server's log, and the
    waiting ones are neither completed nor dropped), keeps the clock and
    the dropped count, adds one completed request and one response time
    per busy server, and leaves every server idle; draining again changes
    nothing and records nothing. *)
Theorem drain_only_touches_requests_in_service (e : SimulationEngine) :
  map queue (engine_servers (fst (_drain_remaining e))) =
    map queue (engine_servers e) /\
  map completed_ (engine_servers (fst (_drain_remaining e))) =
    map completed_ (engine_servers e) /\
  Forall (fun s => current_request s = None)
         (engine_servers (fst (_drain_remaining e))) /\
  clock (fst (_drain_remaining e)) = clock e /\
  dropped_requests (metrics (fst (_drain_remaining e))) =
    dropped_requests (metrics e) /\
  completed_requests (metrics (fst (_drain_remaining e))) =
    completed_requests (metrics e)
    + Z.of_nat (length (filter is_busy (engine_servers e))) /\
  length (response_times (metrics (fst (_drain_remaining e)))) =
    (length (response_times (metrics e))
     + length (filter is_busy (engine_servers e)))%nat /\
  length (snd (_drain_remaining e)) = length (filter is_busy (engine_servers e)) /\
  _drain_remaining (fst (_drain_remaining e)) = (fst (_drain_remaining e), []).
Proof.
  destruct (drain_remaining_inv e)
    as [_ [Hclock [Hq [Hlog [Hidle [_ [Hkind Hset]]]]]]].
  assert (Hshape := drain_all_shape (engine_servers e) (clock e) (metrics e)).
  assert (Hm := drain_all_metrics (engine_servers e) (clock e) (metrics e)).
  assert (Hevs : snd (_drain_remaining e) =
                 snd (drain_all (engine_servers e) (clock e) (metrics e))).
  { unfold _drain_remaining. now destruct (drain_all _ _ _) as [[ss m] evs]. }
  assert (Hmet : metrics (fst (_drain_remaining e)) =
                 snd (fst (drain_all (engine_servers e) (clock e) (metrics e)))).
  { unfold _drain_remaining. now destruct (drain_all _ _ _) as [[ss m] evs]. }
  destruct (drain_all (engine_servers e) (clock e) (metrics e)) as [[ss m] evs] eqn:Ed.
  simpl in Hm, Hevs, Hmet. destruct Hshape as [_ [_ [Hcount _]]].
  rewrite Hevs in Hkind, Hset.
  destruct (record_events_counts evs (metrics e) Hset) as [M1 [M2 [M3 M4]]].
  rewrite <- Hm in M1, M2, M3.
  assert (Hlen : length (completed_of evs) = length evs).
  { rewrite Hkind at 2. now rewrite length_map. }
  assert (Hdrop : dropped_of evs = []).
  { rewrite Hkind. apply kinds_of_completed. }
  rewrite Hmet, Hevs.
  conjs; try assumption.
  - rewrite M2, Hdrop. simpl. lia.
  - rewrite M1, Hlen, Hcount. reflexivity.
  - rewrite M3, length_app, M4, Hlen, Hcount. reflexivity.
  - unfold _drain_remaining at 1.
    rewrite (drain_all_idle _ _ _ Hidle).
    unfold _drain_remaining. rewrite Ed. reflexivity.
Qed.

(** ** The engine: the requests of a run *)

Lemma arrivals_created (draws : list Q) (now : Q) (tmo : bound) :
  forall c lb c' lb' evs,
    arrivals draws now tmo c lb = Ok (c', lb', evs) ->
    created_of evs = created_at now tmo c draws.
Proof.
  induction draws as [|drawn draws IH]; intros c lb c' lb' evs H.
  - simpl in H. now injection H as <- <- <-.
  - cbn [arrivals ClientRequest_init] in H.
    returned H as [lb1 target] eqn E1.
    returned H as [[c2 lb2] evs2] eqn E2.
    injection H as <- <- <-. simpl. f_equal. eapply IH. exact E2.
Qed.

Lemma run_tick_created (draws : list Q) (c : Z) (e : SimulationEngine) :
  forall c' e' evs,
    run_tick draws c e = Ok (c', e', evs) ->
    created_of evs = created_at (clock e + dt e)%Q (request_timeout e) c draws.
Proof.
  intros c' e' evs H. unfold run_tick in H.
  returned H as [[c1 lb1] evs1] eqn Earr.
  pose proof (arrivals_created _ _ _ _ _ _ _ _ Earr) as Hc.
  match type of H with context [drop_all ?ss ?t ?m] =>
    pose proof (drop_all_events ss t m) as [Hdrop _];
    destruct (drop_all ss t m) as [[ss3 m3] evs2] end.
  simpl in H, Hdrop.
  returned H as [[ss4 m4] evs3] eqn Etick.
  injection H as <- <- <-.
  rewrite !created_of_app, Hdrop, (tick_all_created _ _ _ _ _ _ Etick), !app_nil_r.
  exact Hc.
Qed.

Lemma run_loop_created (count : nat) (rng : nat -> list Q) :
  forall i c e c' e' evs,
    run_loop count i rng c e = Ok (c', e', evs) ->
    created_of evs =
      created_stream count i rng c (clock e) (dt e) (request_timeout e).
Proof.
  induction count as [|count IH]; intros i c e c' e' evs H; simpl in H.
  - now injection H as <- <- <-.
  - returned H as [[c1 e1] evs1] eqn E1.
    returned H as [[c2 e2] evs2] eqn E2.
    injection H as <- <- <-.
    destruct (run_tick_inv _ _ _ _ _ _ E1) as [Hsame [Hclock _]].
    destruct Hsame as [_ [_ [_ [Hdt [Htmo _]]]]].
    destruct (run_tick_ids _ _ _ _ _ _ E1) as [Hc1 _].
    rewrite created_of_app, (run_tick_created _ _ _ _ _ _ E1), (IH _ _ _ _ _ _ E2).
    simpl. now rewrite Hclock, Hdt, Htmo, Hc1.
Qed.

Lemma created_at_data (now : Q) (tmo : bound) (c d : Z) (draws : list Q) :
  map request_data (created_at now tmo c draws) =
  map request_data (created_at now tmo d draws) /\
  map request_data (created_at now tmo c draws) = map (fun q => (now, q, tmo)) draws /\
  length (created_at now tmo c draws) = length draws.
Proof.
  revert c d. induction draws as [|drawn draws IH]; intros c d; simpl;
    [conjs; reflexivity|].
  destruct (IH (c + 1) (d + 1)) as [H1 [H2 H3]].
  conjs; [now rewrite H1 | now rewrite H2 | now rewrite H3].
Qed.

Lemma created_stream_data (count : nat) (rng : nat -> list Q) (start step : Q)
    (tmo : bound) :
  forall i c d,
    map request_data (created_stream count i rng c start step tmo) =
    map request_data (created_stream count i rng d start step tmo).
Proof.
  revert start. induction count as [|count IH]; intros start i c d; simpl;
    [reflexivity|].
  rewrite !map_app. f_equal; [apply created_at_data | apply IH].
Qed.


Lemma run_created
    (rng : nat -> list Q) (c c' : Z) (e e' : SimulationEngine) (evs : list event) :
  run rng c e = Ok (c', e', evs) ->
  created_of evs =
    created_stream (Z.to_nat (py_int (sim_duration e / dt e))) 0 rng c
                   (clock e) (dt e) (request_timeout e).
Proof.
  intro H.
  destruct (run_unfold _ _ _ _ _ _ H) as [_ [e1 [evs1 [Hloop [_ Hevs]]]]].
  destruct (drain_remaining_inv e1) as [_ [_ [_ [_ [_ [_ [Hkind _]]]]]]].
  rewrite Hevs, created_of_app, Hkind.
  destruct (kinds_of_completed (completed_of (snd (_drain_remaining e1))))
    as [-> _].
  rewrite app_nil_r. eapply run_loop_created. exact Hloop.
Qed.



(** ** main.py: the two experiments *)

Lemma run_total (rng : nat -> list Q) (c : Z) (e : SimulationEngine) :
  engine_ok e -> engine_servers e <> [] ->
  (forall i q, In q (rng i) -> (0 <= q)%Q) ->
  exists c' e' evs, run rng c e = Ok (c', e', evs).
Proof.
  intros Hok Hne Hrng. unfold run, py_div.
  destruct (Qeq_bool (dt e) 0) eqn:Ez.
  - apply Qeq_bool_iff in Ez. destruct Hok as [_ [_ Hdt]]. exfalso. lra.
  - simpl.
    destruct (proj1 (run_loop_ok rng (Z.to_nat (py_int (sim_duration e / dt e)))
                       Hrng 0%nat c e Hok) Hne) as [[[c1 e1] evs1] E1].
    rewrite E1. simpl. destruct (_drain_remaining e1) as [e2 evs2].
    now exists c1, e2, (evs1 ++ evs2).
Qed.

Lemma run_experiment_returns (rng : nat -> list Q) (c : Z) (alg : string) :
  alg = "round_robin"%string \/ alg = "least_loaded"%string ->
  (forall i q, In q (rng i) -> (0 <= q)%Q) ->
  exists e c' e' evs,
    SimulationEngine_init 3 2 (3 # 2) 500 1 alg (Finite 50) = Ok e /\
    run rng c e = Ok (c', e', evs) /\
    run_experiment rng c alg = Ok (c', e', evs) /\
    clock e = 0%Q /\ dt e = 1%Q /\ sim_duration e = 500%Q /\
    request_timeout e = Finite 50 /\
    algorithm (load_balancer e) = alg /\
    length (engine_servers e) = 3%nat.
Proof.
  intros Halg Hrng.
  assert (Hinit : exists e,
            SimulationEngine_init 3 2 (3 # 2) 500 1 alg (Finite 50) = Ok e).
  { destruct Halg as [->| ->]; eexists; reflexivity. }
  destruct Hinit as [e Hinit].
  destruct (SimulationEngine_init_ok _ _ _ _ _ _ _ _ Hinit)
    as [Hclock [Hdt [Hdur [Htmo [_ [Hss [_ [Ha _]]]]]]]].
  assert (Hok : engine_ok e).
  { unfold engine_ok. rewrite Hss, Hclock, Hdt.
    split; [apply new_servers_ok|]. split; [apply Qle_refl | reflexivity]. }
  assert (Hlen : length (engine_servers e) = 3%nat) by (rewrite Hss; reflexivity).
  assert (Hne : engine_servers e <> []).
  { intro E. rewrite E in Hlen. discriminate. }
  destruct (run_total rng c e Hok Hne Hrng) as [c' [e' [evs Hrun]]].
  exists e, c', e', evs.
  split; [exact Hinit|]. split; [exact Hrun|].
  split; [unfold run_experiment; rewrite Hinit; exact Hrun|].
  conjs; assumption.
Qed.

(** X19.  The comparison [main] makes is on equal terms.  For every random
    stream with non-negative service times, [main] returns: it runs the
    cyclic policy and then the least-loaded policy, each on a new engine
    of three servers for 500 ticks; both experiments create the same
    requests (same arrival times, service times and timeouts, in the same
    order); only the identifiers differ, those of the second experiment
    continuing after those of the first; and at the end of each experiment
    no server is busy. *)
Theorem main_compares_on_equal_terms (rng : nat -> list Q) (id_counter : Z) :
  (forall i q, In q (rng i) -> (0 <= q)%Q) ->
  exists c1 c2 e1 evs1 e2 evs2,
    run_experiment rng id_counter "round_robin" = Ok (c1, e1, evs1) /\
    run_experiment rng c1 "least_loaded" = Ok (c2, e2, evs2) /\
    main rng id_counter = Ok (c2, (e1, evs1), (e2, evs2)) /\
    algorithm (load_balancer e1) = "round_robin"%string /\
    algorithm (load_balancer e2) = "least_loaded"%string /\
    map request_data (created_of evs1) = map request_data (created_of evs2) /\
    map request_id (created_of evs1) =
      consecutive id_counter (length (created_of evs1)) /\
    map request_id (created_of evs2) =
      consecutive (id_counter + Z.of_nat (length (created_of evs1)))
                  (length (created_of evs1)) /\
    (clock e1 == 500)%Q /\ (clock e2 == 500)%Q /\
    Forall (fun s => current_request s = None) (engine_servers e1) /\
    Forall (fun s => current_request s = None) (engine_servers e2).
Proof.
  intro Hrng.
  destruct (run_experiment_returns rng id_counter "round_robin" (or_introl eq_refl) Hrng)
    as [ea [c1 [e1 [evs1 [_ [Hr1 [Hx1 [Hc1 [Hd1 [Hs1 [Ht1 [Ha1 _]]]]]]]]]]]].
  destruct (run_experiment_returns rng c1 "least_loaded" (or_intror eq_refl) Hrng)
    as [eb [c2 [e2 [evs2 [_ [Hr2 [Hx2 [Hc2 [Hd2 [Hs2 [Ht2 [Ha2 _]]]]]]]]]]]].
  exists c1, c2, e1, evs1, e2, evs2.
  assert (Hend : forall c c' e e' evs,
            run rng c e = Ok (c', e', evs) ->
            clock e = 0%Q -> dt e = 1%Q -> sim_duration e = 500%Q ->
            (clock e' == 500)%Q /\
            Forall (fun s => current_request s = None) (engine_servers e') /\
            algorithm (load_balancer e') = algorithm (load_balancer e)).
  { intros c c' e e' evs H Hc Hd Hs.
    destruct (run_unfold _ _ _ _ _ _ H) as [_ [e0 [evs0 [Hloop [-> _]]]]].
    destruct (run_loop_clock _ _ _ _ _ _ _ _ Hloop) as [Hsame Hclock].
    destruct (drain_remaining_inv e0) as [Hsame2 [Hclock2 [_ [_ [Hidle _]]]]].
    rewrite Hclock2. split; [|split; [exact Hidle|]].
    - rewrite Hclock, Hc, Hd, Hs. vm_compute. reflexivity.
    - destruct Hsame as [_ [_ [_ [_ [_ [_ [A _]]]]]]].
      destruct Hsame2 as [_ [_ [_ [_ [_ [_ [B _]]]]]]]. congruence. }
  destruct (Hend _ _ _ _ _ Hr1 Hc1 Hd1 Hs1) as [Hk1 [Hi1 Hal1]].
  destruct (Hend _ _ _ _ _ Hr2 Hc2 Hd2 Hs2) as [Hk2 [Hi2 Hal2]].
  pose proof (run_created _ _ _ _ _ _ Hr1) as Hcr1.
  pose proof (run_created _ _ _ _ _ _ Hr2) as Hcr2.
  rewrite Hc1, Hd1, Hs1, Ht1 in Hcr1. rewrite Hc2, Hd2, Hs2, Ht2 in Hcr2.
  assert (Hdata : map request_data (created_of evs1) =
                  map request_data (created_of evs2)).
  { rewrite Hcr1, Hcr2. apply created_stream_data. }
  assert (Hlen : length (created_of evs2) = length (created_of evs1)).
  { rewrite <- (length_map request_data (created_of evs2)), <- Hdata.
    apply length_map. }
  destruct (run_ids _ _ _ _ _ _ Hr1) as [Hn1 Hids1].
  destruct (run_ids _ _ _ _ _ _ Hr2) as [Hn2 Hids2].
  split; [exact Hx1|]. split; [exact Hx2|].
  split; [unfold main; rewrite Hx1; simpl; rewrite Hx2; reflexivity|].
  split; [congruence|]. split; [congruence|].
  split; [exact Hdata|]. split; [exact Hids1|].
  split; [rewrite Hids2, Hlen, Hn1; reflexivity|].
  conjs; assumption.
Qed.

Lemma main_compares_on_equal_terms_witness :
  exists c1 c2 e1 evs1 e2 evs2,
    run_experiment sample_rng id_counter_initial "round_robin" = Ok (c1, e1, evs1) /\
    run_experiment sample_rng c1 "least_loaded" = Ok (c2, e2, evs2) /\
    main sample_rng id_counter_initial = Ok (c2, (e1, evs1), (e2, evs2)) /\
    algorithm (load_balancer e1) = "round_robin"%string /\
    algorithm (load_balancer e2) = "least_loaded"%string /\
    map request_data (created_of evs1) = map request_data (created_of evs2) /\
    map request_id (created_of evs1) =
      consecutive id_counter_initial (length (created_of evs1)) /\
    map request_id (created_of evs2) =
      consecutive (id_counter_initial + Z.of_nat (length (created_of evs1)))
                  (length (created_of evs1)) /\
    (clock e1 == 500)%Q /\ (clock e2 == 500)%Q /\
    Forall (fun s => current_request s = None) (engine_servers e1) /\
    Forall (fun s => current_request s = None) (engine_servers e2).
Proof.
  apply (main_compares_on_equal_terms sample_rng id_counter_initial).
  intros [|[|i]] q Hq; simpl in Hq;
    repeat (destruct Hq as [<-|Hq]; [vm_compute; discriminate|]);
    contradiction.
Defined.

(** ** The engine: order of the steps of a tick *)

Lemma created_at_fields (now : Q) (tmo : bound) (c : Z) (draws : list Q) :
  Forall (fun r => arrival_time r = now /\ timeout r = tmo)
         (created_at now tmo c draws).
Proof.
  revert c. induction draws as [|drawn draws IH]; intro c; simpl; constructor;
    [split; reflexivity | apply IH].
Qed.

Lemma one_tick_returns :
  exists c' e' evs,
    run_tick (sample_rng 0) id_counter_initial impatient_engine = Ok (c', e', evs) /\
    length (created_of evs) = 3%nat.
Proof. do 3 eexists. split; [vm_compute; reflexivity | reflexivity]. Qed.

(** X20.  Within a tick the arrivals come before the eviction, and the
    eviction uses the clock of the tick: with an unbounded or a
    non-negative timeout, no request is dropped in the tick in which it
    arrives (a request with timeout 0 is dropped one tick later at the
    earliest). *)
Theorem new_arrivals_are_not_dropped
    (draws : list Q) (c c' : Z) (e e' : SimulationEngine) (evs : list event) :
  run_tick draws c e = Ok (c', e', evs) ->
  (request_timeout e = Infinity \/
   exists q, request_timeout e = Finite q /\ (0 <= q)%Q) ->
  forall r, In r (created_of evs) -> ~ In r (dropped_of evs).
Proof.
  intros H Htmo r Hcreated Hdropped.
  destruct (run_tick_inv _ _ _ _ _ _ H) as [_ [Hclock [_ [_ [_ Hout]]]]].
  rewrite Forall_forall in Hout. specialize (Hout r Hdropped).
  rewrite (run_tick_created _ _ _ _ _ _ H) in Hcreated.
  pose proof (created_at_fields (clock e + dt e) (request_timeout e) c draws) as Hf.
  rewrite Forall_forall in Hf. destruct (Hf r Hcreated) as [Harr Hr].
  rewrite Hclock, <- Harr in Hout.
  apply is_timed_out_iff in Hout. destruct Hout as [_ [tmo [Ht Hlt]]].
  rewrite Hr in Ht. destruct Htmo as [Hinf|[q [Hq Hpos]]].
  - congruence.
  - rewrite Hq in Ht. injection Ht as <-. lra.
Qed.

Lemma new_arrivals_are_not_dropped_witness :
  exists c' e' evs,
    run_tick (sample_rng 0) id_counter_initial impatient_engine = Ok (c', e', evs) /\
    forall r, In r (created_of evs) -> ~ In r (dropped_of evs).
Proof.
  destruct one_tick_returns as [c' [e' [evs [H _]]]].
  exists c', e', evs. split; [exact H|].
  apply (new_arrivals_are_not_dropped (sample_rng 0) id_counter_initial c'
           impatient_engine e' evs H).
  right. exists 0%Q. split; [reflexivity | apply Qle_refl].
Defined.

(** ** The engine: first come, first served *)

Lemma sorted_snoc (l : list Z) (x : Z) :
  StronglySorted Z.lt l -> Forall (fun i => i < x) l ->
  StronglySorted Z.lt (l ++ [x]).
Proof.
  intros Hs Hall. induction Hs as [|a l Hs IH Ha]; simpl.
  - repeat constructor.
  - inversion Hall as [|a' l' Hax Hrest]; subst.
    constructor; [apply IH, Hrest|].
    apply Forall_app. split; [exact Ha | constructor; [exact Hax | constructor]].
Qed.

Lemma sorted_app_inv (l1 l2 : list Z) :
  StronglySorted Z.lt (l1 ++ l2) ->
  StronglySorted Z.lt l1 /\ StronglySorted Z.lt l2 /\
  forall a b, In a l1 -> In b l2 -> a < b.
Proof.
  induction l1 as [|x l1 IH]; simpl; intro H.
  - split; [constructor|]. split; [exact H|]. intros a b [].
  - inversion H as [|x' l' Hs Hall]; subst.
    destruct (IH Hs) as [H1 [H2 H3]].
    apply Forall_app in Hall. destruct Hall as [Ha1 Ha2].
    split; [constructor; assumption|]. split; [exact H2|].
    intros a b [<-|Ha] Hb.
    + rewrite Forall_forall in Ha2. now apply Ha2.
    + now apply H3.
Qed.

Lemma sorted_drop_middle (l1 l2 l3 : list Z) :
  StronglySorted Z.lt (l1 ++ l2 ++ l3) -> StronglySorted Z.lt (l1 ++ l3).
Proof.
  induction l1 as [|x l1 IH]; simpl; intro H.
  - now apply sorted_app_inv in H.
  - inversion H as [|x' l' Hs Hall]; subst.
    constructor; [apply IH, Hs|].
    rewrite !Forall_app in Hall. destruct Hall as [Ha [_ Hc]].
    apply Forall_app. split; assumption.
Qed.

Lemma sorted_filter_tail (f : ClientRequest -> bool) (l1 : list Z)
    (q : list ClientRequest) :
  StronglySorted Z.lt (l1 ++ map request_id q) ->
  StronglySorted Z.lt (l1 ++ map request_id (filter f q)).
Proof.
  revert l1. induction q as [|r q IH]; intros l1 H; simpl; [exact H|].
  destruct (f r).
  - simpl. change (request_id r :: map request_id (filter f q))
      with ([request_id r] ++ map request_id (filter f q)).
    rewrite app_assoc. apply IH. rewrite <- app_assoc. exact H.
  - apply IH. simpl in H.
    change (request_id r :: map request_id q)
      with ([request_id r] ++ map request_id q) in H.
    now apply sorted_drop_middle in H.
Qed.

Lemma in_order_mono (c c' : Z) (s : ServerNode) :
  c <= c' -> in_order c s -> in_order c' s.
Proof.
  intros Hle [Hs Hb]. split; [exact Hs|].
  eapply Forall_impl; [|exact Hb]. simpl. intros; lia.
Qed.

Lemma enqueue_in_order (c : Z) (s : ServerNode) (req : ClientRequest) :
  request_id req = c + 1 -> in_order c s -> in_order (c + 1) (enqueue s req).
Proof.
  intros Hid [Hs Hb].
  assert (Hline : server_line (enqueue s req) = server_line s ++ [c + 1]).
  { unfold server_line, in_service. simpl.
    rewrite !app_assoc, map_app. simpl. now rewrite Hid. }
  unfold in_order. rewrite Hline. split.
  - apply sorted_snoc; [exact Hs|].
    eapply Forall_impl; [|exact Hb]. simpl. intros; lia.
  - apply Forall_app. split.
    + eapply Forall_impl; [|exact Hb]. simpl. intros; lia.
    + constructor; [lia | constructor].
Qed.

Lemma update_at_Forall_step {A : Type} (P R : A -> Prop) (f : A -> A) (i : nat)
    (l : list A) :
  (forall x, P x -> R x) -> (forall x, P x -> R (f x)) ->
  Forall P l -> Forall R (update_at i f l).
Proof.
  intros Hkeep Hf. revert i. induction l as [|x l IH]; intros i Hl; simpl.
  - destruct i; constructor.
  - inversion Hl as [|x' l' Hx Hl']; subst.
    destruct i as [|i]; constructor; auto.
    eapply Forall_impl; [|exact Hl']. exact Hkeep.
Qed.

Lemma arrivals_in_order (draws : list Q) (now : Q) (tmo : bound) :
  forall c lb c' lb' evs,
    Forall (in_order c) (servers lb) ->
    arrivals draws now tmo c lb = Ok (c', lb', evs) ->
    Forall (in_order c') (servers lb').
Proof.
  induction draws as [|drawn draws IH]; intros c lb c' lb' evs Hin H.
  - simpl in H. now injection H as <- <- <-.
  - cbn [arrivals ClientRequest_init] in H.
    returned H as [lb1 target] eqn E1.
    returned H as [[c2 lb2] evs2] eqn E2.
    injection H as <- <- <-.
    eapply IH; [|exact E2].
    destruct (dispatch_inv _ _ _ _ E1) as [_ [_ [-> _]]].
    apply (update_at_Forall_step (in_order c) (in_order (c + 1))); [| |exact Hin].
    + intros s Hs. apply (in_order_mono c); [lia | exact Hs].
    + intros s Hs. now apply enqueue_in_order.
Qed.

Lemma drop_all_in_order (c : Z) (ss : list ServerNode) (now : Q) (m : MetricsCollector) :
  Forall (in_order c) ss -> Forall (in_order c) (fst (fst (drop_all ss now m))).
Proof.
  intro Hin. revert m. induction Hin as [|s ss Hs _ IH]; intro m; simpl.
  - constructor.
  - rewrite drop_timed_out_eq.
    specialize (IH (fold_left record_drop
                      (filter (fun r => is_timed_out r now) (queue s)) m)).
    destruct (drop_all ss now _) as [[ss1 m2] evs]. simpl in *.
    constructor; [|exact IH].
    destruct Hs as [Hsorted Hbound]. unfold in_order, server_line in *. simpl.
    rewrite !app_assoc, map_app in *. split.
    + now apply sorted_filter_tail.
    + apply Forall_app in Hbound. destruct Hbound as [Hb1 Hb2].
      apply Forall_app. split; [exact Hb1|].
      rewrite Forall_map in *. now apply Forall_filter.
Qed.

Lemma tick_line (s s' : ServerNode) (now : Q) (done : list ClientRequest) :
  tick s now = Ok (s', done) -> server_line s' = server_line s.
Proof.
  unfold tick, tick_finish, server_line, in_service.
  destruct (current_request s) as [req|] eqn:Hcur.
  - destruct (completion_time req) as [t|]; simpl; [|discriminate].
    destruct (Qge_bool now t); simpl; intro H; injection H as <- <-.
    + unfold tick_start. simpl.
      destruct (queue s) as [|next_req rest]; simpl;
        rewrite <- !app_assoc, !map_app; reflexivity.
    + rewrite (tick_start_busy s now req Hcur). now rewrite Hcur.
  - simpl. intro H. injection H as <- <-.
    unfold tick_start. rewrite Hcur.
    destruct (queue s) as [|next_req rest] eqn:Hq; simpl.
    + now rewrite Hcur, Hq.
    + rewrite !map_app. reflexivity.
Qed.

Lemma tick_all_in_order (c : Z) (ss : list ServerNode) (now : Q) :
  forall m ss' m' evs,
    Forall (in_order c) ss ->
    tick_all ss now m = Ok (ss', m', evs) ->
    Forall (in_order c) ss'.
Proof.
  induction ss as [|s ss IH]; intros m ss' m' evs Hin H; simpl in H.
  - injection H as <- <- <-. constructor.
  - returned H as [s1 done] eqn E1.
    returned H as [[ss1 m2] evs2] eqn E2.
    injection H as <- <- <-.
    inversion Hin as [|s0 l Hs Hrest]; subst.
    constructor; [|eapply IH; eassumption].
    unfold in_order. rewrite (tick_line _ _ _ _ E1). exact Hs.
Qed.

Lemma drain_all_in_order (c : Z) (ss : list ServerNode) (now : Q)
    (m : MetricsCollector) :
  Forall (in_order c) ss -> Forall (in_order c) (fst (fst (drain_all ss now m))).
Proof.
  intro Hin. revert m. induction Hin as [|s ss Hs _ IH]; intro m; simpl.
  - constructor.
  - unfold drain_server at 1.
    destruct (current_request s) as [req|] eqn:Hcur.
    + match goal with |- context [drain_all ss now ?m1] => specialize (IH m1) end.
      destruct (drain_all ss now _) as [[ss1 m2] evs]. simpl in *.
      constructor; [|exact IH].
      destruct Hs as [Hsorted Hbound].
      unfold in_order, server_line, in_service in *. simpl. rewrite Hcur in *.
      rewrite !map_app in *. split.
      * now apply sorted_drop_middle in Hsorted.
      * rewrite !Forall_app in Hbound. destruct Hbound as [H1 [_ H3]].
        apply Forall_app. split; assumption.
    + specialize (IH m).
      destruct (drain_all ss now m) as [[ss1 m2] evs]. simpl in *.
      constructor; assumption.
Qed.

Lemma run_tick_in_order (draws : list Q) (c : Z) (e : SimulationEngine) :
  forall c' e' evs,
    Forall (in_order c) (engine_servers e) ->
    run_tick draws c e = Ok (c', e', evs) ->
    Forall (in_order c') (engine_servers e').
Proof.
  intros c' e' evs Hin H. unfold run_tick in H.
  returned H as [[c1 lb1] evs1] eqn Earr.
  pose proof (arrivals_in_order _ _ _ _ _ _ _ _ Hin Earr) as H1.
  match type of H with context [drop_all ?ss ?t ?m] =>
    pose proof (drop_all_in_order c1 ss t m H1) as H2;
    destruct (drop_all ss t m) as [[ss3 m3] evs2] end.
  simpl in H, H2.
  returned H as [[ss4 m4] evs3] eqn Etick.
  injection H as <- <- <-.
  unfold engine_servers. simpl.
  eapply tick_all_in_order; [exact H2 | exact Etick].
Qed.

(** X21.  First come, first served.  If, at the start of a run, the
    identifiers along every server (completed log, then the request in
    service, then the waiting queue) increase strictly and do not exceed
    the identifier counter, as in a new engine, then at the end of the run
    every server's log of completed requests is in strictly increasing
    order of identifier, so is its waiting queue, every logged request has
    a smaller identifier than every waiting one, and no identifier exceeds
    the counter.  In particular no request is served twice by a server and
    no request overtakes an earlier one on the same server. *)
Theorem servers_serve_in_arrival_order
    (rng : nat -> list Q) (c c' : Z) (e e' : SimulationEngine) (evs : list event) :
  run rng c e = Ok (c', e', evs) ->
  Forall (in_order c) (engine_servers e) ->
  forall s, In s (engine_servers e') ->
    StronglySorted Z.lt (map request_id (completed_ s)) /\
    StronglySorted Z.lt (map request_id (queue s)) /\
    (forall a b, In a (completed_ s) -> In b (queue s) ->
                 request_id a < request_id b) /\
    (forall r, In r (completed_ s ++ queue s) -> request_id r <= c').
Proof.
  intros H Hin s Hs.
  destruct (run_unfold _ _ _ _ _ _ H) as [_ [e1 [evs1 [Hloop [He' _]]]]].
  pose proof (run_loop_invariant
                (fun c0 e0 _ => Forall (in_order c0) (engine_servers e0)) rng) as Hinv.
  simpl in Hinv.
  assert (H1 : Forall (in_order c') (engine_servers e1)).
  { eapply (Hinv (fun i c0 e0 _ c0' e0' evs0' Hp Ht =>
                    run_tick_in_order _ _ _ _ _ _ Hp Ht)
                 _ _ _ _ [] _ _ _ Hin Hloop). }
  assert (H2 : Forall (in_order c') (engine_servers e')).
  { rewrite He'. unfold _drain_remaining.
    pose proof (drain_all_in_order c' (engine_servers e1) (clock e1) (metrics e1) H1)
      as Hd.
    destruct (drain_all _ _ _) as [[ss m] evs2]. exact Hd. }
  assert (Hidle : current_request s = None).
  { destruct (drain_remaining_inv e1) as [_ [_ [_ [_ [Hi _]]]]].
    rewrite <- He' in Hi. rewrite Forall_forall in Hi. now apply Hi. }
  rewrite Forall_forall in H2. destruct (H2 s Hs) as [Hsorted Hbound].
  unfold server_line, in_service in Hsorted, Hbound. rewrite Hidle in *.
  simpl in Hsorted, Hbound. rewrite map_app in Hsorted.
  destruct (sorted_app_inv _ _ Hsorted) as [S1 [S2 S3]].
  split; [exact S1|]. split; [exact S2|]. split.
  - intros a b Ha Hb. apply S3; now apply in_map.
  - intros r Hr. rewrite Forall_forall in Hbound. apply Hbound.
    now apply in_map.
Qed.

Lemma servers_serve_in_arrival_order_witness :
  exists c' e' evs,
    run sample_rng id_counter_initial new_engine = Ok (c', e', evs) /\
    forall s, In s (engine_servers e') ->
      StronglySorted Z.lt (map request_id (completed_ s)) /\
      StronglySorted Z.lt (map request_id (queue s)) /\
      (forall a b, In a (completed_ s) -> In b (queue s) ->
                   request_id a < request_id b) /\
      (forall r, In r (completed_ s ++ queue s) -> request_id r <= c').
Proof.
  destruct sample_run_returns as [c' [e' [evs H]]].
  exists c', e', evs. split; [exact H|].
  apply (servers_serve_in_arrival_order sample_rng id_counter_initial c'
           new_engine e' evs H).
  repeat constructor.
Defined.

(** ** The engine: a negative timeout *)















